(** * host_did_web: the batched did:web publication service

  A shallow embedding of [host_did_web/src/main.go] (identifier parsing,
  target-file derivation, document saving, the batching coordinator and the
  git publisher) together with the properties its specification states.

  Go strings and byte slices are byte sequences and are modelled by
  [string]; a Go [error] is [option Err] ([None] is [nil]); a Go map is a
  [gmap]; external effects (the [git] tool, the file system, HTTP, the
  JSON codec) are operations of an abstract world, and every effectful call
  is recorded in a trace. The functions of [strings] that work on Unicode
  code points are parameters, known only on ASCII text. *)

From Stdlib Require Import Ascii String List Arith Lia Bool.
From stdpp Require Import base option list gmap strings pretty.

Local Open Scope string_scope.

(** ** The Go standard library functions the program calls *)

Module GoStrings.

(** [strings.HasPrefix]. *)
Definition HasPrefix (s pre : string) : bool := String.prefix pre s.

(** [strings.HasSuffix]: some tail of [s] is [suf]. *)
Fixpoint HasSuffix (s suf : string) : bool :=
  String.eqb s suf ||
  match s with
  | EmptyString => false
  | String _ s' => HasSuffix s' suf
  end.

(** [strings.TrimSuffix]. *)
Definition TrimSuffix (s suf : string) : string :=
  if HasSuffix s suf
  then String.substring 0 (String.length s - String.length suf) s
  else s.

(** Lower-casing of one byte: the letters [A] to [Z]. *)
Definition lower_ascii (c : ascii) : ascii :=
  let n := nat_of_ascii c in
  if (65 <=? n)%nat && (n <=? 90)%nat then ascii_of_nat (n + 32) else c.

(** Lower-casing byte by byte. *)
Fixpoint ascii_lower (s : string) : string :=
  match s with
  | EmptyString => EmptyString
  | String c s' => String (lower_ascii c) (ascii_lower s')
  end.

(** Equality up to the case of the letters [A] to [Z]. *)
Definition ascii_fold_eq (a b : string) : bool :=
  String.eqb (ascii_lower a) (ascii_lower b).

(** [strings.Split(s, sep)] for a one-byte separator: the pieces between
    the separators, [n + 1] pieces for [n] separators. *)
Fixpoint Split (s : string) (sep : ascii) : list string :=
  match s with
  | EmptyString => [EmptyString]
  | String c s' =>
      if Ascii.eqb c sep then EmptyString :: Split s' sep
      else match Split s' sep with
           | [] => [String c EmptyString]
           | w :: ws => String c w :: ws
           end
  end.

(** [strings.Join]. *)
Definition Join (elems : list string) (sep : string) : string :=
  String.concat sep elems.

Definition is_space (c : ascii) : bool :=
  let n := nat_of_ascii c in
  (n =? 32)%nat || ((9 <=? n)%nat && (n <=? 13)%nat).

Fixpoint trim_left (s : string) : string :=
  match s with
  | String c s' => if is_space c then trim_left s' else s
  | EmptyString => EmptyString
  end.

(** Drops trailing white space: a byte is kept when it is not a space or
    when something is kept after it. *)
Fixpoint trim_right (s : string) : string :=
  match s with
  | EmptyString => EmptyString
  | String c s' =>
      match trim_right s' with
      | EmptyString => if is_space c then EmptyString else String c EmptyString
      | r => String c r
      end
  end.

(** Removing the six ASCII white-space bytes from both ends. *)
Definition ascii_trim (s : string) : string := trim_right (trim_left s).

(** Every byte is below 128. *)
Fixpoint is_ascii (s : string) : bool :=
  match s with
  | EmptyString => true
  | String c s' => (nat_of_ascii c <? 128)%nat && is_ascii s'
  end.

(** [strings.ToLower], [strings.EqualFold] and [strings.TrimSpace] work on
    Unicode code points: [ToLower] maps U+0130 to [i], [EqualFold] folds the
    Kelvin sign U+212A with [k], [TrimSpace] removes U+0085 and U+00A0. Their
    tables are not part of the program; the three functions are parameters
    of which only the ASCII behaviour is fixed, where they are the byte-wise
    functions above. *)
Class Unicode := {
  ToLower : string -> string;
  EqualFold : string -> string -> bool;
  TrimSpace : string -> string;
  ToLower_ascii : forall s, is_ascii s = true -> ToLower s = ascii_lower s;
  EqualFold_ascii : forall a b,
    is_ascii a = true -> is_ascii b = true ->
    EqualFold a b = ascii_fold_eq a b;
  TrimSpace_ascii : forall s, is_ascii s = true -> TrimSpace s = ascii_trim s;
}.

End GoStrings.

Import GoStrings.


(** [path/filepath] on a Unix host, where the separator is the slash and
    there are no volume names. *)
Module GoFilepath.

Definition slash : ascii := "/"%char.

Definition is_rooted (path : string) : bool :=
  match path with
  | String c _ => Ascii.eqb c slash
  | EmptyString => false
  end.

(** One element of the scan of [filepath.Clean]; [out] holds the elements
    kept so far, the last one first. Empty elements and [.] are dropped, [..]
    removes the element before it, is dropped at the root, and is kept at the
    start of a relative path. *)
Definition clean_elem (rooted : bool) (out : list string) (elem : string)
  : list string :=
  if String.eqb elem "" || String.eqb elem "." then out
  else if String.eqb elem ".." then
    match out with
    | top :: rest => if String.eqb top ".." then elem :: out else rest
    | [] => if rooted then [] else [elem]
    end
  else elem :: out.

(** [filepath.Clean]. *)
Definition Clean (path : string) : string :=
  if String.eqb path "" then "."
  else
    let rooted := is_rooted path in
    let out := rev (fold_left (clean_elem rooted) (Split path slash) []) in
    if rooted then String slash (Join out "/")
    else match out with
         | [] => "."
         | _ => Join out "/"
         end.

Fixpoint drop_empty (elems : list string) : list string :=
  match elems with
  | e :: rest => if String.eqb e "" then drop_empty rest else elems
  | [] => []
  end.

(** [filepath.Base]: the last element, trailing slashes removed first;
    [.] for the empty path and the slash for a path of slashes only. *)
Definition Base (path : string) : string :=
  if String.eqb path "" then "."
  else match drop_empty (rev (Split path slash)) with
       | e :: _ => e
       | [] => "/"
       end.

(** [filepath.Dir]: everything up to and including the last slash, cleaned. *)
Definition Dir (path : string) : string :=
  match Split path slash with
  | [] | [_] => Clean ""
  | elems => Clean (Join (removelast elems) "/" +:+ "/")
  end.

(** [filepath.Join]: the elements from the first non-empty one on, joined by
    slashes and cleaned; the empty string when there is none. *)
Definition Join (elem : list string) : string :=
  match drop_empty elem with
  | [] => ""
  | es => Clean (GoStrings.Join es "/")
  end.

End GoFilepath.

(** ** The data model *)

(** The error values the program builds, one constructor for each
    [fmt.Errorf] site; [ErrOS] stands for an error handed back by the [os]
    or [net/http] package and [cause] arguments for the wrapped error. *)
Inductive Err : Type :=
| ErrNotDidWeb (did : string)
| ErrMissingProject (did : string)
| ErrParse (cause : Err)
| ErrHostNotGithubIO (host : string)
| ErrFetch (cause : Err)
| ErrSave (cause : Err)
| ErrGitOps (cause : Err)
| ErrTimeout
| ErrRemoteNotFound (remote : string)
| ErrGetRemoteURL
| ErrNotGitHubURL (remoteURL : string)
| ErrUsernameMismatch (expected got : string)
| ErrRepoMismatch (expected got : string)
| ErrCurrentBranch
| ErrCreateBranch (branch : string)
| ErrCheckoutBranch (branch : string)
| ErrCheckout (branch : string) (cause : Err)
| ErrAddFiles
| ErrCommit
| ErrPush (branch : string)
| ErrHTTPStatus (code : nat)
| ErrDocParse
| ErrNoIDField
| ErrIDMismatch (got expected : string)
| ErrOS (msg : string).

(** A Go [error]: [None] is [nil]. *)
Abbreviation error := (option Err).

Record Config := {
  ServerURL : string;
  Branch : string;
  GitRemote : string;
  CommitMsg : string;
  DryRun : bool;
  Port : string;
  BatchTimeout : nat;   (* in time units; 0 stands for any duration that is
                           not positive *)
  BatchSize : Z;        (* a Go int: the environment may set it to 0 or below *)
}.

Record ParsedDID := {
  Original : string;
  Host : string;
  Project : string;
  PathSegs : list string;
  HostLower : string;
}.

(** A response channel [chan error] of capacity 1 is known by its identity;
    its buffer lives in the coordinator state. The field [ParsedDID] of the
    source is [ItemDID] here, the name being taken by the record above. *)
Record BatchItem := {
  TargetFile : string;
  ItemDID : ParsedDID;
  ResponseCh : nat;
}.

(** ** The identifier resolver *)

Definition parseDID `{!Unicode} (did : string) : Err + ParsedDID :=
  if negb (HasPrefix did "did:web:") then inl (ErrNotDidWeb did)
  else
    let parts := Split did ":"%char in
    if (length parts <? 4)%nat then inl (ErrMissingProject did)
    else inr {| Original := did;
                Host := nth 2 parts "";
                Project := nth 3 parts "";
                PathSegs := drop 4 parts;
                HostLower := ToLower (nth 2 parts "") |}.

(** The identity string built in [validateDIDDocumentID]. *)
Definition expectedID (parsed : ParsedDID) : string :=
  let expectedID := "did:web:" +:+ Host parsed +:+ ":" +:+ Project parsed in
  if (0 <? length (PathSegs parsed))%nat
  then expectedID +:+ ":" +:+ GoStrings.Join (PathSegs parsed) ":"
  else expectedID.

(** The loop of [determineTargetFile]: while the first remaining segment is
    the base name of [cwd], drop it and go up one directory. *)
Fixpoint trimSegs (cwd : string) (trimmedSegs : list string) : list string :=
  match trimmedSegs with
  | [] => []
  | seg :: rest =>
      let lastDir := GoFilepath.Base cwd in
      if String.eqb lastDir seg then trimSegs (GoFilepath.Dir cwd) rest
      else trimmedSegs
  end.

(** [determineTargetFile] once [os.Getwd] has answered [cwd]. *)
Definition targetFileIn (cwd : string) (parsed : ParsedDID) : string :=
  let trimmedSegs := trimSegs cwd (PathSegs parsed) in
  let targetDir :=
    if (0 <? length trimmedSegs)%nat then GoStrings.Join trimmedSegs "/"
    else "." in
  GoFilepath.Join [targetDir; "did.json"].


(** Following the spec's words, "stripping from PathSegments any leading
    segments that already equal trailing components of the current working
    directory": the longest end of the working directory's components,
    [comps], that the segments start with is removed from the segments. *)
Fixpoint spec_strip (comps segs : list string) : list string :=
  match comps with
  | [] => segs
  | _ :: shorter =>
      if bool_decide (comps `prefix_of` segs) then drop (length comps) segs
      else spec_strip shorter segs
  end.

(** *** Vocabulary for statements about paths *)

Fixpoint slash_free (e : string) : bool :=
  match e with
  | EmptyString => true
  | String c e' => negb (Ascii.eqb c GoFilepath.slash) && slash_free e'
  end.




(** ** The outside world *)

(** The lines the program writes to its log. *)
Inductive LogLine : Type :=
| LogFetching (fetchURL : string)
| LogMakingRequest (url host : string)
| LogTargetFile (targetFile : string)
| LogInvalidJSON
| LogWarning (e : Err)
| LogDryRun
| LogProcessingBatch (n : nat)
| LogAcquiredLock (n : nat)
| LogValidationPassed (hostKey ghUser ghRepo : string)
| LogNoStagedChanges
| LogPushed (n : nat) (branch : string).

(** Every call that leaves the process, with what came back. *)
Inductive Event : Type :=
| EvExec (argv : list string) (ok : bool) (stdout : string)
| EvGetwd (cwd : string)
| EvHTTPGet (url host : string)
| EvMkdirAll (dir : string) (e : error)
| EvWriteFile (path data : string) (e : error)
| EvReadFile (path : string)
| EvLog (line : LogLine).

(** The operating system as the program uses it. [os_exec] runs a command
    and reports whether it exited with status 0 and what it printed;
    [os_getwd] is the empty string when [os.Getwd] fails (the program drops
    that error); [http_new_request] is the error of [http.NewRequest], which
    only inspects the URL; [http_get] is [client.Do] and answers with the
    status code and the outcome of reading the body. *)
Class OS (World : Type) := {
  os_exec : list string -> World -> bool * string * World;
  os_getwd : World -> string;
  os_mkdirall : string -> World -> error * World;
  os_writefile : string -> string -> World -> error * World;
  os_readfile : string -> World -> Err + string;
  http_new_request : string -> error;
  http_get : string -> string -> World -> (Err + nat * (Err + string)) * World;
}.

(** [encoding/json] as the program uses it: decoding into [interface{}],
    [MarshalIndent] with two spaces, decoding into [map[string]interface{}]
    (seen through its lookup) and the type assertion to [string]. *)
Class JSONCodec (J : Type) := {
  json_unmarshal : string -> option J;
  json_marshal_indent : J -> option string;
  json_unmarshal_object : string -> option (string -> option J);
  json_as_string : J -> option string;
}.

Section Program.

Context {Uni : Unicode}.
Context {World : Type} `{!OS World}.
Context {J : Type} `{!JSONCodec J}.

(** The service configuration, [p.config]. *)
Variable config : Config.

Record St := { world : World; trace : list Event }.

(** Computations that act on the world and leave a trace. *)
Definition M (A : Type) : Type := St -> A * St.

Definition ret {A} (a : A) : M A := fun st => (a, st).

Definition bind {A B} (m : M A) (k : A -> M B) : M B :=
  fun st => let '(a, st') := m st in k a st'.

Notation "'let*' x ':=' m 'in' k" := (bind m (fun x => k))
  (at level 10, x pattern, m at level 100, k at level 200, only parsing).

Definition emit (ev : Event) : M unit :=
  fun st => (tt, {| world := world st; trace := trace st ++ [ev] |}).

Definition log (line : LogLine) : M unit := emit (EvLog line).

(** [exec.Command(name, args...)] followed by [Run] or [Output]. *)
Definition run (argv : list string) : M (bool * string) :=
  fun st =>
    let '(ok, out, w) := os_exec argv (world st) in
    (ok, out, {| world := w; trace := trace st ++ [EvExec argv ok out] |}).

Definition getwd : M string :=
  fun st =>
    let cwd := os_getwd (world st) in
    (cwd, {| world := world st; trace := trace st ++ [EvGetwd cwd] |}).

Definition mkdirAll (dir : string) : M error :=
  fun st =>
    let '(e, w) := os_mkdirall dir (world st) in
    (e, {| world := w; trace := trace st ++ [EvMkdirAll dir e] |}).

Definition writeFile (path data : string) : M error :=
  fun st =>
    let '(e, w) := os_writefile path data (world st) in
    (e, {| world := w; trace := trace st ++ [EvWriteFile path data e] |}).

Definition readFile (path : string) : M (Err + string) :=
  fun st =>
    (os_readfile path (world st),
     {| world := world st; trace := trace st ++ [EvReadFile path] |}).

Definition httpGet (url host : string) : M (Err + nat * (Err + string)) :=
  fun st =>
    let '(r, w) := http_get url host (world st) in
    (r, {| world := w; trace := trace st ++ [EvHTTPGet url host] |}).

(** ** The document fetcher *)

Definition buildFetchURL (parsed : ParsedDID) : string :=
  let urlPath :=
    if (0 <? length (PathSegs parsed))%nat
    then Project parsed +:+ "/" +:+ GoStrings.Join (PathSegs parsed) "/"
    else Project parsed in
  ServerURL config +:+ "/" +:+ urlPath +:+ "/did.json".

Definition fetchDIDDocument (url host : string) : M (Err + string) :=
  match http_new_request url with
  | Some err => ret (inl err)
  | None =>
      let* _ := log (LogMakingRequest url host) in
      let* resp := httpGet url host in
      match resp with
      | inl err => ret (inl err)
      | inr (status, body) =>
          if negb (status =? 200)%nat then ret (inl (ErrHTTPStatus status))
          else ret body
      end
  end.

Definition determineTargetFile (parsed : ParsedDID) : M string :=
  let* cwd := getwd in
  ret (targetFileIn cwd parsed).

Definition saveDIDDocument (data targetFile : string) : M error :=
  let dir := GoFilepath.Dir targetFile in
  let* e := mkdirAll dir in
  match e with
  | Some err => ret (Some err)
  | None =>
      let* formattedData :=
        match json_unmarshal data with
        | Some jsonObj =>
            match json_marshal_indent jsonObj with
            | Some formatted => ret formatted
            | None => ret data
            end
        | None =>
            let* _ := log LogInvalidJSON in
            ret data
        end in
      writeFile targetFile formattedData
  end.

Definition validateDIDDocumentID (targetFile : string) (parsed : ParsedDID)
  : M error :=
  let* r := readFile targetFile in
  match r with
  | inl err => ret (Some err)
  | inr data =>
      match json_unmarshal_object data with
      | None => ret (Some ErrDocParse)
      | Some doc =>
          match doc "id" ≫= json_as_string with
          | None => ret (Some ErrNoIDField)
          | Some docID =>
              if String.eqb docID "" then ret (Some ErrNoIDField)
              else if negb (String.eqb docID (expectedID parsed))
                   then ret (Some (ErrIDMismatch docID (expectedID parsed)))
                   else ret None
          end
      end
  end.

(** [processDID]; [submit] is the call of [batchGitOperation], whose
    blocking behaviour is the subject of the coordinator model below. *)
Definition processDID (submit : string -> ParsedDID -> M error)
  (did : string) : M error :=
  match parseDID did with
  | inl err => ret (Some (ErrParse err))
  | inr parsedDID =>
      if negb (HasSuffix (ToLower (Host parsedDID)) ".github.io")
      then ret (Some (ErrHostNotGithubIO (Host parsedDID)))
      else
        let fetchURL := buildFetchURL parsedDID in
        let* _ := log (LogFetching fetchURL) in
        let* r := fetchDIDDocument fetchURL (Host parsedDID) in
        match r with
        | inl err => ret (Some (ErrFetch err))
        | inr didDoc =>
            let* targetFile := determineTargetFile parsedDID in
            let* _ := log (LogTargetFile targetFile) in
            let* e := saveDIDDocument didDoc targetFile in
            match e with
            | Some err => ret (Some (ErrSave err))
            | None =>
                let* e := validateDIDDocumentID targetFile parsedDID in
                let* _ := match e with
                          | Some err => log (LogWarning err)
                          | None => ret tt
                          end in
                if negb (DryRun config) then
                  let* e := submit targetFile parsedDID in
                  match e with
                  | Some err => ret (Some (ErrGitOps err))
                  | None => ret None
                  end
                else
                  let* _ := log LogDryRun in
                  ret None
            end
        end
  end.

(** ** The repository publisher *)

Definition checkGitRemote : M error :=
  let* (ok, _) := run ["git"; "remote"; "get-url"; GitRemote config] in
  if ok then ret None else ret (Some (ErrRemoteNotFound (GitRemote config))).

Definition getRemoteURL : M (Err + string) :=
  let* (ok, output) := run ["git"; "remote"; "get-url"; GitRemote config] in
  if ok then ret (inr (TrimSpace output)) else ret (inl ErrGetRemoteURL).

Definition strip_prefix (pre s : string) : option string :=
  if HasPrefix s pre
  then Some (String.substring (String.length pre)
               (String.length s - String.length pre) s)
  else None.

(** What the two groups of [([^/]+)/([^/]+)(\.git)?$] capture: the text is
    two non-empty slash-free parts around one slash; the second group is
    greedy and takes a [.git] ending with it. *)
Definition owner_and_repo (rest : string) : option (string * string) :=
  match Split rest "/"%char with
  | [user; repo] =>
      if String.eqb user "" || String.eqb repo "" then None
      else Some (user, repo)
  | _ => None
  end.

Definition parseGitHubURL (remoteURL : string) : Err + string * string :=
  match strip_prefix "git@github.com:" remoteURL ≫= owner_and_repo with
  | Some (user, repo) => inr (user, TrimSuffix repo ".git")
  | None =>
      match strip_prefix "https://github.com/" remoteURL ≫= owner_and_repo with
      | Some (user, repo) => inr (user, TrimSuffix repo ".git")
      | None => inl (ErrNotGitHubURL remoteURL)
      end
  end.

Definition checkoutOrCreateBranch (branch : string) : M error :=
  let* (ok, out) := run ["git"; "rev-parse"; "--abbrev-ref"; "HEAD"] in
  if negb ok then ret (Some ErrCurrentBranch)
  else
    let currentBranch := TrimSpace out in
    if String.eqb currentBranch branch then ret None
    else
      let* (ok, _) := run ["git"; "rev-parse"; "--verify"; branch] in
      if negb ok then
        let* (ok, _) := run ["git"; "checkout"; "-b"; branch] in
        if negb ok then ret (Some (ErrCreateBranch branch)) else ret None
      else
        let* (ok, _) := run ["git"; "checkout"; branch] in
        if negb ok then ret (Some (ErrCheckoutBranch branch)) else ret None.

Definition executeBatchedGitCommands (batch : list BatchItem) : M error :=
  let* e := checkoutOrCreateBranch (Branch config) in
  match e with
  | Some err => ret (Some (ErrCheckout (Branch config) err))
  | None =>
      let filesToAdd := map TargetFile batch in
      let* (ok, _) := run ("git" :: "add" :: filesToAdd) in
      if negb ok then ret (Some ErrAddFiles)
      else
        let* (ok, _) := run ["git"; "diff"; "--cached"; "--quiet"] in
        if ok then
          let* _ := log LogNoStagedChanges in
          ret None
        else
          let fileList := map TargetFile batch in
          let commitMsg :=
            CommitMsg config +:+ " (" +:+ pretty (length batch) +:+ " files): "
              +:+ GoStrings.Join fileList ", " in
          let* (ok, _) := run ["git"; "commit"; "-m"; commitMsg] in
          if negb ok then ret (Some ErrCommit)
          else
            let* (ok, _) :=
              run ["git"; "push"; "-u"; GitRemote config; Branch config] in
            if negb ok then ret (Some (ErrPush (Branch config)))
            else ret None
  end.

(** The validation loop of [performBatchedGitOperations]: [seenHosts] is the
    map of hosts already validated in this flush and [validatedItems] the
    items accepted so far. *)
Fixpoint validateItems (batch : list BatchItem) (seenHosts : gmap string bool)
  (validatedItems : list BatchItem) : M (Err + list BatchItem) :=
  match batch with
  | [] => ret (inr validatedItems)
  | item :: rest =>
      let* e := checkGitRemote in
      match e with
      | Some err => ret (inl err)
      | None =>
          let hostKey := HostLower (ItemDID item) in
          if negb (default false (seenHosts !! hostKey)) then
            let* r := getRemoteURL in
            match r with
            | inl err => ret (inl err)
            | inr remoteURL =>
                match parseGitHubURL remoteURL with
                | inl err => ret (inl err)
                | inr (ghUser, ghRepo) =>
                    let expectedUser :=
                      TrimSuffix (HostLower (ItemDID item)) ".github.io" in
                    if negb (EqualFold ghUser expectedUser) then
                      ret (inl (ErrUsernameMismatch expectedUser ghUser))
                    else if negb (EqualFold ghRepo (Project (ItemDID item))) then
                      ret (inl (ErrRepoMismatch (Project (ItemDID item)) ghRepo))
                    else
                      let* _ :=
                        log (LogValidationPassed hostKey ghUser ghRepo) in
                      validateItems rest (<[hostKey := true]> seenHosts)
                        (validatedItems ++ [item])
                end
            end
          else validateItems rest seenHosts (validatedItems ++ [item])
      end
  end.

(** [performBatchedGitOperations]. The mutex [gitMux] is taken for the whole
    call; the accumulation loop is its only caller, so it is never contended
    and has no counterpart here. *)
Definition performBatchedGitOperations (batch : list BatchItem) : M error :=
  if (length batch =? 0)%nat then ret None
  else
    let* _ := log (LogAcquiredLock (length batch)) in
    let* r := validateItems batch ∅ [] in
    match r with
    | inl err => ret (Some err)
    | inr validatedItems =>
        let* e := executeBatchedGitCommands validatedItems in
        match e with
        | Some err => ret (Some err)
        | None =>
            let* _ :=
              log (LogPushed (length validatedItems) (Branch config)) in
            ret None
        end
    end.

(** ** The batch coordinator *)

(** [select { case ch <- err: default: }] on a channel with a one-slot
    buffer: the value is stored when the slot is free and dropped otherwise. *)
Definition trySend (chans : gmap nat error) (ch : nat) (err : error)
  : gmap nat error :=
  match chans !! ch with
  | None => <[ch := err]> chans
  | Some _ => chans
  end.

(** The state of [gitBatchProcessor]: the local [batch], the buffers of the
    response channels it sends on, the time at which the ticker next fires,
    and whether the function has returned. [flushLog] is a history variable:
    every call of [performBatchedGitOperations] with its outcome. *)
Record Loop := {
  batch : list BatchItem;
  chans : gmap nat error;
  flushLog : list (list BatchItem * error);
  tickerDue : nat;
  exited : bool;
}.

(** The closure [processBatch], run at time [now]. *)
Definition processBatch (now : nat) (l : Loop) : M Loop :=
  if (length (batch l) =? 0)%nat then ret l
  else
    let* _ := log (LogProcessingBatch (length (batch l))) in
    let* err := performBatchedGitOperations (batch l) in
    let chans' :=
      fold_left (fun c item => trySend c (ResponseCh item) err)
        (batch l) (chans l) in
    ret {| batch := [];
           chans := chans';
           flushLog := flushLog l ++ [(batch l, err)];
           tickerDue := now + BatchTimeout config;
           exited := exited l |}.

(** What one [select] of the loop can take. *)
Inductive LoopEvent : Type :=
| Received (item : BatchItem)
| ChannelClosed
| Tick.

(** One iteration of the [for] loop of [gitBatchProcessor] at time [now]. *)
Definition loopIter (now : nat) (ev : LoopEvent) (l : Loop) : M Loop :=
  if exited l then ret l
  else
    match ev with
    | ChannelClosed =>
        let* l' := processBatch now l in
        ret {| batch := batch l'; chans := chans l'; flushLog := flushLog l';
               tickerDue := tickerDue l'; exited := true |}
    | Received item =>
        let l1 := {| batch := batch l ++ [item]; chans := chans l;
                     flushLog := flushLog l; tickerDue := tickerDue l;
                     exited := exited l |} in
        if (BatchSize config <=? Z.of_nat (length (batch l1)))%Z
        then processBatch now l1
        else ret l1
    | Tick =>
        processBatch now
          {| batch := batch l; chans := chans l; flushLog := flushLog l;
             tickerDue := tickerDue l + BatchTimeout config;
             exited := exited l |}
    end.

(** The loop along a sequence of timed events. *)
Fixpoint runLoop (evs : list (nat * LoopEvent)) (l : Loop) : M Loop :=
  match evs with
  | [] => ret l
  | (now, ev) :: rest =>
      let* l' := loopIter now ev l in
      runLoop rest l'
  end.

(** A fresh loop started at time [now]: [time.NewTicker(BatchTimeout)].
    [NewTicker] panics when the period is not positive: the goroutine is
    gone before its first [select], and the process with it; the loop is
    then [exited] from the start. *)
Definition newLoop (now : nat) : Loop :=
  {| batch := []; chans := ∅; flushLog := [];
     tickerDue := now + BatchTimeout config;
     exited := (BatchTimeout config =? 0)%nat |}.

(** *** Callers and the admission queue *)

(** Where a caller of [batchGitOperation] stands: in the [select] it entered
    at time [since], in the receive [<-responseCh] after its send was taken,
    or back with a result. *)
Inductive Caller : Type :=
| AtSelect (item : BatchItem) (since : nat)
| AwaitingResponse
| Returned (e : error).

(** [make(chan BatchItem, 100)] in [main]. *)
Definition batchChCap : nat := 100.

(** [time.After(30 * time.Second)]. *)
Definition submitTimeout : nat := 30.

Record Sys := {
  now : nat;
  batchCh : list BatchItem;
  callers : gmap nat Caller;
  loop : Loop;
  outside : St;
}.

Definition setCaller (ch : nat) (c : Caller) (s : Sys) : Sys :=
  {| now := now s; batchCh := batchCh s;
     callers := <[ch := c]> (callers s); loop := loop s;
     outside := outside s |}.

Definition withLoop (s : Sys) (batchCh' : list BatchItem) (r : Loop * St)
  : Sys :=
  {| now := now s; batchCh := batchCh'; callers := callers s;
     loop := r.1; outside := r.2 |}.

(** The moves of the system. [batchCh] is never closed by the program, so
    the loop's receive only ever delivers an item. *)
Inductive Action : Type :=
| Submit (ch : nat) (targetFile : string) (parsedDID : ParsedDID)
| SendTaken (ch : nat)
| TimeoutTaken (ch : nat)
| ResponseTaken (ch : nat)
| LoopReceives
| LoopTicks
| Elapse.

(** One move; [None] when the move is not enabled. [batchCh] is never
    closed, so within the service the loop is only ever [exited] by the
    panic of [newLoop], which ends the process: no move is enabled then. *)
Definition step (a : Action) (s : Sys) : option Sys :=
  if exited (loop s) then None else
  match a with
  | Submit ch targetFile parsedDID =>
      match callers s !! ch with
      | Some _ => None
      | None =>
          let batchItem := {| TargetFile := targetFile; ItemDID := parsedDID;
                              ResponseCh := ch |} in
          Some (setCaller ch (AtSelect batchItem (now s)) s)
      end
  | SendTaken ch =>
      match callers s !! ch with
      | Some (AtSelect batchItem _) =>
          if (length (batchCh s) <? batchChCap)%nat then
            Some (setCaller ch AwaitingResponse
                    {| now := now s; batchCh := batchCh s ++ [batchItem];
                       callers := callers s; loop := loop s;
                       outside := outside s |})
          else None
      | _ => None
      end
  | TimeoutTaken ch =>
      match callers s !! ch with
      | Some (AtSelect _ since) =>
          if (since + submitTimeout <=? now s)%nat
          then Some (setCaller ch (Returned (Some ErrTimeout)) s)
          else None
      | _ => None
      end
  | ResponseTaken ch =>
      match callers s !! ch, chans (loop s) !! ch with
      | Some AwaitingResponse, Some err =>
          Some (setCaller ch (Returned err)
                  {| now := now s; batchCh := batchCh s; callers := callers s;
                     loop := {| batch := batch (loop s);
                                chans := delete ch (chans (loop s));
                                flushLog := flushLog (loop s);
                                tickerDue := tickerDue (loop s);
                                exited := exited (loop s) |};
                     outside := outside s |})
      | _, _ => None
      end
  | LoopReceives =>
      match batchCh s with
      | item :: rest =>
          Some (withLoop s rest
                  (loopIter (now s) (Received item) (loop s) (outside s)))
      | [] => None
      end
  | LoopTicks =>
      if (tickerDue (loop s) <=? now s)%nat then
        Some (withLoop s (batchCh s)
                (loopIter (now s) Tick (loop s) (outside s)))
      else None
  | Elapse =>
      Some {| now := S (now s); batchCh := batchCh s; callers := callers s;
              loop := loop s; outside := outside s |}
  end.

Fixpoint steps (acts : list Action) (s : Sys) : option Sys :=
  match acts with
  | [] => Some s
  | a :: rest =>
      match step a s with
      | Some s' => steps rest s'
      | None => None
      end
  end.

(** The service once [main] has started the loop, at time 0. *)
Definition initial (w : World) : Sys :=
  {| now := 0; batchCh := []; callers := ∅; loop := newLoop 0;
     outside := {| world := w; trace := [] |} |}.

End Program.

Arguments St World : clear implicits.
Arguments M World A : clear implicits.
Arguments Sys World : clear implicits.

(** ** Vocabulary for statements about a flush *)

(** The two comparisons of the validation loop for one item against the
    owner and repository of the remote. *)
Definition item_matches `{!Unicode} (ghUser ghRepo : string) (item : BatchItem)
  : bool :=
  EqualFold ghUser (TrimSuffix (HostLower (ItemDID item)) ".github.io")
  && EqualFold ghRepo (Project (ItemDID item)).

(** The error the loop returns for an item that fails a comparison. *)
Definition mismatch_error `{!Unicode} (ghUser ghRepo : string)
  (item : BatchItem) : Err :=
  let expectedUser := TrimSuffix (HostLower (ItemDID item)) ".github.io" in
  if negb (EqualFold ghUser expectedUser)
  then ErrUsernameMismatch expectedUser ghUser
  else ErrRepoMismatch (Project (ItemDID item)) ghRepo.

Definition ownership_mismatch (e : Err) : bool :=
  match e with
  | ErrUsernameMismatch _ _ | ErrRepoMismatch _ _ => true
  | _ => false
  end.

(** The first item the loop compares and finds wrong, given the hosts
    already validated: items of a validated host are passed over. *)
Fixpoint first_mismatch `{!Unicode} (ghUser ghRepo : string)
  (batch : list BatchItem) (seenHosts : gmap string bool)
  : option BatchItem :=
  match batch with
  | [] => None
  | item :: rest =>
      let hostKey := HostLower (ItemDID item) in
      if default false (seenHosts !! hostKey)
      then first_mismatch ghUser ghRepo rest seenHosts
      else if item_matches ghUser ghRepo item
           then first_mismatch ghUser ghRepo rest (<[hostKey := true]> seenHosts)
           else Some item
  end.

(** The events a validation loop may leave: look-ups of the remote URL and
    log lines. *)
Definition remote_lookup_or_log (remote : string) (ev : Event) : bool :=
  match ev with
  | EvExec argv _ _ =>
      bool_decide (argv = ["git"; "remote"; "get-url"; remote])
  | EvLog _ => true
  | _ => false
  end.

(** A [git] command with the given subcommand. *)
Definition is_git (sub : string) (ev : Event) : bool :=
  match ev with
  | EvExec (prog :: cmd :: _) _ _ => String.eqb prog "git" && String.eqb cmd sub
  | _ => false
  end.

(** The staged-changes probe, [git diff --cached --quiet], exited with 0. *)
Definition nothing_staged (ev : Event) : bool :=
  match ev with
  | EvExec argv ok _ =>
      bool_decide (argv = ["git"; "diff"; "--cached"; "--quiet"]) && ok
  | _ => false
  end.

(** Neither a successful staged-changes probe nor a commit. *)
Definition neutral (ev : Event) : bool :=
  negb (nothing_staged ev) && negb (is_git "commit" ev).

(** What a run of the publisher has to satisfy: if the staged-changes probe
    came back with status 0 during it, it ends without an error and without
    a commit. *)
Definition quiet_when_unstaged (evs : list Event) (e : error) : Prop :=
  existsb nothing_staged evs = true ->
  e = None /\ existsb (is_git "commit") evs = false.

(** What a flush at time [now] with outcome [err] leaves of the loop
    state. *)
Definition flushed (config : Config) (now : nat) (l : Loop) (err : error)
  : Loop :=
  {| batch := [];
     chans := fold_left (fun c item => trySend c (ResponseCh item) err)
                (batch l) (chans l);
     flushLog := (flushLog l ++ [(batch l, err)])%list;
     tickerDue := now + BatchTimeout config;
     exited := exited l |}.

(** The loop state once a received item has been appended to the batch. *)
Definition holding (item : BatchItem) (l : Loop) : Loop :=
  {| batch := (batch l ++ [item])%list; chans := chans l;
     flushLog := flushLog l; tickerDue := tickerDue l; exited := exited l |}.

(** The number of batches of at most [b] items that [n] items fill. *)
Definition ceil_div (n b : nat) : nat := (n + b - 1) / b.

(** An outcome a caller can only get from its own timer. *)
Definition is_timeout (e : error) : bool :=
  match e with
  | Some ErrTimeout => true
  | _ => false
  end.

Section Vocabulary.

Context {World : Type} `{!OS World} {J : Type} `{!JSONCodec J}.

(** The remote is configured and fixed for the duration of a flush: in
    every world of [stable], [git remote get-url] succeeds, prints [out] and
    leads to a world of [stable]. *)
Definition remote_answers (config : Config) (stable : World -> Prop)
  (out : string) : Prop :=
  forall w, stable w ->
    exists w', os_exec ["git"; "remote"; "get-url"; GitRemote config] w
               = (true, out, w') /\ stable w'.

(** [st'] continues [st] with events that all satisfy [p]. *)
Definition continues (p : Event -> bool) (st st' : St World) : Prop :=
  exists evs, trace st' = (trace st ++ evs)%list /\ forallb p evs = true.

(** Two facts about [encoding/json]: a value decoded into [interface{}] can
    always be encoded again, and decoding what [MarshalIndent] printed gives
    the value back. *)
Definition codec_total : Prop :=
  forall data v, json_unmarshal data = Some v ->
                 is_Some (json_marshal_indent v).

Definition codec_roundtrip : Prop :=
  forall v text, json_marshal_indent v = Some text ->
                 json_unmarshal text = Some v.

(** The items that have entered the admission queue and not left the
    system's records: those queued, those in the batch and those flushed. *)
Definition items_taken (s : Sys World) : list BatchItem :=
  (batchCh s ++ batch (loop s) ++ concat (map fst (flushLog (loop s))))%list.

(** What holds of every state of a run: a caller in its [select] holds an
    item made with its own channel; an item is only ever taken for a
    caller that then waits for the response or has been given one, never a
    timeout; and no channel carries a timeout. *)
Definition consistent (s : Sys World) : Prop :=
  (forall ch item since,
     callers s !! ch = Some (AtSelect item since) -> ResponseCh item = ch) /\
  (forall item, In item (items_taken s) ->
     callers s !! ResponseCh item = Some AwaitingResponse \/
     exists e, callers s !! ResponseCh item = Some (Returned e) /\
               is_timeout e = false) /\
  (forall ch e, chans (loop s) !! ch = Some e -> is_timeout e = false).

End Vocabulary.

(** ** A small executable world

    An in-memory working copy with one line of history, enough of [git] for
    the commands the program issues, a table of upstream documents and a
    codec for the two JSON literals [true] and [false]. It runs the program
    on concrete requests. *)

Module Sim.

(** The byte-wise functions for the Unicode-aware ones: the requests, the
    remote URL and the branch names of this world are ASCII. *)
#[export] Instance sim_unicode : Unicode := {|
  ToLower := ascii_lower;
  EqualFold := ascii_fold_eq;
  TrimSpace := ascii_trim;
  ToLower_ascii := fun _ _ => eq_refl;
  EqualFold_ascii := fun _ _ _ _ => eq_refl;
  TrimSpace_ascii := fun _ _ => eq_refl;
|}.

Record SimWorld := {
  sim_cwd : string;
  sim_files : gmap string string;
  sim_upstream : gmap string (nat * string);
  sim_remotes : gmap string string;
  sim_branch : string;
  sim_branches : list string;
  sim_index : gmap string string;
  sim_head : gmap string string;
  sim_commits : list string;
  sim_pushes : list (string * string);
}.

Definition set_git (w : SimWorld) (branch : string) (branches : list string)
  (index head : gmap string string) (commits : list string)
  (pushes : list (string * string)) : SimWorld :=
  {| sim_cwd := sim_cwd w; sim_files := sim_files w;
     sim_upstream := sim_upstream w; sim_remotes := sim_remotes w;
     sim_branch := branch; sim_branches := branches;
     sim_index := index; sim_head := head;
     sim_commits := commits; sim_pushes := pushes |}.

Definition known_branch (w : SimWorld) (b : string) : bool :=
  existsb (String.eqb b) (sim_branches w).

(** [git add files...]: every path must exist in the working tree; the index
    then holds their content. *)
Fixpoint stage (files : list string) (tree index : gmap string string)
  : option (gmap string string) :=
  match files with
  | [] => Some index
  | f :: rest =>
      match tree !! f with
      | Some data => stage rest tree (<[f := data]> index)
      | None => None
      end
  end.

Definition failed (w : SimWorld) : bool * string * SimWorld := (false, "", w).

(** The subcommands the program uses. As with [git], the query for the
    current branch fails in a repository that has no commit yet. *)
Definition git (args : list string) (w : SimWorld)
  : bool * string * SimWorld :=
  match args with
  | cmd :: rest =>
      if String.eqb cmd "remote" then
        match rest with
        | [sub; name] =>
            if String.eqb sub "get-url" then
              match sim_remotes w !! name with
              | Some url => (true, url +:+ String "010"%char "", w)
              | None => failed w
              end
            else failed w
        | _ => failed w
        end
      else if String.eqb cmd "rev-parse" then
        match rest with
        | [opt; what] =>
            if String.eqb opt "--abbrev-ref" && String.eqb what "HEAD"
            then match sim_commits w with
                 | [] => failed w
                 | _ :: _ => (true, sim_branch w +:+ String "010"%char "", w)
                 end
            else if String.eqb opt "--verify"
            then (known_branch w what, "", w)
            else failed w
        | _ => failed w
        end
      else if String.eqb cmd "checkout" then
        match rest with
        | [b] =>
            if known_branch w b
            then (true, "",
                  set_git w b (sim_branches w) (sim_index w) (sim_head w)
                    (sim_commits w) (sim_pushes w))
            else failed w
        | [opt; b] =>
            if String.eqb opt "-b" && negb (known_branch w b)
            then (true, "",
                  set_git w b (b :: sim_branches w) (sim_index w) (sim_head w)
                    (sim_commits w) (sim_pushes w))
            else failed w
        | _ => failed w
        end
      else if String.eqb cmd "add" then
        match stage rest (sim_files w) (sim_index w) with
        | Some index =>
            (true, "",
             set_git w (sim_branch w) (sim_branches w) index (sim_head w)
               (sim_commits w) (sim_pushes w))
        | None => failed w
        end
      else if String.eqb cmd "diff" then
        match rest with
        | [o1; o2] =>
            if String.eqb o1 "--cached" && String.eqb o2 "--quiet"
            then (bool_decide (sim_index w = sim_head w), "", w)
            else failed w
        | _ => failed w
        end
      else if String.eqb cmd "commit" then
        match rest with
        | [opt; msg] =>
            if String.eqb opt "-m" && negb (bool_decide (sim_index w = sim_head w))
            then (true, "",
                  set_git w (sim_branch w) (sim_branches w) (sim_index w)
                    (sim_index w) (sim_commits w ++ [msg]) (sim_pushes w))
            else failed w
        | _ => failed w
        end
      else if String.eqb cmd "push" then
        match rest with
        | [opt; remote; b] =>
            if String.eqb opt "-u" && bool_decide (is_Some (sim_remotes w !! remote))
               && known_branch w b
            then (true, "",
                  set_git w (sim_branch w) (sim_branches w) (sim_index w)
                    (sim_head w) (sim_commits w) (sim_pushes w ++ [(remote, b)]))
            else failed w
        | _ => failed w
        end
      else failed w
  | [] => failed w
  end.

Definition sim_exec (argv : list string) (w : SimWorld)
  : bool * string * SimWorld :=
  match argv with
  | prog :: args => if String.eqb prog "git" then git args w else failed w
  | [] => failed w
  end.

Definition sim_write (path data : string) (w : SimWorld) : error * SimWorld :=
  (None,
   {| sim_cwd := sim_cwd w; sim_files := <[path := data]> (sim_files w);
      sim_upstream := sim_upstream w; sim_remotes := sim_remotes w;
      sim_branch := sim_branch w; sim_branches := sim_branches w;
      sim_index := sim_index w; sim_head := sim_head w;
      sim_commits := sim_commits w; sim_pushes := sim_pushes w |}).

#[export] Instance sim_os : OS SimWorld := {|
  os_exec := sim_exec;
  os_getwd := sim_cwd;
  os_mkdirall dir w :=
    (match sim_files w !! dir with
     | Some _ => Some (ErrOS "not a directory")
     | None => None
     end, w);
  os_writefile := sim_write;
  os_readfile path w :=
    match sim_files w !! path with
    | Some data => inr data
    | None => inl (ErrOS "no such file")
    end;
  http_new_request _ := None;
  http_get url host w :=
    (match sim_upstream w !! url with
     | Some (status, body) => inr (status, inr body)
     | None => inl (ErrOS "unreachable")
     end, w);
|}.

(** The codec of the two literals. *)
#[export] Instance sim_json : JSONCodec bool := {|
  json_unmarshal data :=
    let text := ascii_trim data in
    if String.eqb text "true" then Some true
    else if String.eqb text "false" then Some false
    else None;
  json_marshal_indent v := Some (if v then "true" else "false");
  json_unmarshal_object _ := None;
  json_as_string _ := None;
|}.

(** A checkout of [git@github.com:alice/repo.git] on branch [gh-pages]
    whose history is one empty commit. *)
Definition world0 : SimWorld :=
  {| sim_cwd := "/srv/work";
     sim_files := ∅;
     sim_upstream := ∅;
     sim_remotes := {[ "origin" := "git@github.com:alice/repo.git" ]};
     sim_branch := "gh-pages";
     sim_branches := ["gh-pages"];
     sim_index := ∅;
     sim_head := ∅;
     sim_commits := ["initial commit"];
     sim_pushes := [] |}.

(** The defaults of [loadConfig] with the given batch ceilings. *)
Definition config_with (timeout : nat) (size : Z) : Config :=
  {| ServerURL := "http://localhost:3332";
     Branch := "gh-pages";
     GitRemote := "origin";
     CommitMsg := "chore (did): update did:web documents";
     DryRun := false;
     Port := "8080";
     BatchTimeout := timeout;
     BatchSize := size |}.

Definition did_of (host project : string) (segs : list string) : ParsedDID :=
  {| Original := "did:web:" +:+ GoStrings.Join (host :: project :: segs) ":";
     Host := host; Project := project; PathSegs := segs;
     HostLower := ToLower host |}.

Definition item_of (ch : nat) (project : string) (segs : list string)
  : BatchItem :=
  let parsed := did_of "alice.github.io" project segs in
  {| TargetFile := targetFileIn "/srv/work" parsed; ItemDID := parsed;
     ResponseCh := ch |}.

(** A working tree in which the listed items' files hold [data]. *)
Definition with_files (items : list BatchItem) (data : string)
  (w : SimWorld) : SimWorld :=
  fold_left (fun w item => (sim_write (TargetFile item) data w).2) items w.

Definition start (w : SimWorld) : St SimWorld := {| world := w; trace := [] |}.

(** Four requests: three for the repository of the remote and one that
    names another project under the same host. *)
Definition item_a : BatchItem := item_of 0 "repo" ["a"].
Definition item_b : BatchItem := item_of 1 "repo" ["b"].
Definition item_c : BatchItem := item_of 2 "repo" ["c"].
Definition item_other : BatchItem := item_of 3 "other" ["x"].

(** The working copy once the four documents have been saved. *)
Definition world1 : SimWorld :=
  with_files [item_a; item_b; item_c; item_other] "true" world0.

(** The working copy after a first flush has committed and pushed the
    documents of [item_a] and [item_b]. *)
Definition world2 : SimWorld :=
  world (performBatchedGitOperations (config_with 5 10) [item_a; item_b]
           (start world1)).2.

(** A running loop that holds the given batch and no signalled channel. *)
Definition loop_holding (items : list BatchItem) : Loop :=
  {| batch := items; chans := ∅; flushLog := []; tickerDue := 5;
     exited := false |}.

(** A request whose caller will give up, and the working copy once its
    document and that of [item_a] have been saved. *)
Definition item_late : BatchItem := item_of 100 "repo" ["late"].

Definition world3 : SimWorld := with_files [item_a; item_late] "true" world0.

(** [n] callers, on channels [0] to [n - 1], enter [batchGitOperation] for
    the document of [item_a] and have their sends taken at once. *)
Definition fill (n : nat) : list Action :=
  flat_map (fun ch => [Submit ch (TargetFile item_a) (ItemDID item_a);
                       SendTaken ch]) (seq 0 n).

(** No item of the flush came through channel [ch], and the flush
    succeeded. *)
Definition flush_without (ch : nat) (f : list BatchItem * error) : bool :=
  forallb (fun item => negb (ResponseCh item =? ch)%nat) f.1
  && match f.2 with None => true | Some _ => false end.

(** The state a run reaches, or the starting state when a move of the run
    is not enabled. *)
Definition after (config : Config) (acts : list Action) (s : Sys SimWorld)
  : Sys SimWorld :=
  from_option id s (steps config acts s).

Definition origin_url : string := "git@github.com:alice/repo.git".

(** What [git remote get-url origin] prints. *)
Definition origin_out : string := origin_url +:+ String "010"%char "".

Definition origin_is_set (w : SimWorld) : Prop :=
  sim_remotes w !! "origin" = Some origin_url.

End Sim.

(** ** Further vocabulary *)

(** The text does not contain the byte [c]. *)
Fixpoint char_free (c : ascii) (e : string) : bool :=
  match e with
  | EmptyString => true
  | String a e' => negb (Ascii.eqb a c) && char_free c e'
  end.

(** The two forms of remote URL that [parseGitHubURL] knows. *)
Definition ssh_prefix : string := "git@github.com:".
Definition https_prefix : string := "https://github.com/".

(** The message of the one commit of a flush, as
    [executeBatchedGitCommands] builds it. *)
Definition commit_message (config : Config) (batch : list BatchItem) : string :=
  CommitMsg config +:+ " (" +:+ pretty (length batch) +:+ " files): "
    +:+ GoStrings.Join (map TargetFile batch) ", ".

(** Events that change neither the index nor the history: log lines and the
    [git] subcommands [remote], [rev-parse] and [checkout]. *)
Definition setup_event (ev : Event) : bool :=
  match ev with
  | EvLog _ => true
  | EvExec (prog :: cmd :: _) _ _ =>
      String.eqb prog "git"
      && (String.eqb cmd "remote" || String.eqb cmd "rev-parse"
          || String.eqb cmd "checkout")
  | _ => false
  end.

(** The errors with which the validation loop can stop. *)
Definition validation_error (e : Err) : bool :=
  match e with
  | ErrRemoteNotFound _ | ErrGetRemoteURL | ErrNotGitHubURL _
  | ErrUsernameMismatch _ _ | ErrRepoMismatch _ _ => true
  | _ => false
  end.

(** The commands a flush of [batch] can run once the validation has
    passed and the branch has been dealt with, each with the outcome of the
    flush: the only sequences in which [executeBatchedGitCommands] and the
    end of [performBatchedGitOperations] issue [add], [diff], [commit] and
    [push]. *)
Inductive flush_commands (config : Config) (batch : list BatchItem)
  : list Event -> error -> Prop :=
| flush_checkout_failed err :
    flush_commands config batch []
      (Some (ErrCheckout (Branch config) err))
| flush_add_failed o1 :
    flush_commands config batch
      [EvExec ("git" :: "add" :: map TargetFile batch) false o1]
      (Some ErrAddFiles)
| flush_nothing_staged o1 o2 :
    flush_commands config batch
      [EvExec ("git" :: "add" :: map TargetFile batch) true o1;
       EvExec ["git"; "diff"; "--cached"; "--quiet"] true o2;
       EvLog LogNoStagedChanges;
       EvLog (LogPushed (length batch) (Branch config))]
      None
| flush_commit_failed o1 o2 o3 :
    flush_commands config batch
      [EvExec ("git" :: "add" :: map TargetFile batch) true o1;
       EvExec ["git"; "diff"; "--cached"; "--quiet"] false o2;
       EvExec ["git"; "commit"; "-m"; commit_message config batch] false o3]
      (Some ErrCommit)
| flush_push_failed o1 o2 o3 o4 :
    flush_commands config batch
      [EvExec ("git" :: "add" :: map TargetFile batch) true o1;
       EvExec ["git"; "diff"; "--cached"; "--quiet"] false o2;
       EvExec ["git"; "commit"; "-m"; commit_message config batch] true o3;
       EvExec ["git"; "push"; "-u"; GitRemote config; Branch config] false o4]
      (Some (ErrPush (Branch config)))
| flush_pushed o1 o2 o3 o4 :
    flush_commands config batch
      [EvExec ("git" :: "add" :: map TargetFile batch) true o1;
       EvExec ["git"; "diff"; "--cached"; "--quiet"] false o2;
       EvExec ["git"; "commit"; "-m"; commit_message config batch] true o3;
       EvExec ["git"; "push"; "-u"; GitRemote config; Branch config] true o4;
       EvLog (LogPushed (length batch) (Branch config))]
      None.

(** The files a successful [git add] has staged, and the files staged by
    the commands of a trace, in order. *)
Definition staged_files (ev : Event) : list string :=
  match ev with
  | EvExec (prog :: cmd :: files) true _ =>
      if String.eqb prog "git" && String.eqb cmd "add" then files else []
  | _ => []
  end.

Definition staged (evs : list Event) : list string :=
  flat_map staged_files evs.

(** The outcomes of a flush that got as far as a successful [git add]:
    [nil], a failed commit and a failed push. *)
Definition reaches_index (e : error) : bool :=
  match e with
  | None | Some ErrCommit | Some (ErrPush _) => true
  | Some _ => false
  end.

(** A successful run of the given [git] subcommand. *)
Definition git_succeeded (sub : string) (ev : Event) : bool :=
  match ev with
  | EvExec (prog :: cmd :: _) ok _ =>
      String.eqb prog "git" && String.eqb cmd sub && ok
  | _ => false
  end.

(** The item an event of the loop brings, and the items a sequence of
    events brings, in order. *)
Definition receipt (ev : LoopEvent) : list BatchItem :=
  match ev with
  | Received item => [item]
  | _ => []
  end.

Definition receipts (tevs : list (nat * LoopEvent)) : list BatchItem :=
  flat_map (fun te => receipt te.2) tevs.

Definition is_closed (ev : LoopEvent) : bool :=
  match ev with
  | ChannelClosed => true
  | _ => false
  end.

(** A caller that has not entered [batchGitOperation], or whose send has
    not been taken. *)
Definition not_sent (c : option Caller) : bool :=
  match c with
  | None | Some (AtSelect _ _) => true
  | Some _ => false
  end.

(** Sending [err] on the response channel of every item, as [processBatch]
    does. *)
Definition signal (err : error) (items : list BatchItem)
  (chans : gmap nat error) : gmap nat error :=
  fold_left (fun c item => trySend c (ResponseCh item) err) items chans.

Section SystemVocabulary.

Context {World : Type} `{!OS World}.

(** The flushes of a run made one after the other, each as [processBatch]
    makes it: the log line and the call of the publisher. The outcomes are
    returned in order. *)
Fixpoint publish `{!Unicode} (config : Config)
  (batches : list (list BatchItem)) : M World (list error) :=
  match batches with
  | [] => ret []
  | b :: rest =>
      bind (log (LogProcessingBatch (length b))) (fun _ =>
      bind (performBatchedGitOperations config b) (fun e =>
      bind (publish config rest) (fun es => ret (e :: es))))
  end.

(** The bookkeeping that every run of the service keeps: response channels
    are not shared between items; a caller that has not entered, or is in
    its [select], has no item in the system and an empty channel; an item
    in the queue or in the batch belongs to a waiting caller whose channel
    is empty; every item of a flush belongs to a caller that either still
    waits, with the outcome of that flush in its channel, or has returned
    that outcome; a channel only ever carries the outcome of a flush that
    holds an item of that channel; and a caller only ever returns the
    timeout or the outcome of such a flush. *)
Definition orderly (s : Sys World) : Prop :=
  NoDup (map ResponseCh (items_taken s)) /\
  (forall ch, not_sent (callers s !! ch) = true ->
     ~ In ch (map ResponseCh (items_taken s)) /\
     chans (loop s) !! ch = None) /\
  (forall item, In item (batchCh s ++ batch (loop s))%list ->
     callers s !! ResponseCh item = Some AwaitingResponse /\
     chans (loop s) !! ResponseCh item = None) /\
  (forall f e item, In (f, e) (flushLog (loop s)) -> In item f ->
     (callers s !! ResponseCh item = Some AwaitingResponse /\
      chans (loop s) !! ResponseCh item = Some e) \/
     callers s !! ResponseCh item = Some (Returned e)) /\
  (forall ch e, chans (loop s) !! ch = Some e ->
     exists f item, In (f, e) (flushLog (loop s)) /\ In item f /\
                    ResponseCh item = ch) /\
  (forall ch e, callers s !! ch = Some (Returned e) ->
     e = Some ErrTimeout \/
     exists f item, In (f, e) (flushLog (loop s)) /\ In item f /\
                    ResponseCh item = ch) /\
  (forall ch item since,
     callers s !! ch = Some (AtSelect item since) -> ResponseCh item = ch).

End SystemVocabulary.

(** ** Vocabulary for statements about a request *)

(** A command was run. *)
Definition is_exec (ev : Event) : bool :=
  match ev with
  | EvExec _ _ _ => true
  | _ => false
  end.

(** A file was written and the write reported no error. *)
Definition is_write_ok (ev : Event) : bool :=
  match ev with
  | EvWriteFile _ _ None => true
  | _ => false
  end.

(** Neither a command nor a successful write. *)
Definition passive (ev : Event) : bool :=
  negb (is_exec ev) && negb (is_write_ok ev).

(** The errors with which [processDID] stops before the git stage. *)
Definition early_failure (e : Err) : bool :=
  match e with
  | ErrParse _ | ErrHostNotGithubIO _ | ErrFetch _ | ErrSave _ => true
  | _ => false
  end.

(** A resolver that serves one document, for [did:web:alice.github.io:repo:a],
    in front of the checkout of [Sim.world0]. *)
Definition served_world : Sim.SimWorld :=
  {| Sim.sim_cwd := Sim.sim_cwd Sim.world0;
     Sim.sim_files := Sim.sim_files Sim.world0;
     Sim.sim_upstream := {[ "http://localhost:3332/repo/a/did.json" := (200, "true") ]};
     Sim.sim_remotes := Sim.sim_remotes Sim.world0;
     Sim.sim_branch := Sim.sim_branch Sim.world0;
     Sim.sim_branches := Sim.sim_branches Sim.world0;
     Sim.sim_index := Sim.sim_index Sim.world0;
     Sim.sim_head := Sim.sim_head Sim.world0;
     Sim.sim_commits := Sim.sim_commits Sim.world0;
     Sim.sim_pushes := Sim.sim_pushes Sim.world0 |}.

(** The defaults of [loadConfig] with [DRY_RUN=true]. *)
Definition dry_run_config : Config :=
  {| ServerURL := "http://localhost:3332";
     Branch := "gh-pages";
     GitRemote := "origin";
     CommitMsg := "chore (did): update did:web documents";
     DryRun := true;
     Port := "8080";
     BatchTimeout := 5;
     BatchSize := 10 |}.

(** A codec for documents of a single member, written [id=...]: enough to
    run [validateDIDDocumentID] on a document that carries an id. *)
Definition id_codec : JSONCodec string :=
  {| json_unmarshal := Some;
     json_marshal_indent := Some;
     json_unmarshal_object data :=
       match strip_prefix "id=" data with
       | Some id => Some (fun key => if String.eqb key "id" then Some id else None)
       | None => None
       end;
     json_as_string := Some |}.

(** A working copy in which [a/did.json] holds a document with the id of
    [did:web:alice.github.io:repo:a]. *)
Definition world_with_id : Sim.SimWorld :=
  (Sim.sim_write "a/did.json" "id=did:web:alice.github.io:repo:a" Sim.world0).2.

(** The branch name the working copy of the small world reports, as the
    program reads it: the output of [git rev-parse --abbrev-ref HEAD] with
    the surrounding white space removed. *)
Definition reported_branch (w : Sim.SimWorld) : string :=
  ascii_trim (Sim.sim_branch w +:+ String "010"%char "").

(** Two outcomes of the validation loop that the publisher cannot tell
    apart: the same state, and the same error or accepted items with the
    same target files. *)
Definition same_files {World : Type}
  (r1 r2 : (Err + list BatchItem) * St World) : Prop :=
  r1.2 = r2.2 /\
  match r1.1, r2.1 with
  | inl e1, inl e2 => e1 = e2
  | inr v1, inr v2 => map TargetFile v1 = map TargetFile v2
  | _, _ => False
  end.
(** * Properties *)

Import Sim.

Local Close Scope string_scope.

#[local] Arguments String.append !_ _ / : simpl nomatch.

(** Closes a conjunction of closed facts by evaluating each of them. *)
Ltac by_running :=
  repeat match goal with |- _ /\ _ => split end;
  vm_compute; first [reflexivity | discriminate | tauto].

(** ** Split and Join *)

Section SplitJoin.

Context {Uni : Unicode}.

Lemma Split_nonempty s sep : Split s sep <> [].
Proof.
  destruct s as [|c s]; simpl; [discriminate|].
  destruct (Ascii.eqb c sep); [discriminate|].
  destruct (Split s sep); discriminate.
Qed.

Lemma concat_cons_cons sep x y l :
  String.concat sep (x :: y :: l) = x +:+ sep +:+ String.concat sep (y :: l).
Proof. reflexivity. Qed.

Lemma concat_String_head sep c w ws :
  String.concat sep (String c w :: ws) = String c (String.concat sep (w :: ws)).
Proof. destruct ws; reflexivity. Qed.

(** Joining the pieces with the separator gives the text back. *)
Lemma Join_Split s c : Join (Split s c) (String c EmptyString) = s.
Proof.
  unfold Join. induction s as [|a s IH]; simpl; [reflexivity|].
  destruct (Ascii.eqb_spec a c) as [->|Hne].
  - pose proof (Split_nonempty s c) as Hn.
    destruct (Split s c) as [|w ws]; [congruence|].
    rewrite concat_cons_cons, IH. reflexivity.
  - pose proof (Split_nonempty s c) as Hn.
    destruct (Split s c) as [|w ws]; [congruence|].
    rewrite concat_String_head. now rewrite IH.
Qed.

Lemma Split_String_sep s c : Split (String c s) c = EmptyString :: Split s c.
Proof. simpl. now rewrite Ascii.eqb_refl. Qed.

Lemma Split_String_other s a c :
  a <> c ->
  Split (String a s) c =
    String a (hd EmptyString (Split s c)) :: tl (Split s c).
Proof.
  intros Hne. simpl. destruct (Ascii.eqb_spec a c); [congruence|].
  pose proof (Split_nonempty s c). destruct (Split s c); [congruence|reflexivity].
Qed.

End SplitJoin.

(** ** Strings *)

Section StringFacts.

Context {Uni : Unicode}.

Lemma str_app_assoc (a b c : string) : (a +:+ b) +:+ c = a +:+ (b +:+ c).
Proof. induction a as [|x a IH]; simpl; [reflexivity|now rewrite IH]. Qed.


Lemma str_length_app (a b : string) :
  String.length (a +:+ b) = String.length a + String.length b.
Proof. induction a as [|x a IH]; simpl; [reflexivity|now rewrite IH]. Qed.

Lemma prefix_inv (p s : string) :
  String.prefix p s = true -> exists r, s = p +:+ r.
Proof.
  revert s. induction p as [|c p IH]; intros s H.
  - exists s. reflexivity.
  - destruct s as [|d s]; simpl in H; [discriminate|].
    destruct (ascii_dec c d) as [->|]; [|discriminate].
    destruct (IH _ H) as [r ->]. now exists r.
Qed.

Lemma prefix_app (p r : string) : String.prefix p (p +:+ r) = true.
Proof.
  induction p as [|c p IH]; simpl; [now destruct r|].
  destruct (ascii_dec c c); [exact IH|congruence].
Qed.

Lemma HasSuffix_inv (s suf : string) :
  HasSuffix s suf = true -> exists p, s = p +:+ suf.
Proof.
  induction s as [|c s IH]; intros H; cbn [HasSuffix] in H.
  - apply orb_true_iff in H as [H|H]; [|discriminate].
    apply String.eqb_eq in H as <-. now exists "".
  - apply orb_true_iff in H as [H|H].
    + apply String.eqb_eq in H as <-. now exists "".
    + destruct (IH H) as [p ->]. now exists (String c p).
Qed.

Lemma HasSuffix_app (p suf : string) : HasSuffix (p +:+ suf) suf = true.
Proof.
  induction p as [|c p IH]; simpl.
  - destruct suf; simpl; rewrite ?String.eqb_refl, ?Ascii.eqb_refl; reflexivity.
  - rewrite IH. apply orb_true_r.
Qed.

End StringFacts.

(** ** The identifier resolver *)

Section Resolver.

Context {Uni : Unicode}.

Lemma Split_did_web (r : string) :
  Split ("did:web:" +:+ r) ":" = "did" :: "web" :: Split r ":".
Proof. reflexivity. Qed.

Lemma parseDID_inv (did : string) (parsed : ParsedDID) :
  parseDID did = inr parsed ->
  exists host project segs,
    did = "did:web:" +:+ GoStrings.Join (host :: project :: segs) ":" /\
    parsed = {| Original := did; Host := host; Project := project;
                PathSegs := segs; HostLower := ToLower host |}.
Proof.
  unfold parseDID, HasPrefix. intros H.
  destruct (String.prefix "did:web:" did) eqn:Hp; simpl in H; [|discriminate].
  destruct (prefix_inv _ _ Hp) as [r ->].
  rewrite Split_did_web in H.
  pose proof (Join_Split r ":") as Hj.
  destruct (Split r ":") as [|host [|project segs]]; simpl in H; try discriminate.
  injection H as <-. exists host, project, segs. split; [|reflexivity].
  now rewrite Hj.
Qed.

(** C10. Every identifier that [parseDID] accepts is given back unchanged by
    the identity string that [validateDIDDocumentID] rebuilds from the parsed
    Host, Project and PathSegs. *)
Theorem parseDID_expectedID_roundtrip (did : string) (parsed : ParsedDID) :
  parseDID did = inr parsed -> expectedID parsed = did.
Proof.
  intros H. destruct (parseDID_inv _ _ H) as (host & project & segs & Hd & ->).
  rewrite Hd at 2. unfold expectedID, GoStrings.Join. simpl PathSegs.
  cbn [Host Project]. destruct segs as [|s segs].
  - reflexivity.
  - cbn [length Nat.ltb Nat.leb]. rewrite !concat_cons_cons.
    now rewrite !str_app_assoc.
Qed.


End Resolver.

Lemma parseDID_expectedID_roundtrip_witness :
  parseDID "did:web:alice.github.io:repo:a:b"
    = inr {| Original := "did:web:alice.github.io:repo:a:b";
             Host := "alice.github.io"; Project := "repo";
             PathSegs := ["a"; "b"]; HostLower := "alice.github.io" |} /\
  expectedID {| Original := "did:web:alice.github.io:repo:a:b";
                Host := "alice.github.io"; Project := "repo";
                PathSegs := ["a"; "b"]; HostLower := "alice.github.io" |}
    = "did:web:alice.github.io:repo:a:b".
Proof.
  split; [reflexivity|].
  apply (parseDID_expectedID_roundtrip "did:web:alice.github.io:repo:a:b").
  reflexivity.
Defined.


(** ** Requests with a foreign host *)

Section HostCheck.

Context {Uni : Unicode}.

Context {World : Type} `{!OS World} {J : Type} `{!JSONCodec J}.
Variable config : Config.

(** An identifier that [parseDID] rejects is answered without any effect. *)
Lemma processDID_parse_error submit did err (st : St World) :
  parseDID did = inl err ->
  processDID config submit did st = (Some (ErrParse err), st).
Proof. intros H. unfold processDID. now rewrite H. Qed.

(** C8, as amended. When the host of a parsed identifier, lower-cased, does
    not end with [.github.io], [processDID] answers with the host error and
    leaves the world and the trace as they were: no fetch, no file write and
    no git command has happened. The check is made by [processDID], not by
    [parseDID]. *)
Theorem processDID_rejects_foreign_host submit did parsed (st : St World) :
  parseDID did = inr parsed ->
  HasSuffix (ToLower (Host parsed)) ".github.io" = false ->
  processDID config submit did st
    = (Some (ErrHostNotGithubIO (Host parsed)), st).
Proof.
  intros Hp Hs. unfold processDID. rewrite Hp, Hs. reflexivity.
Qed.

End HostCheck.

(** C8, as stated, fails: [parseDID] accepts an identifier whose host does
    not end with [.github.io], and a host that ends with the suffix only up
    to letter case passes the check of [processDID], which then fetches. *)
Lemma parseDID_accepts_foreign_host :
  HasSuffix "example.com" ".github.io" = false /\
  parseDID "did:web:example.com:proj"
    = inr (Sim.did_of "example.com" "proj" []) /\
  HasSuffix "ALICE.GITHUB.IO" ".github.io" = false /\
  trace (processDID (J := bool) (Sim.config_with 5 10) (fun _ _ => ret None)
           "did:web:ALICE.GITHUB.IO:repo" (Sim.start Sim.world0)).2
    = [EvLog (LogFetching "http://localhost:3332/repo/did.json");
       EvLog (LogMakingRequest "http://localhost:3332/repo/did.json"
                "ALICE.GITHUB.IO");
       EvHTTPGet "http://localhost:3332/repo/did.json" "ALICE.GITHUB.IO"].
Proof. by_running. Qed.

Lemma processDID_rejects_foreign_host_witness :
  processDID (J := bool) (Sim.config_with 5 10) (fun _ _ => ret None)
    "did:web:example.com:proj" (Sim.start Sim.world0)
  = (Some (ErrHostNotGithubIO "example.com"), Sim.start Sim.world0).
Proof.
  apply (processDID_rejects_foreign_host (J := bool) (Sim.config_with 5 10)
           (fun _ _ => ret None) "did:web:example.com:proj"
           (Sim.did_of "example.com" "proj" []) (Sim.start Sim.world0)).
  - reflexivity.
  - reflexivity.
Defined.

(** ** Saving a document *)

Section Save.

Context {Uni : Unicode}.

Context {World : Type} `{!OS World} {J : Type} `{!JSONCodec J}.

(** When the parent directory cannot be created nothing is written. *)
Lemma saveDIDDocument_mkdir_fails data targetFile (st : St World) err w :
  os_mkdirall (GoFilepath.Dir targetFile) (world st) = (Some err, w) ->
  saveDIDDocument data targetFile st
    = (Some err,
       {| world := w;
          trace := trace st
                     ++ [EvMkdirAll (GoFilepath.Dir targetFile) (Some err)] |}).
Proof.
  intros H. unfold saveDIDDocument, bind, mkdirAll. now rewrite H.
Qed.

(** C9. [saveDIDDocument] first creates the parent directory of the target
    and then writes the file with one [os.WriteFile] call. If the payload
    decodes as JSON the bytes written are its indented encoding, which
    decodes to the same value as the payload; otherwise a warning is logged
    and the payload is written as it came. *)
Theorem saveDIDDocument_writes data targetFile (st : St World) w1 :
  codec_total -> codec_roundtrip ->
  os_mkdirall (GoFilepath.Dir targetFile) (world st) = (None, w1) ->
  exists written warning,
    saveDIDDocument data targetFile st
      = ((os_writefile targetFile written w1).1,
         {| world := (os_writefile targetFile written w1).2;
            trace := trace st
                       ++ [EvMkdirAll (GoFilepath.Dir targetFile) None]
                       ++ warning
                       ++ [EvWriteFile targetFile written
                             (os_writefile targetFile written w1).1] |}) /\
    match json_unmarshal data with
    | Some v =>
        json_marshal_indent v = Some written /\
        json_unmarshal written = json_unmarshal data /\
        warning = []
    | None => written = data /\ warning = [EvLog LogInvalidJSON]
    end.
Proof.
  intros Htotal Hround Hmk.
  unfold saveDIDDocument, bind, mkdirAll. rewrite Hmk.
  destruct (json_unmarshal data) as [v|] eqn:Hv.
  - destruct (Htotal _ _ Hv) as [formatted Hf].
    exists formatted, []. rewrite Hf. split.
    + unfold ret, writeFile. cbn [world trace].
      destruct (os_writefile targetFile formatted w1) as [e w2].
      cbn [fst snd]. now rewrite <- !app_assoc.
    + auto.
  - exists data, [EvLog LogInvalidJSON]. split; [|auto].
    unfold log, emit, ret, writeFile. cbn [world trace].
    destruct (os_writefile targetFile data w1) as [e w2].
    cbn [fst snd]. now rewrite <- !app_assoc.
Qed.

End Save.

Lemma sim_codec_total : codec_total (J := bool).
Proof. intros data v _. now eexists. Qed.

Lemma sim_codec_roundtrip : codec_roundtrip (J := bool).
Proof. intros [] text [= <-]; reflexivity. Qed.

Lemma saveDIDDocument_writes_witness :
  exists written warning,
    saveDIDDocument (J := bool) " true " "a/did.json" (Sim.start Sim.world0)
      = ((os_writefile "a/did.json" written Sim.world0).1,
         {| world := (os_writefile "a/did.json" written Sim.world0).2;
            trace := [] ++ [EvMkdirAll (GoFilepath.Dir "a/did.json") None]
                       ++ warning
                       ++ [EvWriteFile "a/did.json" written
                             (os_writefile "a/did.json" written
                                Sim.world0).1] |}) /\
    match json_unmarshal (J := bool) " true " with
    | Some v =>
        json_marshal_indent v = Some written /\
        json_unmarshal written = json_unmarshal (J := bool) " true " /\
        warning = []
    | None => written = " true " /\ warning = [EvLog LogInvalidJSON]
    end.
Proof.
  apply (saveDIDDocument_writes (J := bool) " true " "a/did.json"
           (Sim.start Sim.world0) Sim.world0
           sim_codec_total sim_codec_roundtrip).
  reflexivity.
Defined.

(** ** Paths *)

Section Paths.

Context {Uni : Unicode}.

Import GoFilepath.













End Paths.

(** ** The target file *)

Section TargetFile.

Context {Uni : Unicode}.

Import GoFilepath.








Context {World : Type} `{!OS World}.


End TargetFile.



(** Where the loop of [determineTargetFile] and the stripping of the claim
    part, and what segments that are no path elements do. From
    [/srv/work/a/b] the target of the segments [a:b:c] is nested again
    under [a/b], while the claim's stripping leaves [c]; the loop compares
    the first segment with the last directory name. The segments [..:..:etc]
    lead out of the working copy. The amended claim is silent on both. *)
Lemma determineTargetFile_beyond_the_claim :
  targetFileIn "/srv/work/a/b" (Sim.did_of "alice.github.io" "repo" ["a"; "b"; "c"])
    = "a/b/c/did.json" /\
  spec_strip ["srv"; "work"; "a"; "b"] ["a"; "b"; "c"] = ["c"] /\
  targetFileIn "/srv/work" (Sim.did_of "alice.github.io" "repo" [".."; ".."; "etc"])
    = "../../etc/did.json".
Proof. by_running. Qed.

(** ** Ownership validation *)

Section Validation.

Context {Uni : Unicode}.

Context {World : Type} `{!OS World}.
Variable config : Config.

Variable stable : World -> Prop.
Variables out ghUser ghRepo : string.
Hypothesis Hremote : remote_answers config stable out.
Hypothesis Hparse : parseGitHubURL (TrimSpace out) = inr (ghUser, ghRepo).

Lemma continues_refl p (st : St World) : continues p st st.
Proof. exists []. now rewrite app_nil_r. Qed.

Lemma continues_trans p (st1 st2 st3 : St World) :
  continues p st1 st2 -> continues p st2 st3 -> continues p st1 st3.
Proof.
  intros (e1 & H1 & F1) (e2 & H2 & F2). exists (e1 ++ e2).
  rewrite H2, H1, <- app_assoc, forallb_app, F1, F2. auto.
Qed.

Lemma continues_one p (st : St World) w ev :
  p ev = true ->
  continues p st {| world := w; trace := trace st ++ [ev] |}.
Proof. intros H. exists [ev]. cbn. now rewrite H. Qed.

Lemma checkGitRemote_ok (st : St World) :
  stable (world st) ->
  exists st', checkGitRemote config st = (None, st') /\
              stable (world st') /\ continues (remote_lookup_or_log (GitRemote config)) st st'.
Proof.
  intros Hs. destruct (Hremote _ Hs) as (w' & Hex & Hs').
  unfold checkGitRemote, bind, run. rewrite Hex. eexists. split; [reflexivity|].
  split; [exact Hs'|]. apply continues_one. cbn. now rewrite bool_decide_eq_true.
Qed.

Lemma getRemoteURL_ok (st : St World) :
  stable (world st) ->
  exists st', getRemoteURL config st = (inr (TrimSpace out), st') /\
              stable (world st') /\ continues (remote_lookup_or_log (GitRemote config)) st st'.
Proof.
  intros Hs. destruct (Hremote _ Hs) as (w' & Hex & Hs').
  unfold getRemoteURL, bind, run. rewrite Hex. eexists. split; [reflexivity|].
  split; [exact Hs'|]. apply continues_one. cbn. now rewrite bool_decide_eq_true.
Qed.

(** The validation loop computes [first_mismatch] and runs nothing but
    look-ups of the remote. *)
Lemma validateItems_spec batch seenHosts validatedItems (st : St World) :
  stable (world st) ->
  exists st',
    validateItems config batch seenHosts validatedItems st
      = (match first_mismatch ghUser ghRepo batch seenHosts with
         | Some item => inl (mismatch_error ghUser ghRepo item)
         | None => inr (validatedItems ++ batch)
         end, st') /\
    stable (world st') /\ continues (remote_lookup_or_log (GitRemote config)) st st'.
Proof.
  revert seenHosts validatedItems st.
  induction batch as [|item rest IH]; intros seenHosts validatedItems st Hs.
  - exists st. cbn [validateItems first_mismatch]. rewrite app_nil_r.
    split; [reflexivity|]. split; [assumption|apply continues_refl].
  - cbn [validateItems first_mismatch]. unfold bind at 1.
    destruct (checkGitRemote_ok st Hs) as (st1 & -> & Hs1 & C1).
    destruct (default false (seenHosts !! HostLower (ItemDID item))) eqn:Hseen.
    + cbn [negb]. destruct (IH seenHosts (validatedItems ++ [item]) st1 Hs1)
        as (st2 & -> & Hs2 & C2).
      exists st2. rewrite <- app_assoc. split; [reflexivity|].
      split; [assumption|eauto using continues_trans].
    + cbn [negb]. unfold bind at 1.
      destruct (getRemoteURL_ok st1 Hs1) as (st2 & -> & Hs2 & C2).
      rewrite Hparse. unfold item_matches, mismatch_error.
      destruct (EqualFold ghUser _) eqn:Hu; cbn [negb andb].
      2:{ exists st2. unfold mismatch_error. rewrite Hu.
          split; [reflexivity|].
          split; [assumption|eauto using continues_trans]. }
      destruct (EqualFold ghRepo _) eqn:Hr; cbn [negb].
      2:{ exists st2. unfold mismatch_error. rewrite Hu.
          split; [reflexivity|].
          split; [assumption|eauto using continues_trans]. }
      unfold bind at 1, log, emit.
      match goal with
      | |- context [validateItems _ _ _ _ ?s] =>
          destruct (IH (<[HostLower (ItemDID item) := true]> seenHosts)
                      (validatedItems ++ [item]) s Hs2) as (st3 & -> & Hs3 & C3)
      end.
      exists st3. rewrite <- app_assoc. split; [reflexivity|].
      split; [assumption|].
      eapply continues_trans; [exact C1|].
      eapply continues_trans; [exact C2|].
      eapply continues_trans; [|exact C3].
      now apply continues_one.
Qed.

(** An item that fails a comparison and whose host has not occurred before
    it in the batch stops the loop, at that item or at an earlier one. *)
Lemma first_mismatch_found batch seenHosts i item :
  batch !! i = Some item ->
  item_matches ghUser ghRepo item = false ->
  default false (seenHosts !! HostLower (ItemDID item)) = false ->
  (forall j other, j < i -> batch !! j = Some other ->
                   HostLower (ItemDID other) <> HostLower (ItemDID item)) ->
  is_Some (first_mismatch ghUser ghRepo batch seenHosts).
Proof.
  revert seenHosts i. induction batch as [|head rest IH];
    intros seenHosts i Hi Hbad Hseen Hfirst; [discriminate|].
  cbn [first_mismatch]. destruct i as [|i].
  - injection Hi as ->. rewrite Hseen, Hbad. eauto.
  - assert (Hne : HostLower (ItemDID head) <> HostLower (ItemDID item))
      by (apply (Hfirst 0); [lia|reflexivity]).
    assert (Hfirst' : forall j other, j < i -> rest !! j = Some other ->
              HostLower (ItemDID other) <> HostLower (ItemDID item))
      by (intros j other Hj Hl; apply (Hfirst (S j)); [lia|exact Hl]).
    destruct (default false (seenHosts !! HostLower (ItemDID head))).
    + eapply IH; eauto.
    + destruct (item_matches ghUser ghRepo head); [|eauto].
      eapply IH; eauto. now rewrite lookup_insert_ne.
Qed.

Lemma mismatch_error_ownership item :
  ownership_mismatch (mismatch_error ghUser ghRepo item) = true.
Proof. unfold mismatch_error. now destruct (negb _). Qed.

(** X21. With the remote in place and its URL naming [(ghUser, ghRepo)], a
    batch holding an item that fails the comparison with that pair, and
    whose host no earlier item of the batch carries, makes
    [performBatchedGitOperations] fail with an ownership mismatch; during
    the call nothing but look-ups of the remote is run, so no file of the
    batch is staged. *)
Theorem performBatchedGitOperations_mismatch batch i item (st : St World) :
  stable (world st) ->
  batch !! i = Some item ->
  item_matches ghUser ghRepo item = false ->
  (forall j other, j < i -> batch !! j = Some other ->
                   HostLower (ItemDID other) <> HostLower (ItemDID item)) ->
  exists err st',
    performBatchedGitOperations config batch st = (Some err, st') /\
    ownership_mismatch err = true /\
    continues (remote_lookup_or_log (GitRemote config)) st st' /\
    (forall ev, In ev (trace st') -> In ev (trace st) \/ is_git "add" ev = false).
Proof.
  intros Hs Hi Hbad Hfirst.
  assert (Hfound : is_Some (first_mismatch ghUser ghRepo batch ∅))
    by (eapply first_mismatch_found; eauto).
  destruct Hfound as [culprit Hc].
  unfold performBatchedGitOperations.
  destruct batch as [|b0 bs]; [discriminate|]. cbn [length Nat.eqb].
  unfold bind at 1, log, emit. unfold bind at 1.
  match goal with
  | |- context [validateItems _ _ _ _ ?s] =>
      destruct (validateItems_spec (b0 :: bs) ∅ [] s Hs) as (st' & -> & _ & C)
  end.
  rewrite Hc. exists (mismatch_error ghUser ghRepo culprit), st'.
  split; [reflexivity|]. split; [apply mismatch_error_ownership|].
  assert (Call : continues (remote_lookup_or_log (GitRemote config)) st st').
  { eapply continues_trans; [|exact C]. now apply continues_one. }
  split; [exact Call|].
  destruct Call as (evs & -> & Hall). intros ev [Hin|Hin]%in_app_or; [auto|].
  right. rewrite forallb_forall in Hall. specialize (Hall ev Hin).
  unfold remote_lookup_or_log in Hall.
  destruct ev as [argv ok o| | | | | |]; try reflexivity.
  apply bool_decide_eq_true in Hall as ->. reflexivity.
Qed.

End Validation.

Lemma sim_remote_answers timeout size :
  remote_answers (Sim.config_with timeout size) Sim.origin_is_set Sim.origin_out.
Proof.
  intros w Hw. exists w. split; [|exact Hw].
  cbn. unfold Sim.origin_is_set in Hw. now rewrite Hw.
Qed.

(** C3: the code at a failing input. The remote is [alice/repo] and the
    batch holds a request for the project [repo] followed by one for the
    project [other], both under the host [alice.github.io]. Alone, the
    second request is refused with the repository mismatch. Behind the
    first, its host is found in [seenHosts] and its project is not
    compared: the flush returns [nil], and the file of the request that
    does not belong to the repository is staged, committed and pushed. *)
Theorem repeated_host_is_not_validated :
  item_matches "alice" "repo" Sim.item_other = false /\
  (performBatchedGitOperations (Sim.config_with 5 10)
     [Sim.item_other] (Sim.start Sim.world1)).1
    = Some (ErrRepoMismatch "other" "repo") /\
  (performBatchedGitOperations (Sim.config_with 5 10)
     [Sim.item_a; Sim.item_other] (Sim.start Sim.world1)).1 = None /\
  In (EvExec ["git"; "add"; "a/did.json"; "x/did.json"] true "")
    (trace (performBatchedGitOperations (Sim.config_with 5 10)
              [Sim.item_a; Sim.item_other] (Sim.start Sim.world1)).2) /\
  Sim.sim_head
    (world (performBatchedGitOperations (Sim.config_with 5 10)
              [Sim.item_a; Sim.item_other] (Sim.start Sim.world1)).2)
    !! "x/did.json" = Some "true" /\
  Sim.sim_pushes
    (world (performBatchedGitOperations (Sim.config_with 5 10)
              [Sim.item_a; Sim.item_other] (Sim.start Sim.world1)).2)
    = [("origin", "gh-pages")].
Proof. by_running. Qed.

Lemma performBatchedGitOperations_mismatch_witness :
  exists err st',
    performBatchedGitOperations (Sim.config_with 5 10)
      [Sim.item_other; Sim.item_a] (Sim.start Sim.world1)
    = (Some err, st') /\
    ownership_mismatch err = true /\
    continues (remote_lookup_or_log "origin") (Sim.start Sim.world1) st' /\
    (forall ev, In ev (trace st') ->
                In ev (trace (Sim.start Sim.world1))
                \/ is_git "add" ev = false).
Proof.
  apply (performBatchedGitOperations_mismatch (Uni := sim_unicode)
           (Sim.config_with 5 10)
           Sim.origin_is_set Sim.origin_out "alice" "repo"
           (sim_remote_answers 5 10) eq_refl
           [Sim.item_other; Sim.item_a] 0 Sim.item_other
           (Sim.start Sim.world1)).
  - vm_compute. reflexivity.
  - reflexivity.
  - reflexivity.
  - intros j other Hj. lia.
Defined.

(** ** A flush that stages nothing *)

Section Flush.

Context {Uni : Unicode}.

Context {World : Type} `{!OS World}.
Variable config : Config.

Lemma neutral_not_staged evs :
  forallb neutral evs = true -> existsb nothing_staged evs = false.
Proof.
  induction evs as [|ev evs IH]; [reflexivity|]. cbn [forallb existsb].
  unfold neutral at 1. intros [[H1 _]%andb_true_iff H2]%andb_true_iff.
  apply negb_true_iff in H1. now rewrite H1, IH.
Qed.

Lemma neutral_not_commit evs :
  forallb neutral evs = true -> existsb (is_git "commit") evs = false.
Proof.
  induction evs as [|ev evs IH]; [reflexivity|]. cbn [forallb existsb].
  unfold neutral at 1. intros [[_ H1]%andb_true_iff H2]%andb_true_iff.
  apply negb_true_iff in H1. now rewrite H1, IH.
Qed.

Lemma quiet_after_neutral evs1 evs2 e :
  forallb neutral evs1 = true ->
  quiet_when_unstaged evs2 e -> quiet_when_unstaged (evs1 ++ evs2) e.
Proof.
  intros Hn Hq. unfold quiet_when_unstaged.
  rewrite !existsb_app, (neutral_not_staged _ Hn), (neutral_not_commit _ Hn).
  exact Hq.
Qed.

Lemma quiet_neutral evs e :
  forallb neutral evs = true -> quiet_when_unstaged evs e.
Proof.
  intros Hn. unfold quiet_when_unstaged.
  rewrite (neutral_not_staged _ Hn). discriminate.
Qed.

(** A command other than the probe and the commit is neutral. *)
Lemma neutral_exec prog cmd args ok out :
  cmd <> "diff" -> cmd <> "commit" ->
  neutral (EvExec (prog :: cmd :: args) ok out) = true.
Proof.
  intros Hd Hc. unfold neutral, nothing_staged, is_git.
  rewrite bool_decide_eq_false_2 by congruence.
  apply String.eqb_neq in Hc. rewrite Hc, andb_false_r. reflexivity.
Qed.

Lemma run_neutral prog cmd args (st : St World) :
  cmd <> "diff" -> cmd <> "commit" ->
  continues neutral st (run (prog :: cmd :: args) st).2.
Proof.
  intros Hd Hc. unfold run.
  destruct (os_exec (prog :: cmd :: args) (world st)) as [[ok out] w].
  cbn [snd]. exists [EvExec (prog :: cmd :: args) ok out]. split; [reflexivity|].
  cbn [forallb]. now rewrite neutral_exec.
Qed.

Lemma log_neutral line (st : St World) : continues neutral st (log line st).2.
Proof. exists [EvLog line]. split; reflexivity. Qed.

Lemma checkGitRemote_neutral (st : St World) :
  continues neutral st (checkGitRemote config st).2.
Proof.
  unfold checkGitRemote, bind.
  pose proof (run_neutral "git" "remote" ["get-url"; GitRemote config] st) as H.
  destruct (run _ st) as [[ok out] st1]. cbn [snd] in H.
  destruct ok; apply H; discriminate.
Qed.

Lemma getRemoteURL_neutral (st : St World) :
  continues neutral st (getRemoteURL config st).2.
Proof.
  unfold getRemoteURL, bind.
  pose proof (run_neutral "git" "remote" ["get-url"; GitRemote config] st) as H.
  destruct (run _ st) as [[ok out] st1]. cbn [snd] in H.
  destruct ok; apply H; discriminate.
Qed.

Lemma validateItems_neutral batch seenHosts validatedItems (st : St World) :
  continues neutral st
    (validateItems config batch seenHosts validatedItems st).2.
Proof.
  revert seenHosts validatedItems st.
  induction batch as [|item rest IH]; intros seenHosts validatedItems st.
  - apply continues_refl.
  - cbn [validateItems]. unfold bind at 1.
    pose proof (checkGitRemote_neutral st) as H1.
    destruct (checkGitRemote config st) as [[err|] st1]; cbn [snd] in H1;
      [exact H1|].
    destruct (negb _).
    + unfold bind at 1. pose proof (getRemoteURL_neutral st1) as H2.
      destruct (getRemoteURL config st1) as [[err|url] st2]; cbn [snd] in H2.
      { eapply continues_trans; eauto. }
      destruct (parseGitHubURL url) as [err|[ghUser ghRepo]].
      { eapply continues_trans; eauto. }
      destruct (negb _). { eapply continues_trans; eauto. }
      destruct (negb _). { eapply continues_trans; eauto. }
      unfold bind at 1.
      eapply continues_trans; [exact H1|].
      eapply continues_trans; [exact H2|].
      eapply continues_trans; [apply log_neutral|]. apply IH.
    + eapply continues_trans; [exact H1|]. apply IH.
Qed.

Lemma checkoutOrCreateBranch_neutral branch (st : St World) :
  continues neutral st (checkoutOrCreateBranch branch st).2.
Proof.
  unfold checkoutOrCreateBranch, bind.
  pose proof (run_neutral "git" "rev-parse" ["--abbrev-ref"; "HEAD"] st) as H1.
  destruct (run _ st) as [[ok out] st1]. cbn [snd] in H1.
  specialize (H1 ltac:(discriminate) ltac:(discriminate)).
  destruct ok; cbn [negb]; [|exact H1].
  destruct (String.eqb _ branch); [exact H1|].
  pose proof (run_neutral "git" "rev-parse" ["--verify"; branch] st1) as H2.
  destruct (run _ st1) as [[ok2 out2] st2]. cbn [snd] in H2.
  specialize (H2 ltac:(discriminate) ltac:(discriminate)).
  destruct ok2; cbn [negb].
  - pose proof (run_neutral "git" "checkout" [branch] st2) as H3.
    destruct (run _ st2) as [[ok3 out3] st3]. cbn [snd] in H3.
    specialize (H3 ltac:(discriminate) ltac:(discriminate)).
    destruct ok3; eapply continues_trans; eauto using continues_trans.
  - pose proof (run_neutral "git" "checkout" ["-b"; branch] st2) as H3.
    destruct (run _ st2) as [[ok3 out3] st3]. cbn [snd] in H3.
    specialize (H3 ltac:(discriminate) ltac:(discriminate)).
    destruct ok3; eapply continues_trans; eauto using continues_trans.
Qed.


Lemma not_staged_other prog cmd args ok out :
  cmd <> "diff" -> nothing_staged (EvExec (prog :: cmd :: args) ok out) = false.
Proof.
  intros Hd. unfold nothing_staged.
  now rewrite bool_decide_eq_false_2 by congruence.
Qed.

Lemma not_staged_failed argv out :
  nothing_staged (EvExec argv false out) = false.
Proof. unfold nothing_staged. apply andb_false_r. Qed.

Lemma executeBatchedGitCommands_quiet batch (st : St World) e st' :
  executeBatchedGitCommands config batch st = (e, st') ->
  exists evs, trace st' = trace st ++ evs /\ quiet_when_unstaged evs e.
Proof.
  unfold executeBatchedGitCommands, bind. intros H.
  destruct (checkoutOrCreateBranch_neutral (Branch config) st)
    as (evs1 & Ht1 & Hn1).
  destruct (checkoutOrCreateBranch (Branch config) st) as [[err|] st1];
    cbn [snd] in Ht1.
  { injection H as <- <-. exists evs1.
    split; [exact Ht1|now apply quiet_neutral]. }
  unfold run, log, emit, ret in H.
  destruct (os_exec ("git" :: "add" :: map TargetFile batch) (world st1))
    as [[ok out] w2].
  set (add := EvExec ("git" :: "add" :: map TargetFile batch) ok out) in H.
  assert (Hadd : neutral add = true) by now apply neutral_exec.
  destruct ok; cbn [negb world trace] in H.
  2:{ injection H as <- <-. exists (evs1 ++ [add]). cbn [trace]. split.
      - now rewrite Ht1, <- app_assoc.
      - apply quiet_neutral. rewrite forallb_app, Hn1. cbn. now rewrite Hadd. }
  destruct (os_exec ["git"; "diff"; "--cached"; "--quiet"] w2)
    as [[ok3 out3] w3].
  set (probe := EvExec ["git"; "diff"; "--cached"; "--quiet"] ok3 out3) in H.
  destruct ok3; cbn [negb world trace] in H.
  { injection H as <- <-.
    exists (evs1 ++ [add; probe; EvLog LogNoStagedChanges]).
    cbn [trace]. split.
    - rewrite Ht1, <- !app_assoc. reflexivity.
    - apply quiet_after_neutral; [exact Hn1|]. intros _. split; reflexivity. }
  assert (Hprobe : neutral probe = true).
  { unfold neutral. subst probe. now rewrite not_staged_failed. }
  match type of H with
  | context [os_exec ("git" :: "commit" :: ?a) w3] =>
      destruct (os_exec ("git" :: "commit" :: a) w3) as [[ok4 out4] w4];
      set (commit := EvExec ("git" :: "commit" :: a) ok4 out4) in H
  end.
  assert (Hcommit : nothing_staged commit = false)
    by now apply not_staged_other.
  destruct ok4; cbn [negb world trace] in H.
  2:{ injection H as <- <-. exists (evs1 ++ [add; probe; commit]).
      cbn [trace]. split.
      - rewrite Ht1, <- !app_assoc. reflexivity.
      - apply quiet_after_neutral; [exact Hn1|].
        apply quiet_after_neutral with (evs1 := [add; probe]);
          [cbn; now rewrite Hadd, Hprobe|].
        unfold quiet_when_unstaged. cbn [existsb].
        rewrite Hcommit. discriminate. }
  match type of H with
  | context [os_exec ("git" :: "push" :: ?a) w4] =>
      destruct (os_exec ("git" :: "push" :: a) w4) as [[ok5 out5] w5];
      set (push := EvExec ("git" :: "push" :: a) ok5 out5) in H
  end.
  assert (Hpush : nothing_staged push = false) by now apply not_staged_other.
  exists (evs1 ++ [add; probe; commit; push]). split.
  - destruct ok5; cbn [negb] in H; injection H as <- <-; cbn [trace];
      rewrite Ht1, <- !app_assoc; reflexivity.
  - apply quiet_after_neutral; [exact Hn1|].
    apply quiet_after_neutral with (evs1 := [add; probe]);
      [cbn; now rewrite Hadd, Hprobe|].
    unfold quiet_when_unstaged. cbn [existsb].
    rewrite Hcommit, Hpush. discriminate.
Qed.

Lemma performBatchedGitOperations_quiet batch (st : St World) e st' :
  performBatchedGitOperations config batch st = (e, st') ->
  exists evs, trace st' = trace st ++ evs /\ quiet_when_unstaged evs e.
Proof.
  unfold performBatchedGitOperations. intros H.
  destruct (length batch =? 0)%nat.
  { injection H as <- <-. exists []. rewrite app_nil_r.
    split; [reflexivity|discriminate]. }
  unfold bind at 1, log, emit in H. unfold bind at 1 in H.
  match type of H with
  | context [validateItems config batch ∅ [] ?s] =>
      set (st0 := s) in H;
      destruct (validateItems_neutral batch ∅ [] st0) as (evs1 & Ht1 & Hn1);
      destruct (validateItems config batch ∅ [] st0) as [[err|items] st1]
  end; cbn [snd] in Ht1; subst st0; cbn [trace] in Ht1.
  { injection H as <- <-.
    exists ([EvLog (LogAcquiredLock (length batch))] ++ evs1).
    split; [now rewrite Ht1, <- app_assoc|].
    apply quiet_neutral. now rewrite forallb_app, Hn1. }
  unfold bind at 1 in H.
  destruct (executeBatchedGitCommands config items st1) as [[err|] st2] eqn:Hx;
    destruct (executeBatchedGitCommands_quiet _ _ _ _ Hx) as (evs2 & Ht2 & Hq2).
  - injection H as <- <-.
    exists ([EvLog (LogAcquiredLock (length batch))] ++ evs1 ++ evs2).
    split; [now rewrite Ht2, Ht1, <- !app_assoc|].
    apply quiet_after_neutral; [reflexivity|].
    now apply quiet_after_neutral.
  - unfold bind, log, emit, ret in H. injection H as <- <-.
    exists ([EvLog (LogAcquiredLock (length batch))] ++ evs1 ++ evs2
              ++ [EvLog (LogPushed (length items) (Branch config))]).
    cbn [trace].
    split; [now rewrite Ht2, Ht1, <- !app_assoc|].
    apply quiet_after_neutral; [reflexivity|].
    apply quiet_after_neutral; [exact Hn1|].
    unfold quiet_when_unstaged in *. rewrite !existsb_app. cbn [existsb].
    rewrite !orb_false_r. exact Hq2.
Qed.

End Flush.

(** ** The accumulation loop *)

Section Coordinator.

Context {Uni : Unicode}.

Context {World : Type} `{!OS World}.
Variable config : Config.

Lemma trySend_keeps (chans : gmap nat error) ch err ch' v :
  chans !! ch' = Some v -> trySend chans ch err !! ch' = Some v.
Proof.
  intros H. unfold trySend. destruct (chans !! ch) eqn:E; [exact H|].
  rewrite lookup_insert_ne; [exact H|]. intros ->. congruence.
Qed.

Lemma signal_keeps err (items : list BatchItem) (chans : gmap nat error) ch v :
  chans !! ch = Some v ->
  fold_left (fun c item => trySend c (ResponseCh item) err) items chans !! ch
    = Some v.
Proof.
  revert chans. induction items as [|item items IH]; intros chans H; [exact H|].
  cbn [fold_left]. apply IH. now apply trySend_keeps.
Qed.

(** Every item of a flushed batch whose response channel was empty finds
    the outcome of the flush in it. *)
Lemma signal_reaches err (items : list BatchItem) (chans : gmap nat error) item :
  In item items ->
  chans !! ResponseCh item = None ->
  fold_left (fun c it => trySend c (ResponseCh it) err) items chans
    !! ResponseCh item = Some err.
Proof.
  revert chans. induction items as [|head items IH]; intros chans Hin Hnone;
    [contradiction|].
  cbn [fold_left].
  destruct (decide (ResponseCh head = ResponseCh item)) as [Heq|Hne].
  - apply signal_keeps. unfold trySend. rewrite Heq, Hnone.
    apply lookup_insert_eq.
  - destruct Hin as [->|Hin]; [congruence|]. apply IH; [exact Hin|].
    unfold trySend. destruct (chans !! ResponseCh head); [exact Hnone|].
    now rewrite lookup_insert_ne.
Qed.

Lemma processBatch_empty now l (st : St World) :
  batch l = [] -> processBatch config now l st = (l, st).
Proof. intros H. unfold processBatch. now rewrite H. Qed.

Lemma processBatch_flush now l (st : St World) :
  batch l <> [] ->
  processBatch config now l st
    = (flushed config now l
         (performBatchedGitOperations config (batch l)
            (log (LogProcessingBatch (length (batch l))) st).2).1,
       (performBatchedGitOperations config (batch l)
          (log (LogProcessingBatch (length (batch l))) st).2).2).
Proof.
  intros H. unfold processBatch, flushed.
  destruct (batch l) as [|b bs] eqn:E; [congruence|]. cbn [length Nat.eqb].
  unfold bind. destruct (log _ st) as [[] st1]. cbn [snd].
  now destruct (performBatchedGitOperations config (b :: bs) st1).
Qed.

(** C7. When, during a flush, the staged-changes probe reports that nothing
    is staged, no commit is made, the flush is recorded with the outcome
    [nil], and every item of the batch whose response channel was empty
    receives that [nil]. *)
Theorem processBatch_nothing_staged now l (st : St World) l' st' evs :
  processBatch config now l st = (l', st') ->
  trace st' = trace st ++ evs ->
  existsb nothing_staged evs = true ->
  existsb (is_git "commit") evs = false /\
  flushLog l' = flushLog l ++ [(batch l, None)] /\
  (forall item, In item (batch l) ->
     chans l !! ResponseCh item = None ->
     chans l' !! ResponseCh item = Some None).
Proof.
  intros Hp Ht Hprobe.
  destruct (batch l) as [|b bs] eqn:E.
  - rewrite processBatch_empty in Hp by assumption. injection Hp as <- <-.
    rewrite <- (app_nil_r (trace st)) in Ht at 1.
    apply app_inv_head in Ht. subst evs. discriminate.
  - rewrite processBatch_flush in Hp by congruence.
    destruct (performBatchedGitOperations config (batch l)
                (log (LogProcessingBatch (length (batch l))) st).2)
      as [err st2] eqn:Hx.
    cbn [fst snd] in Hp. injection Hp as <- <-.
    destruct (performBatchedGitOperations_quiet _ _ _ _ _ Hx)
      as (evs2 & Ht2 & Hq).
    cbn [log emit snd trace] in Ht2. rewrite Ht2, <- app_assoc in Ht.
    apply app_inv_head in Ht. subst evs.
    cbn [app existsb nothing_staged orb] in Hprobe.
    destruct (Hq Hprobe) as [-> Hnc].
    split; [exact Hnc|]. rewrite <- E. split; [reflexivity|].
    intros item Hin Hnone. cbn [flushed chans]. now apply signal_reaches.
Qed.

Lemma loopIter_received_below now item l (st : St World) :
  exited l = false ->
  (Z.of_nat (length (batch l) + 1) < BatchSize config)%Z ->
  loopIter config now (Received item) l st = (holding item l, st).
Proof.
  intros He Hlt. unfold loopIter, holding. rewrite He. cbn [batch].
  rewrite length_app. cbn [length].
  destruct (Z.leb_spec (BatchSize config) (Z.of_nat (length (batch l) + 1)));
    [lia|reflexivity].
Qed.

Lemma loopIter_received_full now item l (st : St World) :
  exited l = false ->
  (BatchSize config <= Z.of_nat (length (batch l) + 1))%Z ->
  loopIter config now (Received item) l st
    = processBatch config now (holding item l) st.
Proof.
  intros He Hle. unfold loopIter, holding. rewrite He. cbn [batch].
  rewrite length_app. cbn [length].
  destruct (Z.leb_spec (BatchSize config) (Z.of_nat (length (batch l) + 1)));
    [reflexivity|lia].
Qed.

Lemma runLoop_cons now ev evs l (st : St World) :
  runLoop config ((now, ev) :: evs) l st
    = runLoop config evs (loopIter config now ev l st).1
        (loopIter config now ev l st).2.
Proof.
  cbn [runLoop]. unfold bind. now destruct (loopIter config now ev l st).
Qed.

Lemma runLoop_app evs1 evs2 l (st : St World) :
  runLoop config (evs1 ++ evs2) l st
    = runLoop config evs2 (runLoop config evs1 l st).1
        (runLoop config evs1 l st).2.
Proof.
  revert l st. induction evs1 as [|[now ev] evs1 IH]; intros l st.
  - reflexivity.
  - change (((now, ev) :: evs1) ++ evs2) with ((now, ev) :: evs1 ++ evs2).
    rewrite !runLoop_cons. apply IH.
Qed.

(** Receiving items with no tick in between: the flushes made are full
    batches, and they and the batch left over hold the items in the order
    received. *)
Lemma runLoop_receives items : forall tevs l (st : St World),
  map snd tevs = map Received items ->
  exited l = false ->
  length (batch l) < Z.to_nat (BatchSize config) ->
  exists new,
    flushLog (runLoop config tevs l st).1 = flushLog l ++ new /\
    exited (runLoop config tevs l st).1 = false /\
    length (batch (runLoop config tevs l st).1) < Z.to_nat (BatchSize config) /\
    concat (map fst new) ++ batch (runLoop config tevs l st).1
      = batch l ++ items /\
    Forall (fun f => length f.1 = Z.to_nat (BatchSize config)) new.
Proof.
  induction items as [|item items IH]; intros tevs l st Hev He Hlen.
  - destruct tevs; [|discriminate]. exists []. cbn.
    rewrite !app_nil_r. auto.
  - destruct tevs as [|[now ev] tevs]; [discriminate|].
    cbn [map snd] in Hev. injection Hev as -> Hev.
    rewrite runLoop_cons.
    destruct (Z.leb_spec (BatchSize config)
                (Z.of_nat (length (batch l) + 1))) as [Hfull|Hbelow].
    + rewrite loopIter_received_full by assumption.
      rewrite processBatch_flush by (cbn; now destruct (batch l)).
      set (err := (performBatchedGitOperations config _ _).1).
      set (st2 := (performBatchedGitOperations config _ _).2).
      cbn [fst snd].
      destruct (IH tevs (flushed config now (holding item l) err) st2 Hev)
        as (new & Hlog & Hex & Hlt & Hcat & Hall); [exact He|cbn; lia|].
      exists ((batch l ++ [item], err) :: new).
      rewrite Hlog. cbn [flushed flushLog holding batch] in *.
      rewrite <- app_assoc. split; [reflexivity|]. split; [exact Hex|].
      split; [exact Hlt|]. split.
      * cbn [map fst concat]. rewrite <- !app_assoc. f_equal.
        cbn [app] in Hcat. now rewrite Hcat.
      * constructor; [|exact Hall]. cbn [fst]. rewrite length_app.
        cbn [length]. lia.
    + rewrite loopIter_received_below by assumption. cbn [fst snd].
      destruct (IH tevs (holding item l) st Hev)
        as (new & Hlog & Hex & Hlt & Hcat & Hall);
        [exact He|cbn; rewrite length_app; cbn; lia|].
      exists new. cbn [holding flushLog batch] in *.
      rewrite <- app_assoc in Hcat. auto.
Qed.

Lemma length_concat_full {A B} (n : nat) (new : list (list A * B)) :
  Forall (fun f => length f.1 = n) new ->
  length (concat (map fst new)) = n * length new.
Proof.
  induction 1 as [|f new Hf _ IH]; [cbn; lia|].
  cbn [map concat length]. rewrite length_app, IH, Hf. lia.
Qed.

Lemma ceil_div_exact q b : 0 < b -> ceil_div (b * q) b = q.
Proof.
  intros Hb. unfold ceil_div. symmetry.
  apply (Nat.div_unique _ _ _ (b - 1)); lia.
Qed.

Lemma ceil_div_rest q r b : 0 < r < b -> ceil_div (b * q + r) b = q + 1.
Proof.
  intros Hr. unfold ceil_div. symmetry.
  apply (Nat.div_unique _ _ _ (r - 1)); lia.
Qed.

End Coordinator.

(** Publishing again what the first flush committed: the files are staged
    anew, the probe finds nothing staged, the list of commits stays as it
    was and the outcome is [nil]. *)
Lemma resubmission_makes_no_commit :
  Sim.sim_commits Sim.world2
    = ["initial commit";
       "chore (did): update did:web documents (2 files): a/did.json, b/did.json"] /\
  (performBatchedGitOperations (Sim.config_with 5 10)
     [Sim.item_a; Sim.item_b] (Sim.start Sim.world2)).1 = None /\
  Sim.sim_commits
    (world (performBatchedGitOperations (Sim.config_with 5 10)
              [Sim.item_a; Sim.item_b] (Sim.start Sim.world2)).2)
    = Sim.sim_commits Sim.world2.
Proof. by_running. Qed.

Lemma processBatch_nothing_staged_witness :
  existsb (is_git "commit")
    (trace (processBatch (Sim.config_with 5 10) 7
              (Sim.loop_holding [Sim.item_a; Sim.item_b])
              (Sim.start Sim.world2)).2) = false /\
  flushLog (processBatch (Sim.config_with 5 10) 7
              (Sim.loop_holding [Sim.item_a; Sim.item_b])
              (Sim.start Sim.world2)).1
    = flushLog (Sim.loop_holding [Sim.item_a; Sim.item_b])
        ++ [(batch (Sim.loop_holding [Sim.item_a; Sim.item_b]), None)] /\
  (forall item,
     In item (batch (Sim.loop_holding [Sim.item_a; Sim.item_b])) ->
     chans (Sim.loop_holding [Sim.item_a; Sim.item_b]) !! ResponseCh item
       = None ->
     chans (processBatch (Sim.config_with 5 10) 7
              (Sim.loop_holding [Sim.item_a; Sim.item_b])
              (Sim.start Sim.world2)).1 !! ResponseCh item = Some None).
Proof.
  apply (processBatch_nothing_staged (Sim.config_with 5 10) 7
           (Sim.loop_holding [Sim.item_a; Sim.item_b]) (Sim.start Sim.world2)
           (processBatch (Sim.config_with 5 10) 7
              (Sim.loop_holding [Sim.item_a; Sim.item_b])
              (Sim.start Sim.world2)).1
           (processBatch (Sim.config_with 5 10) 7
              (Sim.loop_holding [Sim.item_a; Sim.item_b])
              (Sim.start Sim.world2)).2
           (trace (processBatch (Sim.config_with 5 10) 7
                     (Sim.loop_holding [Sim.item_a; Sim.item_b])
                     (Sim.start Sim.world2)).2)).
  - apply surjective_pairing.
  - reflexivity.
  - vm_compute. reflexivity.
Defined.

(** ** Callers and their deadline *)


(** C1: the code at a failing input. The batch time ceiling is 60 and the
    size ceiling 10. A caller enters [batchGitOperation] at time 0, its send
    is taken at once and the loop receives the item. 45 time units later the
    caller is still in [<-responseCh]: nothing has been sent to its channel,
    the timeout branch of its [select] can no longer be taken, and the
    ticker is not yet due. It is released at time 60, by the flush, with
    the outcome of the batch and not with [ErrTimeout]. *)
Theorem caller_waits_past_the_deadline :
  exists s s',
    steps (Sim.config_with 60 10)
      ([Submit 0 (TargetFile Sim.item_a) (ItemDID Sim.item_a);
        SendTaken 0; LoopReceives] ++ repeat Elapse 45)
      (initial (Sim.config_with 60 10) Sim.world1) = Some s /\
    now s = 45 /\
    callers s !! 0 = Some AwaitingResponse /\
    chans (loop s) !! 0 = None /\
    step (Sim.config_with 60 10) (TimeoutTaken 0) s = None /\
    step (Sim.config_with 60 10) (ResponseTaken 0) s = None /\
    step (Sim.config_with 60 10) LoopTicks s = None /\
    steps (Sim.config_with 60 10)
      (repeat Elapse 15 ++ [LoopTicks; ResponseTaken 0]) s = Some s' /\
    now s' = 60 /\
    callers s' !! 0 = Some (Returned None).
Proof.
  set (s := Sim.after (Sim.config_with 60 10)
              ([Submit 0 (TargetFile Sim.item_a) (ItemDID Sim.item_a);
                SendTaken 0; LoopReceives] ++ repeat Elapse 45)
              (initial (Sim.config_with 60 10) Sim.world1)).
  exists s, (Sim.after (Sim.config_with 60 10)
               (repeat Elapse 15 ++ [LoopTicks; ResponseTaken 0]) s).
  subst s. by_running.
Qed.

(** C2: the code at a failing input. A hundred callers fill the admission
    queue; one more, on channel 100, enters [batchGitOperation] for the
    document [late/did.json]. Its send cannot be taken while the queue is
    full, and after 30 time units its [select] takes the timeout: it returns
    [ErrTimeout] and its item has never been in the queue. The loop then
    drains the queue in ten flushes, all successful; none holds an item of
    channel 100, and the committed tree has [a/did.json] but not
    [late/did.json]. *)
Theorem timed_out_item_is_never_published :
  exists s1 s2,
    steps (Sim.config_with 5 10)
      (Sim.fill 100
       ++ [Submit 100 (TargetFile Sim.item_late) (ItemDID Sim.item_late)]
       ++ repeat Elapse 30)
      (initial (Sim.config_with 5 10) Sim.world3) = Some s1 /\
    length (batchCh s1) = 100 /\
    forallb (fun item => negb (ResponseCh item =? 100)%nat) (batchCh s1) = true /\
    step (Sim.config_with 5 10) (SendTaken 100) s1 = None /\
    steps (Sim.config_with 5 10)
      ([TimeoutTaken 100] ++ repeat LoopReceives 100) s1 = Some s2 /\
    callers s2 !! 100 = Some (Returned (Some ErrTimeout)) /\
    batchCh s2 = [] /\
    batch (loop s2) = [] /\
    length (flushLog (loop s2)) = 10 /\
    forallb (Sim.flush_without 100) (flushLog (loop s2)) = true /\
    Sim.sim_head (world (outside s2)) !! "a/did.json" = Some "true" /\
    Sim.sim_head (world (outside s2)) !! "late/did.json" = None /\
    Sim.sim_files (world (outside s2)) !! "late/did.json" = Some "true".
Proof.
  set (s1 := Sim.after (Sim.config_with 5 10)
               (Sim.fill 100
                ++ [Submit 100 (TargetFile Sim.item_late)
                      (ItemDID Sim.item_late)]
                ++ repeat Elapse 30)
               (initial (Sim.config_with 5 10) Sim.world3)).
  exists s1, (Sim.after (Sim.config_with 5 10)
                ([TimeoutTaken 100] ++ repeat LoopReceives 100) s1).
  subst s1. by_running.
Qed.

Section System.

Context {Uni : Unicode}.

Context {World : Type} `{!OS World}.
Variable config : Config.

(** Once its send has been taken, a caller has no timeout to take. *)
Lemma awaiting_has_no_timeout (s : Sys World) ch :
  callers s !! ch = Some AwaitingResponse ->
  step config (TimeoutTaken ch) s = None.
Proof.
  intros H. unfold step. destruct (exited (loop s)); [reflexivity|].
  now rewrite H.
Qed.

(** The timeout is only ever taken by a caller whose send was not, and it
    leaves the queue and the loop as they were. *)
Lemma timeout_taken_inv (s s' : Sys World) ch :
  step config (TimeoutTaken ch) s = Some s' ->
  exists item since,
    callers s !! ch = Some (AtSelect item since) /\
    since + submitTimeout <= now s /\
    s' = setCaller ch (Returned (Some ErrTimeout)) s.
Proof.
  unfold step. destruct (exited (loop s)); [discriminate|].
  destruct (callers s !! ch) as [[item since| |]|]; try discriminate.
  destruct (Nat.leb_spec (since + submitTimeout) (now s)); [|discriminate].
  intros [= <-]. eauto.
Qed.

(** However much time passes, a caller whose send was taken stays in its
    receive, without a timeout, for as long as nothing is sent to it. *)
Lemma awaiting_outlasts_any_delay n (s : Sys World) ch :
  exited (loop s) = false ->
  callers s !! ch = Some AwaitingResponse ->
  exists s',
    steps config (repeat Elapse n) s = Some s' /\
    now s' = now s + n /\
    callers s' !! ch = Some AwaitingResponse /\
    chans (loop s') = chans (loop s) /\
    step config (TimeoutTaken ch) s' = None.
Proof.
  revert s. induction n as [|n IH]; intros s Hal H.
  - exists s. cbn [repeat steps]. rewrite Nat.add_0_r.
    repeat split; auto using awaiting_has_no_timeout.
  - cbn [repeat steps]. unfold step at 1. rewrite Hal.
    destruct (IH {| now := S (now s); batchCh := batchCh s;
                    callers := callers s; loop := loop s;
                    outside := outside s |} Hal H)
      as (s' & Hs & Hn & Hc & Hch & Ht).
    exists s'. cbn [now loop] in *. rewrite Hs.
    repeat split; auto; lia.
Qed.

Lemma parseGitHubURL_error url e :
  parseGitHubURL url = inl e -> e = ErrNotGitHubURL url.
Proof.
  unfold parseGitHubURL.
  destruct (_ ≫= owner_and_repo) as [[? ?]|]; [discriminate|].
  destruct (_ ≫= owner_and_repo) as [[? ?]|]; [discriminate|].
  now intros [= <-].
Qed.

Lemma validateItems_not_timeout batch seenHosts validatedItems
  (st : St World) e st' :
  validateItems config batch seenHosts validatedItems st = (inl e, st') ->
  e <> ErrTimeout.
Proof.
  revert seenHosts validatedItems st.
  induction batch as [|item rest IH]; intros seenHosts validatedItems st H.
  - discriminate.
  - cbn [validateItems] in H.
    unfold checkGitRemote, getRemoteURL, run, log, emit, bind, ret in H.
    destruct (os_exec _ (world st)) as [[[] out] w]; cbn [world trace] in H;
      [|injection H as <- _; discriminate].
    destruct (negb _); [|eapply IH; exact H]. cbn [world trace] in H.
    destruct (os_exec _ w) as [[[] out2] w2]; cbn [world trace] in H;
      [|injection H as <- _; discriminate].
    destruct (parseGitHubURL _) as [err|[ghUser ghRepo]] eqn:Hp.
    { apply parseGitHubURL_error in Hp. injection H as <- _. now subst. }
    destruct (negb _); [injection H as <- _; discriminate|].
    destruct (negb _); [injection H as <- _; discriminate|].
    eapply IH; exact H.
Qed.

Lemma executeBatchedGitCommands_not_timeout batch (st : St World) :
  is_timeout (executeBatchedGitCommands config batch st).1 = false.
Proof.
  unfold executeBatchedGitCommands, bind.
  destruct (checkoutOrCreateBranch _ st) as [[err|] st1]; [reflexivity|].
  unfold run, ret, log, emit.
  destruct (os_exec _ (world st1)) as [[[] ?] w2]; [|reflexivity].
  cbn [negb world trace].
  destruct (os_exec _ w2) as [[[] ?] w3]; [reflexivity|].
  cbn [negb world trace].
  destruct (os_exec _ w3) as [[[] ?] w4]; [|reflexivity].
  cbn [negb world trace].
  destruct (os_exec _ w4) as [[[] ?] w5]; reflexivity.
Qed.

(** The publisher never answers with the caller's timeout. *)
Lemma performBatchedGitOperations_not_timeout batch (st : St World) :
  is_timeout (performBatchedGitOperations config batch st).1 = false.
Proof.
  unfold performBatchedGitOperations.
  destruct (length batch =? 0)%nat; [reflexivity|].
  unfold bind at 1, log, emit. unfold bind at 1.
  destruct (validateItems _ _ _ _ _) as [[err|items] st1] eqn:Hv.
  - apply validateItems_not_timeout in Hv. cbn. now destruct err.
  - unfold bind at 1.
    pose proof (executeBatchedGitCommands_not_timeout items st1) as Hx.
    destruct (executeBatchedGitCommands config items st1) as [[err|] st2];
      [exact Hx|reflexivity].
Qed.

Lemma signal_lookup_inv err (items : list BatchItem) (chans : gmap nat error)
  ch e :
  fold_left (fun c item => trySend c (ResponseCh item) err) items chans !! ch
    = Some e ->
  chans !! ch = Some e \/ e = err.
Proof.
  revert chans. induction items as [|head items IH]; intros chans H; [auto|].
  cbn [fold_left] in H. apply IH in H as [H|H]; [|auto].
  unfold trySend in H. destruct (chans !! ResponseCh head); [auto|].
  destruct (decide (ResponseCh head = ch)) as [Heq|Hne].
  - subst ch. rewrite lookup_insert_eq in H. injection H as <-. auto.
  - rewrite lookup_insert_ne in H by assumption. auto.
Qed.

Lemma processBatch_keeps now l (st : St World) :
  (forall x,
     In x (batch (processBatch config now l st).1
           ++ concat (map fst (flushLog (processBatch config now l st).1))) ->
     In x (batch l ++ concat (map fst (flushLog l)))) /\
  (forall ch e,
     chans (processBatch config now l st).1 !! ch = Some e ->
     chans l !! ch = Some e \/ is_timeout e = false).
Proof.
  destruct (batch l) as [|b bs] eqn:E.
  - rewrite processBatch_empty by assumption. cbn [fst]. rewrite E. auto.
  - rewrite processBatch_flush by congruence.
    cbn [fst flushed batch flushLog chans]. rewrite E. split.
    + intros x. rewrite map_app, concat_app. cbn [map concat fst app].
      rewrite app_nil_r, !in_app_iff. cbn [In]. rewrite in_app_iff. tauto.
    + intros ch e [H| ->]%signal_lookup_inv; [auto|].
      right. apply performBatchedGitOperations_not_timeout.
Qed.

Lemma loopIter_keeps now ev l (st : St World) :
  exited l = false -> ev <> ChannelClosed ->
  (forall x,
     In x (batch (loopIter config now ev l st).1
           ++ concat (map fst (flushLog (loopIter config now ev l st).1))) ->
     ev = Received x \/ In x (batch l ++ concat (map fst (flushLog l)))) /\
  (forall ch e,
     chans (loopIter config now ev l st).1 !! ch = Some e ->
     chans l !! ch = Some e \/ is_timeout e = false).
Proof.
  intros He Hev. unfold loopIter. rewrite He.
  destruct ev as [item| |]; [|congruence|].
  - destruct (_ <=? _)%Z.
    + match goal with
      | |- context [processBatch config now ?l1 st] =>
          destruct (processBatch_keeps now l1 st) as [H1 H2]
      end.
      split; [|exact H2]. intros x Hx. apply H1 in Hx. cbn [batch flushLog] in Hx.
      rewrite !in_app_iff in *. cbn [In] in Hx.
      destruct Hx as [[Hx|[->|[]]]|Hx]; auto.
    + cbn [ret fst batch flushLog chans]. split; [|auto].
      intros x. rewrite !in_app_iff. cbn [In].
      intros [[Hx|[->|[]]]|Hx]; auto.
  - match goal with
    | |- context [processBatch config now ?l1 st] =>
        destruct (processBatch_keeps now l1 st) as [H1 H2]
    end.
    split; [|exact H2]. intros x Hx. right. exact (H1 x Hx).
Qed.

Lemma initial_consistent (w : World) : consistent (initial config w).
Proof.
  repeat split.
  - intros ch item since H. cbn in H. now rewrite lookup_empty in H.
  - intros item [].
  - intros ch e H. cbn in H. now rewrite lookup_empty in H.
Qed.

Lemma consistent_setCaller (s : Sys World) ch c :
  consistent s ->
  (forall item, In item (items_taken s) -> ResponseCh item <> ch) ->
  (forall item since, c = AtSelect item since -> ResponseCh item = ch) ->
  consistent (setCaller ch c s).
Proof.
  intros (HA & HB & HC) Hfree Hc. repeat split.
  - intros ch' item since. cbn [setCaller callers].
    destruct (decide (ch = ch')) as [->|Hne].
    + rewrite lookup_insert_eq. intros [= ->]. eauto.
    + rewrite lookup_insert_ne by assumption. apply HA.
  - intros item Hin. cbn [setCaller callers].
    rewrite lookup_insert_ne by (intros Heq; now apply (Hfree item Hin)).
    now apply HB.
  - exact HC.
Qed.

(** Every move keeps the state consistent. *)
Lemma step_consistent a (s s' : Sys World) :
  consistent s -> step config a s = Some s' -> consistent s'.
Proof.
  intros Hs Hstep. pose proof Hs as (HA & HB & HC).
  unfold step in Hstep.
  destruct (exited (loop s)) eqn:Hex; [discriminate|].
  destruct a as [ch tf pd|ch|ch|ch| | |]; cbv beta iota in Hstep.
  - destruct (callers s !! ch) eqn:Hc; [discriminate|]. injection Hstep as <-.
    apply consistent_setCaller; [exact Hs| |].
    + intros item Hin Heq. apply HB in Hin. rewrite Heq, Hc in Hin.
      destruct Hin as [?|(? & ? & _)]; discriminate.
    + now intros item since [= <- _].
  - destruct (callers s !! ch) as [[item since| |]|] eqn:Hc; try discriminate.
    destruct (_ <? _); [|discriminate]. injection Hstep as <-.
    pose proof (HA _ _ _ Hc) as Hch. repeat split.
    + intros ch' item' since'. cbn [setCaller callers].
      destruct (decide (ch = ch')) as [->|Hne].
      * rewrite lookup_insert_eq. discriminate.
      * rewrite lookup_insert_ne by assumption. apply HA.
    + intros x. unfold items_taken. cbn [setCaller callers batchCh loop].
      rewrite <- app_assoc, !in_app_iff. cbn [In].
      destruct (decide (ResponseCh x = ch)) as [->|Hne].
      * rewrite lookup_insert_eq. auto.
      * rewrite lookup_insert_ne by congruence.
        intros [Hx|[[->|[]]|Hx]]; [| congruence |];
          apply HB; unfold items_taken; rewrite !in_app_iff; auto.
    + exact HC.
  - destruct (callers s !! ch) as [[item since| |]|] eqn:Hc; try discriminate.
    destruct (_ <=? _); [|discriminate]. injection Hstep as <-.
    apply consistent_setCaller; [exact Hs| |discriminate].
    intros x Hin Heq. apply HB in Hin. rewrite Heq, Hc in Hin.
    destruct Hin as [?|(? & ? & _)]; discriminate.
  - destruct (callers s !! ch) as [[item since| |]|] eqn:Hc; try discriminate.
    destruct (chans (loop s) !! ch) as [err|] eqn:He; [|discriminate].
    injection Hstep as <-. repeat split.
    + intros ch' item' since'. cbn [setCaller callers].
      destruct (decide (ch = ch')) as [->|Hne].
      * rewrite lookup_insert_eq. discriminate.
      * rewrite lookup_insert_ne by assumption. apply HA.
    + intros x Hin. cbn [setCaller callers].
      destruct (decide (ResponseCh x = ch)) as [->|Hne].
      * rewrite lookup_insert_eq. right. exists err. split; [reflexivity|].
        now apply (HC ch).
      * rewrite lookup_insert_ne by congruence. now apply HB.
    + intros ch' e. cbn [setCaller loop chans].
      intros [_ H]%lookup_delete_Some. now apply (HC ch').
  - destruct (batchCh s) as [|item rest] eqn:Hq; [discriminate|].
    injection Hstep as <-.
    destruct (loopIter_keeps (now s) (Received item) (loop s) (outside s) Hex)
      as [H1 H2]; [discriminate|].
    repeat split.
    + exact HA.
    + intros x. unfold items_taken. cbn [withLoop batchCh loop callers fst].
      rewrite in_app_iff. intros [Hx|Hx].
      * apply HB. unfold items_taken. rewrite Hq, in_app_iff.
        left. now right.
      * apply H1 in Hx as [[= ->]|Hx]; apply HB; unfold items_taken;
          rewrite Hq, in_app_iff; [left; now left|now right].
    + intros ch e. cbn [withLoop loop fst]. intros [H|H]%H2; [|exact H].
      now apply (HC ch).
  - destruct (_ <=? _); [|discriminate]. injection Hstep as <-.
    destruct (loopIter_keeps (now s) Tick (loop s) (outside s) Hex)
      as [H1 H2]; [discriminate|].
    repeat split.
    + exact HA.
    + intros x. unfold items_taken. cbn [withLoop batchCh loop callers fst].
      rewrite in_app_iff. intros [Hx|Hx].
      * apply HB. unfold items_taken. rewrite in_app_iff. now left.
      * apply H1 in Hx as [[=]|Hx]. apply HB. unfold items_taken.
        rewrite in_app_iff. now right.
    + intros ch e. cbn [withLoop loop fst]. intros [H|H]%H2; [|exact H].
      now apply (HC ch).
  - injection Hstep as <-. exact Hs.
Qed.

Lemma steps_consistent acts : forall (s s' : Sys World),
  consistent s -> steps config acts s = Some s' -> consistent s'.
Proof.
  induction acts as [|a acts IH]; intros s s' Hs H; cbn [steps] in H.
  - now injection H as <-.
  - destruct (step config a s) as [s1|] eqn:Hstep; [|discriminate].
    eauto using step_consistent.
Qed.

(** In every run of the service, the item of a caller that got the timeout
    is in no queue, in no batch and in no flush, then or ever after: the
    timeout is only delivered when the item was not taken. *)
Lemma timed_out_item_never_queued (w : World) acts (s : Sys World) ch item :
  steps config acts (initial config w) = Some s ->
  callers s !! ch = Some (Returned (Some ErrTimeout)) ->
  In item (items_taken s) ->
  ResponseCh item <> ch.
Proof.
  intros Hrun Hc Hin Heq.
  destruct (steps_consistent _ _ _ (initial_consistent w) Hrun) as (_ & HB & _).
  apply HB in Hin. rewrite Heq, Hc in Hin.
  destruct Hin as [?|(e & [= <-] & ?)]; discriminate.
Qed.

(** The queue is first in, first out: the loop receives the items in the
    order in which their sends were taken, and what it does with them is
    [runLoop] on those receives. *)
Lemma queue_is_received_in_order items : forall rest (s : Sys World),
  batchCh s = items ++ rest ->
  exited (runLoop config (map (fun item => (now s, Received item)) items)
            (loop s) (outside s)).1 = false ->
  steps config (repeat LoopReceives (length items)) s
    = Some (withLoop s rest
              (runLoop config (map (fun item => (now s, Received item)) items)
                 (loop s) (outside s))).
Proof.
  induction items as [|item items IH]; intros rest s Hq Hex.
  - cbn in *. subst rest. now destruct s.
  - cbn [length repeat steps map].
    cbn [map] in Hex. rewrite runLoop_cons in Hex.
    destruct (exited (loop s)) eqn:He.
    { exfalso. revert Hex. unfold loopIter at 1 2. rewrite He. cbn [ret fst snd].
      clear -He. generalize (outside s).
      generalize (map (fun item0 => (now s, Received item0)) items).
      intros evs. induction evs as [|[t ev] evs IHevs]; intros st.
      - cbn. congruence.
      - rewrite runLoop_cons. unfold loopIter at 1 2. rewrite He.
        cbn [ret fst snd]. apply IHevs. }
    unfold step at 1. rewrite He, Hq. cbn [app].
    rewrite runLoop_cons.
    specialize (IH rest
                  (withLoop s (items ++ rest)
                     (loopIter config (now s) (Received item) (loop s)
                        (outside s)))).
    cbn [withLoop batchCh now loop outside] in IH.
    rewrite IH by (reflexivity || exact Hex). reflexivity.
Qed.

End System.

(** * Further properties of the code *)

(** ** Splitting at any byte *)

Section SplitAny.

Context {Uni : Unicode}.

Lemma slash_free_char_free e : slash_free e = char_free GoFilepath.slash e.
Proof. induction e as [|a e IH]; cbn; [reflexivity|now rewrite IH]. Qed.

Lemma Split_char_free c e : char_free c e = true -> Split e c = [e].
Proof.
  induction e as [|a e IH]; [reflexivity|].
  cbn [char_free Split]. intros [Ha He]%andb_true_iff.
  apply negb_true_iff in Ha. rewrite Ha, (IH He). reflexivity.
Qed.

Lemma Split_app_sep c e s :
  char_free c e = true ->
  Split (e +:+ String c s) c = e :: Split s c.
Proof.
  induction e as [|a e IH]; intros H.
  - simpl String.append. apply Split_String_sep.
  - cbn [char_free] in H. apply andb_true_iff in H as [Ha He].
    apply negb_true_iff in Ha. simpl String.append. cbn [Split].
    rewrite Ha, (IH He). reflexivity.
Qed.

Lemma Split_Join_sep c elems :
  elems <> [] -> Forall (fun e => char_free c e = true) elems ->
  Split (GoStrings.Join elems (String c "")) c = elems.
Proof.
  unfold GoStrings.Join. induction elems as [|e [|e' rest] IH]; intros Hne Hall.
  - congruence.
  - cbn [String.concat]. apply Split_char_free. now inversion Hall.
  - rewrite concat_cons_cons. inversion Hall as [|? ? He Hall']; subst.
    change (String c "" +:+ String.concat (String c "") (e' :: rest))
      with (String c (String.concat (String c "") (e' :: rest))).
    rewrite Split_app_sep by assumption. now rewrite IH.
Qed.

(** The pieces of a split do not contain the separator. *)
Lemma Split_pieces_free c s : Forall (fun e => char_free c e = true) (Split s c).
Proof.
  induction s as [|a s IH]; [repeat constructor|]. cbn [Split].
  destruct (Ascii.eqb a c) eqn:Ha.
  - constructor; [reflexivity|exact IH].
  - destruct (Split s c) as [|w ws]; [repeat constructor; cbn; now rewrite Ha|].
    inversion IH; subst. constructor; [|assumption].
    cbn [char_free]. now rewrite Ha.
Qed.

(** A text with the separator in it splits into at least two pieces. *)
Lemma Split_length_two c s :
  char_free c s = false -> 2 <= length (Split s c).
Proof.
  induction s as [|a s IH]; [discriminate|]. cbn [char_free Split].
  destruct (Ascii.eqb a c) eqn:Ha; cbn [negb andb].
  - intros _. pose proof (Split_nonempty s c).
    destruct (Split s c); [congruence|cbn; lia].
  - intros H. specialize (IH H).
    destruct (Split s c) as [|w ws]; cbn in *; lia.
Qed.

End SplitAny.

(** ** More on the identifier resolver *)

Section ResolverMore.

Context {Uni : Unicode}.

Lemma expectedID_Join parsed :
  expectedID parsed
  = "did:web:" +:+
    GoStrings.Join (Host parsed :: Project parsed :: PathSegs parsed) ":".
Proof.
  unfold expectedID, GoStrings.Join. destruct (PathSegs parsed) as [|s segs].
  - reflexivity.
  - cbn [length Nat.ltb Nat.leb]. rewrite !concat_cons_cons.
    now rewrite !str_app_assoc.
Qed.

(** X1. Building the identity string from a host, a project and path
    segments that contain no colon, and parsing it, gives the same host,
    project and segments back, with the string itself as [Original] and the
    lower-cased host as [HostLower]. *)
Theorem parseDID_of_expectedID parsed :
  Forall (fun e => char_free ":" e = true)
    (Host parsed :: Project parsed :: PathSegs parsed) ->
  parseDID (expectedID parsed)
  = inr {| Original := expectedID parsed; Host := Host parsed;
           Project := Project parsed; PathSegs := PathSegs parsed;
           HostLower := ToLower (Host parsed) |}.
Proof.
  intros Hfree. rewrite expectedID_Join. unfold parseDID, HasPrefix.
  rewrite prefix_app. cbn [negb]. rewrite Split_did_web.
  change ":" with (String ":"%char "") at 1.
  rewrite Split_Join_sep by (assumption || discriminate).
  reflexivity.
Qed.


(** X2. [parseDID] accepts exactly the identifiers that start with
    [did:web:] and have a colon after that prefix. Without the prefix the
    error is [ErrNotDidWeb]; with the prefix and no further colon it is
    [ErrMissingProject]. Nothing is asked of the host or the project: both
    may be empty. *)
Theorem parseDID_accepts_iff did :
  match parseDID did with
  | inr parsed =>
      exists rest, did = "did:web:" +:+ rest /\ char_free ":" rest = false
  | inl err =>
      (HasPrefix did "did:web:" = false /\ err = ErrNotDidWeb did) \/
      (exists rest, did = "did:web:" +:+ rest /\ char_free ":" rest = true /\
                    err = ErrMissingProject did)
  end.
Proof.
  unfold parseDID, HasPrefix.
  destruct (String.prefix "did:web:" did) eqn:Hp; cbn [negb]; [|auto].
  destruct (prefix_inv _ _ Hp) as [rest ->]. rewrite Split_did_web.
  destruct (char_free ":" rest) eqn:Hf.
  - rewrite (Split_char_free _ _ Hf). cbn. right. eauto.
  - pose proof (Split_length_two _ _ Hf) as Hlen.
    destruct (Split rest ":") as [|h [|p segs]]; cbn in Hlen; try lia.
    cbn. eauto.
Qed.

End ResolverMore.

Lemma parseDID_of_expectedID_witness :
  parseDID (expectedID (Sim.did_of "alice.github.io" "repo" ["a"; "b"]))
  = inr {| Original := expectedID (Sim.did_of "alice.github.io" "repo" ["a"; "b"]);
           Host := "alice.github.io"; Project := "repo";
           PathSegs := ["a"; "b"];
           HostLower := ToLower "alice.github.io" |}.
Proof.
  apply (parseDID_of_expectedID (Sim.did_of "alice.github.io" "repo" ["a"; "b"])).
  repeat constructor.
Defined.


(** ** The remote URL *)

Section RemoteURL.

Context {Uni : Unicode}.

Lemma substring_0_app a b :
  String.substring 0 (String.length a) (a +:+ b) = a.
Proof.
  induction a as [|x a IH]; simpl; [now destruct b|now rewrite IH].
Qed.

Lemma substring_0_all b : String.substring 0 (String.length b) b = b.
Proof. induction b as [|x b IH]; simpl; [reflexivity|now rewrite IH]. Qed.

Lemma substring_skip a b m :
  String.substring (String.length a) m (a +:+ b) = String.substring 0 m b.
Proof. induction a as [|x a IH]; simpl; [reflexivity|exact IH]. Qed.

Lemma strip_prefix_app pre rest : strip_prefix pre (pre +:+ rest) = Some rest.
Proof.
  unfold strip_prefix, HasPrefix. rewrite prefix_app, substring_skip.
  rewrite str_length_app.
  replace (String.length pre + String.length rest - String.length pre)
    with (String.length rest) by lia.
  now rewrite substring_0_all.
Qed.

Lemma strip_prefix_inv pre s rest :
  strip_prefix pre s = Some rest -> s = pre +:+ rest.
Proof.
  intros H. pose proof H as H'. unfold strip_prefix, HasPrefix in H'.
  destruct (String.prefix pre s) eqn:Hp; [|discriminate].
  destruct (prefix_inv _ _ Hp) as [r ->].
  rewrite strip_prefix_app in H. now injection H as ->.
Qed.

Lemma TrimSuffix_app r suf : TrimSuffix (r +:+ suf) suf = r.
Proof.
  unfold TrimSuffix. rewrite HasSuffix_app, str_length_app.
  replace (String.length r + String.length suf - String.length suf)
    with (String.length r) by lia.
  apply substring_0_app.
Qed.

Lemma char_free_app c a b :
  char_free c (a +:+ b) = char_free c a && char_free c b.
Proof.
  induction a as [|x a IH]; simpl; [reflexivity|].
  now rewrite IH, andb_assoc.
Qed.

Lemma owner_and_repo_app user rest :
  user <> "" -> rest <> "" ->
  char_free "/" user = true -> char_free "/" rest = true ->
  owner_and_repo (user +:+ "/" +:+ rest) = Some (user, rest).
Proof.
  intros Hu Hr Hfu Hfr. unfold owner_and_repo.
  change ("/" +:+ rest) with (String "/"%char rest).
  rewrite Split_app_sep, (Split_char_free _ _ Hfr) by assumption.
  apply String.eqb_neq in Hu, Hr. now rewrite Hu, Hr.
Qed.

Lemma owner_and_repo_inv text user rest :
  owner_and_repo text = Some (user, rest) ->
  text = user +:+ "/" +:+ rest /\ user <> "" /\ rest <> "" /\
  char_free "/" user = true /\ char_free "/" rest = true.
Proof.
  unfold owner_and_repo. intros H.
  pose proof (Join_Split text "/") as Hj.
  pose proof (Split_pieces_free "/" text) as Hf.
  destruct (Split text "/") as [|u [|r [|? ?]]]; try discriminate.
  destruct (String.eqb_spec u ""); [discriminate|].
  destruct (String.eqb_spec r ""); [discriminate|].
  injection H as <- <-. inversion Hf as [|? ? Hu Hf']; subst.
  inversion Hf' as [|? ? Hr _]; subst. auto.
Qed.

(** X3. The SSH form and the HTTPS form of a repository URL, written with
    the [.git] ending, both name the pair (user, repository): the user is
    the text before the slash and the repository the text after it without
    the ending. *)
Theorem parseGitHubURL_forms user repo :
  user <> "" ->
  char_free "/" user = true -> char_free "/" repo = true ->
  parseGitHubURL (ssh_prefix +:+ user +:+ "/" +:+ repo +:+ ".git")
    = inr (user, repo) /\
  parseGitHubURL (https_prefix +:+ user +:+ "/" +:+ repo +:+ ".git")
    = inr (user, repo).
Proof.
  intros Hu Hfu Hfr.
  assert (Hr : repo +:+ ".git" <> "") by now destruct repo.
  assert (Hfg : char_free "/" (repo +:+ ".git") = true)
    by now rewrite char_free_app, Hfr.
  pose proof (owner_and_repo_app user (repo +:+ ".git") Hu Hr Hfu Hfg) as Ho.
  split; unfold parseGitHubURL.
  - fold ssh_prefix. rewrite strip_prefix_app. cbn [mbind option_bind].
    rewrite Ho. now rewrite TrimSuffix_app.
  - replace (strip_prefix "git@github.com:"
               (https_prefix +:+ user +:+ "/" +:+ repo +:+ ".git"))
      with (@None string) by reflexivity.
    cbn [mbind option_bind]. fold https_prefix. rewrite strip_prefix_app.
    cbn [mbind option_bind]. rewrite Ho. now rewrite TrimSuffix_app.
Qed.

Lemma parseGitHubURL_forms_witness :
  parseGitHubURL (ssh_prefix +:+ "alice" +:+ "/" +:+ "repo" +:+ ".git")
    = inr ("alice", "repo") /\
  parseGitHubURL (https_prefix +:+ "alice" +:+ "/" +:+ "repo" +:+ ".git")
    = inr ("alice", "repo").
Proof.
  apply (parseGitHubURL_forms "alice" "repo");
    [discriminate|reflexivity|reflexivity].
Defined.

(** X4. Whatever [parseGitHubURL] accepts is one of the two prefixes
    followed by a non-empty user, one slash and a non-empty rest, neither
    containing a slash; the repository returned is that rest without a
    [.git] ending. Every other text is refused with [ErrNotGitHubURL]. *)
Theorem parseGitHubURL_sound url :
  match parseGitHubURL url with
  | inr (user, repo) =>
      exists pre rest,
        (pre = ssh_prefix \/ pre = https_prefix) /\
        url = pre +:+ user +:+ "/" +:+ rest /\
        repo = TrimSuffix rest ".git" /\
        user <> "" /\ rest <> "" /\
        char_free "/" user = true /\ char_free "/" rest = true
  | inl err => err = ErrNotGitHubURL url
  end.
Proof.
  unfold parseGitHubURL. fold ssh_prefix https_prefix.
  destruct (strip_prefix ssh_prefix url) as [text|] eqn:Hs;
    cbn [mbind option_bind].
  - destruct (owner_and_repo text) as [[user rest]|] eqn:Ho.
    + apply strip_prefix_inv in Hs. apply owner_and_repo_inv in Ho.
      destruct Ho as (-> & ? & ? & ? & ?). exists ssh_prefix, rest.
      repeat split; auto.
    + apply strip_prefix_inv in Hs. subst url.
      replace (strip_prefix https_prefix (ssh_prefix +:+ text))
        with (@None string) by reflexivity.
      reflexivity.
  - destruct (strip_prefix https_prefix url) as [text|] eqn:Hh;
      cbn [mbind option_bind]; [|reflexivity].
    destruct (owner_and_repo text) as [[user rest]|] eqn:Ho; [|reflexivity].
    apply strip_prefix_inv in Hh. apply owner_and_repo_inv in Ho.
    destruct Ho as (-> & ? & ? & ? & ?). exists https_prefix, rest.
    repeat split; auto.
Qed.

End RemoteURL.

(** ** The commands of a flush *)

Section FlushCommands.

Context {Uni : Unicode}.

Context {World : Type} `{!OS World}.
Variable config : Config.

Lemma run_setup sub args (st : St World) :
  (String.eqb sub "remote" || String.eqb sub "rev-parse"
   || String.eqb sub "checkout") = true ->
  continues setup_event st (run ("git" :: sub :: args) st).2.
Proof.
  intros Hsub. unfold run.
  destruct (os_exec ("git" :: sub :: args) (world st)) as [[ok out] w].
  cbn [snd]. exists [EvExec ("git" :: sub :: args) ok out]. split; [reflexivity|].
  cbn [forallb setup_event]. now rewrite Hsub.
Qed.

Lemma log_setup line (st : St World) :
  continues setup_event st (log line st).2.
Proof. exists [EvLog line]. split; reflexivity. Qed.

(** Proves [continues setup_event st st'] when the trace of [st'] is that
    of [st] followed by explicit set-up events and then by the events of a
    continuation [C]. *)
Ltac setup_continues C :=
  let evs := fresh "evs" in
  let Ht := fresh "Ht" in
  let Hall := fresh "Hall" in
  destruct C as (evs & Ht & Hall); cbn [trace] in Ht;
  eexists; split;
  [ rewrite Ht, <- ?app_assoc; reflexivity
  | cbn [forallb app setup_event String.eqb Ascii.eqb Bool.eqb andb orb];
    exact Hall ].

(** The same when [st'] is [st] with explicit set-up events appended. *)
Ltac setup_done :=
  eexists; split;
  [ cbn [trace]; rewrite <- ?app_assoc; reflexivity | reflexivity ].

(** The validation loop runs set-up commands only; when it passes it hands
    on the whole batch, in order, and when it stops it does so with a
    validation error. *)
Lemma validateItems_outcome batch seenHosts validatedItems (st : St World)
  r st' :
  validateItems config batch seenHosts validatedItems st = (r, st') ->
  continues setup_event st st' /\
  match r with
  | inr items => items = validatedItems ++ batch
  | inl err => validation_error err = true
  end.
Proof.
  revert seenHosts validatedItems st.
  induction batch as [|item rest IH]; intros seenHosts validatedItems st H.
  - injection H as <- <-. rewrite app_nil_r.
    split; [apply continues_refl|reflexivity].
  - cbn [validateItems] in H.
    unfold checkGitRemote, getRemoteURL, run, log, emit, bind, ret in H.
    destruct (os_exec _ (world st)) as [[[] out] w]; cbn [world trace] in H.
    2:{ injection H as <- <-. split; [|reflexivity].
        setup_done. }
    destruct (negb _); cbn [world trace] in H.
    + destruct (os_exec _ w) as [[[] out2] w2]; cbn [world trace] in H.
      2:{ injection H as <- <-. split; [|reflexivity].
          setup_done. }
      destruct (parseGitHubURL _) as [err|[ghUser ghRepo]] eqn:Hp.
      { injection H as <- <-. split.
        - setup_done.
        - now rewrite (parseGitHubURL_error _ _ Hp). }
      destruct (negb _).
      { injection H as <- <-. split; [|reflexivity].
        setup_done. }
      destruct (negb _).
      { injection H as <- <-. split; [|reflexivity].
        setup_done. }
      cbn [world trace] in H. apply IH in H as [C R]. split.
      * setup_continues C.
      * destruct r; [exact R|]. now rewrite R, <- app_assoc.
    + apply IH in H as [C R]. split.
      * setup_continues C.
      * destruct r; [exact R|]. now rewrite R, <- app_assoc.
Qed.

Lemma checkoutOrCreateBranch_setup branch (st : St World) :
  continues setup_event st (checkoutOrCreateBranch branch st).2.
Proof.
  unfold checkoutOrCreateBranch, bind.
  pose proof (run_setup "rev-parse" ["--abbrev-ref"; "HEAD"] st eq_refl) as H1.
  destruct (run _ st) as [[ok out] st1]. cbn [snd] in H1.
  destruct ok; cbn [negb]; [|exact H1].
  destruct (String.eqb _ branch); [exact H1|].
  pose proof (run_setup "rev-parse" ["--verify"; branch] st1 eq_refl) as H2.
  destruct (run _ st1) as [[ok2 out2] st2]. cbn [snd] in H2.
  destruct ok2; cbn [negb].
  - pose proof (run_setup "checkout" [branch] st2 eq_refl) as H3.
    destruct (run _ st2) as [[ok3 out3] st3]. cbn [snd] in H3.
    destruct ok3; eauto using continues_trans.
  - pose proof (run_setup "checkout" ["-b"; branch] st2 eq_refl) as H3.
    destruct (run _ st2) as [[ok3 out3] st3]. cbn [snd] in H3.
    destruct ok3; eauto using continues_trans.
Qed.

(** The events of a flush: set-up commands, then nothing or one of the
    command sequences of [flush_commands]. *)
Lemma performBatchedGitOperations_events batch (st : St World) e st' :
  performBatchedGitOperations config batch st = (e, st') ->
  batch <> [] ->
  exists before after,
    trace st' = trace st ++ before ++ after /\
    forallb setup_event before = true /\
    ((after = [] /\ exists err, e = Some err /\ validation_error err = true) \/
     flush_commands config batch after e).
Proof.
  intros H Hne. unfold performBatchedGitOperations in H.
  destruct batch as [|b0 bs]; [congruence|]. cbn [length Nat.eqb] in H.
  set (batch := b0 :: bs) in *.
  unfold bind at 1, log, emit in H. unfold bind at 1 in H.
  destruct (validateItems config batch ∅ [] _) as [r st1] eqn:Hv.
  apply validateItems_outcome in Hv as [C1 R]. cbn [app] in R.
  destruct r as [err|items].
  { injection H as <- <-. destruct C1 as (evs1 & Ht1 & Hall1).
    cbn [trace] in Ht1.
    exists ([EvLog (LogAcquiredLock (length batch))] ++ evs1), [].
    rewrite app_nil_r. split; [now rewrite Ht1, <- app_assoc|].
    split; [exact Hall1|]. left. eauto. }
  subst items. unfold bind at 1 in H.
  unfold executeBatchedGitCommands, bind in H.
  pose proof (checkoutOrCreateBranch_setup (Branch config) st1) as C2.
  destruct (checkoutOrCreateBranch (Branch config) st1) as [[err|] st2];
    cbn [snd] in C2.
  all: destruct C1 as (evs1 & Ht1 & Hall1); cbn [trace] in Ht1.
  all: destruct C2 as (evs2 & Ht2 & Hall2).
  all: assert (Hall : forallb setup_event
                        ([EvLog (LogAcquiredLock (length batch))]
                           ++ evs1 ++ evs2) = true)
         by (rewrite !forallb_app, Hall1, Hall2; reflexivity).
  all: exists ([EvLog (LogAcquiredLock (length batch))] ++ evs1 ++ evs2).
  { injection H as <- <-. exists []. rewrite app_nil_r.
    split; [now rewrite Ht2, Ht1, <- !app_assoc|].
    split; [exact Hall|]. right. constructor. }
  unfold run, log, emit, ret in H.
  destruct (os_exec ("git" :: "add" :: _) (world st2)) as [[[] o1] w3];
    cbn [negb world trace] in H.
  2:{ injection H as <- <-. eexists. split.
      - cbn [trace]. rewrite Ht2, Ht1, <- !app_assoc. reflexivity.
      - split; [exact Hall|]. right. constructor. }
  destruct (os_exec ["git"; "diff"; "--cached"; "--quiet"] w3)
    as [[[] o2] w4]; cbn [negb world trace] in H.
  { injection H as <- <-. eexists. split.
    - cbn [trace]. rewrite Ht2, Ht1, <- !app_assoc. reflexivity.
    - split; [exact Hall|]. right. apply flush_nothing_staged. }
  destruct (os_exec ("git" :: "commit" :: _) w4) as [[[] o3] w5];
    cbn [negb world trace] in H.
  2:{ injection H as <- <-. eexists. split.
      - cbn [trace]. rewrite Ht2, Ht1, <- !app_assoc. reflexivity.
      - split; [exact Hall|]. right. apply flush_commit_failed. }
  destruct (os_exec ("git" :: "push" :: _) w5) as [[[] o4] w6];
    cbn [negb world trace] in H.
  - injection H as <- <-. eexists. split.
    + cbn [trace]. rewrite Ht2, Ht1, <- !app_assoc. reflexivity.
    + split; [exact Hall|]. right. apply flush_pushed.
  - injection H as <- <-. eexists. split.
    + cbn [trace]. rewrite Ht2, Ht1, <- !app_assoc. reflexivity.
    + split; [exact Hall|]. right. apply flush_push_failed.
Qed.

(** X5. For a non-empty batch, the events of a flush are set-up commands
    (look-ups of the remote, branch queries and check-outs, log lines)
    followed by nothing, when the validation stopped the flush, or by one of
    the six command sequences of [flush_commands] for that batch: the files
    of the batch are staged by one [git add], in the order of the batch;
    [git commit] is run at most once, only after the probe found staged
    changes, with a message that counts and lists those files; [git push] is
    run at most once, only right after a successful commit. *)
Theorem performBatchedGitOperations_commands batch (st : St World) e st' :
  performBatchedGitOperations config batch st = (e, st') ->
  batch <> [] ->
  exists before after,
    trace st' = trace st ++ before ++ after /\
    forallb setup_event before = true /\
    ((after = [] /\ exists err, e = Some err /\ validation_error err = true) \/
     flush_commands config batch after e).
Proof. apply performBatchedGitOperations_events. Qed.

Lemma setup_event_inert ev :
  setup_event ev = true ->
  nothing_staged ev = false /\ git_succeeded "push" ev = false /\
  is_git "add" ev = false /\ is_git "commit" ev = false.
Proof.
  destruct ev as [argv ok out| | | | | |]; try discriminate;
    [|intros _; repeat split; reflexivity].
  destruct argv as [|prog [|cmd args]]; try discriminate.
  cbn [setup_event]. intros [Hg Hc]%andb_true_iff.
  assert (Hcmd : cmd = "remote" \/ cmd = "rev-parse" \/ cmd = "checkout").
  { apply orb_true_iff in Hc as [Hc|Hc];
      [apply orb_true_iff in Hc as [Hc|Hc]|];
      apply String.eqb_eq in Hc; auto. }
  unfold nothing_staged, git_succeeded, is_git. rewrite Hg.
  destruct Hcmd as [-> | [-> | ->]];
    rewrite bool_decide_eq_false_2 by congruence;
    repeat split; reflexivity.
Qed.

Lemma setup_events_inert evs p :
  forallb setup_event evs = true ->
  (forall ev, setup_event ev = true -> p ev = false) ->
  existsb p evs = false.
Proof.
  intros Hall Hp. induction evs as [|ev evs IH]; [reflexivity|].
  cbn [forallb existsb] in *. apply andb_true_iff in Hall as [He Hall].
  now rewrite (Hp ev He), IH.
Qed.

(** X6. A flush of a non-empty batch reports [nil] exactly when the
    staged-changes probe found nothing staged or the push succeeded; and
    when it reports [nil], one successful [git add] has staged the target
    files of the batch, all of them and in the order of the batch. *)
Theorem performBatchedGitOperations_nil_iff batch (st : St World) e st' evs :
  performBatchedGitOperations config batch st = (e, st') ->
  batch <> [] ->
  trace st' = trace st ++ evs ->
  (e = None <->
   existsb nothing_staged evs || existsb (git_succeeded "push") evs = true) /\
  (e = None ->
   exists out, In (EvExec ("git" :: "add" :: map TargetFile batch) true out) evs).
Proof.
  intros H Hne Ht.
  destruct (performBatchedGitOperations_events _ _ _ _ H Hne)
    as (before & after & Ht' & Hall & Hafter).
  rewrite Ht' in Ht. apply app_inv_head in Ht. subst evs.
  rewrite !existsb_app.
  rewrite (setup_events_inert before nothing_staged Hall)
    by (intros ev Hev; now apply setup_event_inert in Hev).
  rewrite (setup_events_inert before (git_succeeded "push") Hall)
    by (intros ev Hev; now apply setup_event_inert in Hev).
  cbn [orb].
  destruct Hafter as [[-> (err & -> & _)]|Hcmds].
  - split; [split; discriminate|discriminate].
  - destruct Hcmds; (split; [split; first [discriminate|reflexivity]|]);
      try discriminate; intros _; eexists; apply in_or_app; right; left;
      reflexivity.
Qed.

End FlushCommands.

Lemma performBatchedGitOperations_commands_witness :
  exists before after,
    trace (performBatchedGitOperations (Sim.config_with 5 10)
             [Sim.item_a; Sim.item_b] (Sim.start Sim.world1)).2
      = trace (Sim.start Sim.world1) ++ before ++ after /\
    forallb setup_event before = true /\
    ((after = [] /\
      exists err,
        (performBatchedGitOperations (Sim.config_with 5 10)
           [Sim.item_a; Sim.item_b] (Sim.start Sim.world1)).1 = Some err /\
        validation_error err = true) \/
     flush_commands (Sim.config_with 5 10) [Sim.item_a; Sim.item_b] after
       (performBatchedGitOperations (Sim.config_with 5 10)
          [Sim.item_a; Sim.item_b] (Sim.start Sim.world1)).1).
Proof.
  apply (performBatchedGitOperations_commands (Sim.config_with 5 10)
           [Sim.item_a; Sim.item_b] (Sim.start Sim.world1)
           (performBatchedGitOperations (Sim.config_with 5 10)
              [Sim.item_a; Sim.item_b] (Sim.start Sim.world1)).1
           (performBatchedGitOperations (Sim.config_with 5 10)
              [Sim.item_a; Sim.item_b] (Sim.start Sim.world1)).2).
  - apply surjective_pairing.
  - discriminate.
Defined.

Lemma performBatchedGitOperations_nil_iff_witness :
  ((performBatchedGitOperations (Sim.config_with 5 10)
      [Sim.item_a; Sim.item_b] (Sim.start Sim.world1)).1 = None <->
   existsb nothing_staged
     (trace (performBatchedGitOperations (Sim.config_with 5 10)
               [Sim.item_a; Sim.item_b] (Sim.start Sim.world1)).2)
   || existsb (git_succeeded "push")
        (trace (performBatchedGitOperations (Sim.config_with 5 10)
                  [Sim.item_a; Sim.item_b] (Sim.start Sim.world1)).2)
   = true) /\
  ((performBatchedGitOperations (Sim.config_with 5 10)
      [Sim.item_a; Sim.item_b] (Sim.start Sim.world1)).1 = None ->
   exists out,
     In (EvExec ("git" :: "add" :: map TargetFile [Sim.item_a; Sim.item_b])
           true out)
       (trace (performBatchedGitOperations (Sim.config_with 5 10)
                 [Sim.item_a; Sim.item_b] (Sim.start Sim.world1)).2)).
Proof.
  apply (performBatchedGitOperations_nil_iff (Sim.config_with 5 10)
           [Sim.item_a; Sim.item_b] (Sim.start Sim.world1)
           (performBatchedGitOperations (Sim.config_with 5 10)
              [Sim.item_a; Sim.item_b] (Sim.start Sim.world1)).1
           (performBatchedGitOperations (Sim.config_with 5 10)
              [Sim.item_a; Sim.item_b] (Sim.start Sim.world1)).2).
  - apply surjective_pairing.
  - discriminate.
  - reflexivity.
Defined.

(** ** What a flush that was not stopped says about its items *)

Section RepeatedHost.

Context {Uni : Unicode}.

Context {World : Type} `{!OS World}.
Variable config : Config.

(** The validation loop reads nothing of the items accepted so far. *)
Lemma validateItems_files post : forall seen acc1 acc2 (st : St World),
  map TargetFile acc1 = map TargetFile acc2 ->
  same_files (validateItems config post seen acc1 st)
             (validateItems config post seen acc2 st).
Proof.
  induction post as [|item post IH]; intros seen acc1 acc2 st Hacc.
  - split; [reflexivity|exact Hacc].
  - cbn [validateItems].
    unfold checkGitRemote, getRemoteURL, run, log, emit, bind, ret.
    destruct (os_exec _ (world st)) as [[[] out] w]; cbn [world trace];
      [|now split].
    destruct (negb _); cbn [world trace].
    + destruct (os_exec _ w) as [[[] out2] w2]; cbn [world trace];
        [|now split].
      destruct (parseGitHubURL _) as [err|[ghUser ghRepo]]; [now split|].
      destruct (negb _); [now split|].
      destruct (negb _); [now split|].
      apply IH. now rewrite !map_app, Hacc.
    + apply IH. now rewrite !map_app, Hacc.
Qed.

(** An item whose host is in [seenHosts], or is carried by an item before
    it, can be exchanged for any item with the same host and target file:
    the loop never looks at its project. *)
Lemma validateItems_skips h item item' post pre :
  forall seen acc1 acc2 (st : St World),
  HostLower (ItemDID item) = h -> HostLower (ItemDID item') = h ->
  TargetFile item' = TargetFile item ->
  map TargetFile acc1 = map TargetFile acc2 ->
  default false (seen !! h) = true \/
  (exists other, In other pre /\ HostLower (ItemDID other) = h) ->
  same_files (validateItems config (pre ++ item :: post) seen acc1 st)
             (validateItems config (pre ++ item' :: post) seen acc2 st).
Proof.
  induction pre as [|p pre IH]; intros seen acc1 acc2 st H1 H2 Hfile Hacc Hseen.
  - destruct Hseen as [Hseen|(other & [] & _)].
    cbn [app validateItems].
    unfold checkGitRemote, getRemoteURL, run, log, emit, bind, ret.
    destruct (os_exec _ (world st)) as [[[] out] w]; cbn [world trace];
      [|now split].
    rewrite H1, H2, Hseen. cbn [negb].
    apply validateItems_files. rewrite !map_app, Hacc. cbn [map].
    now rewrite Hfile.
  - cbn [app validateItems].
    unfold checkGitRemote, getRemoteURL, run, log, emit, bind, ret.
    destruct (os_exec _ (world st)) as [[[] out] w]; cbn [world trace];
      [|now split].
    destruct (default false (seen !! HostLower (ItemDID p))) eqn:Hp;
      cbn [negb world trace].
    + apply IH; try assumption; [now rewrite !map_app, Hacc|].
      destruct Hseen as [Hseen|(other & [->|Hin] & Hother)];
        [now left|left; now rewrite <- Hother|right; eauto].
    + destruct (os_exec _ w) as [[[] out2] w2]; cbn [world trace];
        [|now split].
      destruct (parseGitHubURL _) as [err|[ghUser ghRepo]]; [now split|].
      destruct (negb _); [now split|].
      destruct (negb _); [now split|].
      apply IH; try assumption; [now rewrite !map_app, Hacc|].
      destruct (decide (HostLower (ItemDID p) = h)) as [Heq|Hne].
      * left. now rewrite Heq, lookup_insert_eq.
      * destruct Hseen as [Hseen|(other & [->|Hin] & Hother)];
          [left; now rewrite lookup_insert_ne|congruence|right; eauto].
Qed.

(** The publisher's commands read the target files of the batch and their
    number, nothing else. *)
Lemma executeBatchedGitCommands_files b1 b2 (st : St World) :
  map TargetFile b1 = map TargetFile b2 ->
  executeBatchedGitCommands config b1 st
  = executeBatchedGitCommands config b2 st.
Proof.
  intros Hfiles.
  assert (Hlen : length b1 = length b2)
    by (rewrite <- (length_map TargetFile b1), Hfiles; apply length_map).
  unfold executeBatchedGitCommands. now rewrite Hfiles, Hlen.
Qed.

(** A flush does not depend on the project of an item whose host an earlier
    item of the batch carries. *)
Lemma performBatchedGitOperations_skips batch i j item other item'
  (st : St World) :
  batch !! i = Some item -> j < i -> batch !! j = Some other ->
  HostLower (ItemDID other) = HostLower (ItemDID item) ->
  HostLower (ItemDID item') = HostLower (ItemDID item) ->
  TargetFile item' = TargetFile item ->
  performBatchedGitOperations config (<[i := item']> batch) st
  = performBatchedGitOperations config batch st.
Proof.
  intros Hi Hj Hother Hhost Hhost' Hfile.
  assert (Hlt : i < length batch) by (eapply lookup_lt_Some; exact Hi).
  unfold performBatchedGitOperations. rewrite length_insert.
  destruct (length batch =? 0); [reflexivity|].
  unfold bind at 1 5. destruct (log _ st) as [[] st1].
  pose proof (validateItems_skips (HostLower (ItemDID item)) item' item
                (drop (S i) batch) (take i batch) ∅ [] [] st1
                Hhost' eq_refl (eq_sym Hfile) eq_refl) as Hsame.
  rewrite (take_drop_middle batch i item Hi) in Hsame.
  rewrite <- (insert_take_drop batch i item' Hlt) in Hsame.
  destruct Hsame as [Hst Hres].
  { right. exists other. split; [|exact Hhost].
    apply list_elem_of_In, (list_elem_of_lookup_2 _ j).
    rewrite lookup_take_lt by exact Hj. exact Hother. }
  unfold bind.
  destruct (validateItems config (<[i:=item']> batch) ∅ [] st1) as [r1 s1].
  destruct (validateItems config batch ∅ [] st1) as [r2 s2].
  cbn [fst snd] in Hst, Hres. subst s2.
  destruct r1 as [e1|v1], r2 as [e2|v2]; try contradiction;
    [now subst|].
  rewrite (executeBatchedGitCommands_files v1 v2 s1 Hres).
  destruct (executeBatchedGitCommands config v2 s1) as [[err|] s3];
    [reflexivity|].
  assert (Hlen : length v1 = length v2)
    by (rewrite <- (length_map TargetFile v1), Hres; apply length_map).
  now rewrite Hlen.
Qed.

End RepeatedHost.

Section ValidationPassed.

Context {Uni : Unicode}.

Context {World : Type} `{!OS World}.
Variable config : Config.
Variable stable : World -> Prop.
Variables out ghUser ghRepo : string.
Hypothesis Hremote : remote_answers config stable out.
Hypothesis Hparse : parseGitHubURL (TrimSpace out) = inr (ghUser, ghRepo).

(** X7. With the remote in place and its URL naming [(ghUser, ghRepo)], a
    flush that does not end in an ownership mismatch has compared, and
    found matching, every item whose host no earlier item of the batch
    carries; the first item of a batch is always among them. An item whose
    host an earlier item of the batch carries is not compared: the flush is
    the same, result, commands and world, whatever the project of that
    item. *)
Theorem performBatchedGitOperations_passed batch i item (st : St World) :
  stable (world st) ->
  batch !! i = Some item ->
  (from_option ownership_mismatch false
     (performBatchedGitOperations config batch st).1 = false ->
   (forall j other, j < i -> batch !! j = Some other ->
                    HostLower (ItemDID other) <> HostLower (ItemDID item)) ->
   item_matches ghUser ghRepo item = true) /\
  (forall j other item',
     j < i -> batch !! j = Some other ->
     HostLower (ItemDID other) = HostLower (ItemDID item) ->
     HostLower (ItemDID item') = HostLower (ItemDID item) ->
     TargetFile item' = TargetFile item ->
     performBatchedGitOperations config (<[i := item']> batch) st
     = performBatchedGitOperations config batch st).
Proof.
  intros Hs Hi. split.
  - intros Hout Hfirst.
    destruct (item_matches ghUser ghRepo item) eqn:Hm; [reflexivity|].
    exfalso.
    assert (Hfresh : default false
                       ((∅ : gmap string bool) !! HostLower (ItemDID item))
                     = false) by now rewrite lookup_empty.
    destruct (first_mismatch_found ghUser ghRepo batch ∅ i item Hi Hm Hfresh
                Hfirst) as [culprit Hc].
    unfold performBatchedGitOperations in Hout.
    destruct batch as [|b0 bs]; [discriminate|]. cbn [length Nat.eqb] in Hout.
    unfold bind at 1, log, emit in Hout. unfold bind at 1 in Hout.
    match type of Hout with
    | context [validateItems _ _ _ _ ?s] =>
        destruct (validateItems_spec config stable out ghUser ghRepo Hremote
                    Hparse (b0 :: bs) ∅ [] s Hs) as (st' & Hv & _)
    end.
    rewrite Hv, Hc in Hout. cbn in Hout.
    now rewrite mismatch_error_ownership in Hout.
  - intros j other item' Hj Hother Hhost Hhost' Hfile.
    eapply performBatchedGitOperations_skips; eassumption.
Qed.

End ValidationPassed.

Lemma performBatchedGitOperations_passed_witness :
  (from_option ownership_mismatch false
     (performBatchedGitOperations (Sim.config_with 5 10)
        [Sim.item_a; Sim.item_other] (Sim.start Sim.world1)).1 = false ->
   (forall j other, j < 1 -> [Sim.item_a; Sim.item_other] !! j = Some other ->
                    HostLower (ItemDID other)
                    <> HostLower (ItemDID Sim.item_other)) ->
   item_matches "alice" "repo" Sim.item_other = true) /\
  (forall j other item',
     j < 1 -> [Sim.item_a; Sim.item_other] !! j = Some other ->
     HostLower (ItemDID other) = HostLower (ItemDID Sim.item_other) ->
     HostLower (ItemDID item') = HostLower (ItemDID Sim.item_other) ->
     TargetFile item' = TargetFile Sim.item_other ->
     performBatchedGitOperations (Sim.config_with 5 10)
       (<[1 := item']> [Sim.item_a; Sim.item_other]) (Sim.start Sim.world1)
     = performBatchedGitOperations (Sim.config_with 5 10)
         [Sim.item_a; Sim.item_other] (Sim.start Sim.world1)).
Proof.
  apply (performBatchedGitOperations_passed (Uni := sim_unicode)
           (Sim.config_with 5 10)
           Sim.origin_is_set Sim.origin_out "alice" "repo"
           (sim_remote_answers 5 10) eq_refl
           [Sim.item_a; Sim.item_other] 1 Sim.item_other
           (Sim.start Sim.world1)).
  - vm_compute. reflexivity.
  - reflexivity.
Defined.

(** ** The loop under any sequence of events *)

Section LoopMore.

Context {Uni : Unicode}.

Context {World : Type} `{!OS World}.
Variable config : Config.

(** An iteration of a running loop either only appends what the event
    brought to the batch, or flushes the batch with what the event brought,
    signals its items and sets the ticker one period ahead. *)
Lemma loopIter_cases now ev l (st : St World) :
  exited l = false ->
  exited (loopIter config now ev l st).1 = is_closed ev /\
  ((batch (loopIter config now ev l st).1 = batch l ++ receipt ev /\
    flushLog (loopIter config now ev l st).1 = flushLog l /\
    chans (loopIter config now ev l st).1 = chans l /\
    (is_closed ev = true -> batch l = []) /\
    (forall item, ev = Received item ->
       (Z.of_nat (length (batch l) + 1) < BatchSize config)%Z)) \/
   (exists err,
      batch l ++ receipt ev <> [] /\
      batch (loopIter config now ev l st).1 = [] /\
      flushLog (loopIter config now ev l st).1
        = flushLog l ++ [(batch l ++ receipt ev, err)] /\
      chans (loopIter config now ev l st).1
        = signal err (batch l ++ receipt ev) (chans l) /\
      tickerDue (loopIter config now ev l st).1 = now + BatchTimeout config)).
Proof.
  intros He. destruct ev as [item| |]; cbn [receipt is_closed].
  - destruct (Z.leb_spec (BatchSize config)
                (Z.of_nat (length (batch l) + 1))) as [Hfull|Hbelow].
    + rewrite loopIter_received_full by assumption.
      rewrite processBatch_flush by (cbn; now destruct (batch l)).
      cbn [fst flushed holding batch flushLog chans tickerDue exited].
      split; [exact He|]. right. eexists. repeat split.
      now destruct (batch l).
    + rewrite loopIter_received_below by assumption.
      cbn [fst holding batch flushLog chans exited].
      split; [exact He|]. left. repeat split; try discriminate.
      now intros ? _.
  - unfold loopIter. rewrite He. unfold bind.
    destruct (batch l) as [|b bs] eqn:Eb.
    + rewrite processBatch_empty by exact Eb. cbn [ret fst batch flushLog chans exited].
      rewrite Eb. split; [reflexivity|]. left. repeat split; discriminate.
    + rewrite processBatch_flush by congruence.
      cbn [ret fst flushed batch flushLog chans tickerDue exited]. rewrite Eb, app_nil_r.
      split; [reflexivity|]. right. eexists. repeat split. discriminate.
  - unfold loopIter. rewrite He. rewrite app_nil_r.
    destruct (batch l) as [|b bs] eqn:Eb.
    + rewrite processBatch_empty by reflexivity.
      cbn [fst batch flushLog chans exited].
      split; [reflexivity|]. left. repeat split; discriminate.
    + rewrite processBatch_flush by discriminate.
      cbn [fst flushed batch flushLog chans tickerDue exited].
      split; [reflexivity|]. right. eexists. repeat split. discriminate.
Qed.

(** One iteration of a running loop: at most one flush, never of an empty
    batch; the flush and the batch left hold what the batch held and what
    the event brought, in order; after a flush the batch is empty and the
    ticker is set one period ahead. *)
Lemma loopIter_effect now ev l (st : St World) :
  exited l = false ->
  exists new,
    flushLog (loopIter config now ev l st).1 = flushLog l ++ new /\
    concat (map fst new) ++ batch (loopIter config now ev l st).1
      = batch l ++ receipt ev /\
    Forall (fun f => f.1 <> []) new /\
    length new <= 1 /\
    exited (loopIter config now ev l st).1 = is_closed ev /\
    (new <> [] ->
     batch (loopIter config now ev l st).1 = [] /\
     tickerDue (loopIter config now ev l st).1 = now + BatchTimeout config) /\
    (is_closed ev = true -> batch (loopIter config now ev l st).1 = []) /\
    (length (batch l) < Z.to_nat (BatchSize config) ->
     length (batch (loopIter config now ev l st).1) < Z.to_nat (BatchSize config) /\
     Forall (fun f => length f.1 <= Z.to_nat (BatchSize config)) new).
Proof.
  intros He.
  destruct (loopIter_cases now ev l st He)
    as [Hex [(Hb & Hf & _ & Hcl & Hbelow)|(err & Hne & Hb & Hf & _ & Ht)]].
  - exists []. rewrite Hb, Hf, app_nil_r. cbn [map concat app length].
    split; [reflexivity|]. split; [reflexivity|]. split; [constructor|].
    split; [lia|]. split; [exact Hex|]. split; [congruence|].
    split.
    { intros Hc. rewrite (Hcl Hc). now destruct ev. }
    intros Hlt. split; [|constructor].
    destruct ev as [item| |]; cbn [receipt]; rewrite ?app_nil_r; try exact Hlt.
    rewrite length_app. cbn [length]. specialize (Hbelow item eq_refl). lia.
  - exists [(batch l ++ receipt ev, err)]. rewrite Hb, Hf.
    cbn [map fst concat length]. rewrite !app_nil_r.
    split; [reflexivity|]. split; [reflexivity|].
    split; [constructor; [exact Hne|constructor]|].
    split; [lia|]. split; [exact Hex|]. split; [auto|]. split; [auto|].
    intros Hlt. split; [cbn; lia|]. constructor; [|constructor].
    cbn [fst]. rewrite length_app.
    destruct ev; cbn [receipt length]; lia.
Qed.

Lemma runLoop_effect tevs : forall l (st : St World),
  exited l = false ->
  forallb (fun te => negb (is_closed te.2)) tevs = true ->
  exists new,
    flushLog (runLoop config tevs l st).1 = flushLog l ++ new /\
    concat (map fst new) ++ batch (runLoop config tevs l st).1
      = batch l ++ receipts tevs /\
    Forall (fun f => f.1 <> []) new /\
    length new <= length tevs /\
    exited (runLoop config tevs l st).1 = false /\
    (length (batch l) < Z.to_nat (BatchSize config) ->
     length (batch (runLoop config tevs l st).1) < Z.to_nat (BatchSize config) /\
     Forall (fun f => length f.1 <= Z.to_nat (BatchSize config)) new).
Proof.
  induction tevs as [|[now ev] tevs IH]; intros l st He Hopen.
  - exists []. cbn [runLoop ret fst receipts flat_map map concat length app].
    rewrite !app_nil_r. repeat split; auto.
  - cbn [forallb snd] in Hopen. apply andb_true_iff in Hopen as [Hev Hopen].
    apply negb_true_iff in Hev. rewrite runLoop_cons.
    destruct (loopIter_effect now ev l st He)
      as (new1 & Hlog1 & Hcat1 & Hne1 & Hlen1 & Hex1 & _ & _ & Hb1).
    rewrite Hev in Hex1.
    destruct (IH _ (loopIter config now ev l st).2 Hex1 Hopen)
      as (new2 & Hlog2 & Hcat2 & Hne2 & Hlen2 & Hex2 & Hb2).
    exists (new1 ++ new2). rewrite Hlog2, Hlog1, <- app_assoc.
    split; [reflexivity|]. split.
    { rewrite map_app, concat_app, <- app_assoc, Hcat2, app_assoc, Hcat1.
      cbn [receipts flat_map snd]. now rewrite <- app_assoc. }
    split; [now apply Forall_app|]. split; [rewrite length_app; cbn; lia|].
    split; [exact Hex2|]. intros Hlt.
    destruct (Hb1 Hlt) as [Hlt1 Hall1]. destruct (Hb2 Hlt1) as [Hlt2 Hall2].
    split; [exact Hlt2|now apply Forall_app].
Qed.

(** X8. Whatever the order of receipts and ticks, a running loop loses
    nothing, repeats nothing and reorders nothing: the flushes it makes,
    read one after the other and followed by the batch it still holds, are
    the batch it started with followed by the items received, in the order
    of receipt. No flush is empty, and there is at most one flush per
    event. This holds for every value of the size ceiling. *)
Theorem runLoop_conserves tevs l (st : St World) :
  exited l = false ->
  forallb (fun te => negb (is_closed te.2)) tevs = true ->
  exists new,
    flushLog (runLoop config tevs l st).1 = flushLog l ++ new /\
    concat (map fst new) ++ batch (runLoop config tevs l st).1
      = batch l ++ receipts tevs /\
    Forall (fun f => f.1 <> []) new /\
    length new <= length tevs.
Proof.
  intros He Hopen.
  destruct (runLoop_effect tevs l st He Hopen)
    as (new & H1 & H2 & H3 & H4 & _).
  exists new. auto.
Qed.

(** X9. With a positive size ceiling [B], a running loop that holds fewer
    than [B] items holds fewer than [B] items after any sequence of
    receipts and ticks, and none of its flushes is longer than [B]. *)
Theorem runLoop_bounded tevs l (st : St World) new :
  exited l = false ->
  forallb (fun te => negb (is_closed te.2)) tevs = true ->
  length (batch l) < Z.to_nat (BatchSize config) ->
  flushLog (runLoop config tevs l st).1 = flushLog l ++ new ->
  length (batch (runLoop config tevs l st).1) < Z.to_nat (BatchSize config) /\
  Forall (fun f => length f.1 <= Z.to_nat (BatchSize config)) new.
Proof.
  intros He Hopen Hlt Hlog.
  destruct (runLoop_effect tevs l st He Hopen)
    as (new' & H1 & _ & _ & _ & _ & Hb).
  rewrite H1 in Hlog. apply app_inv_head in Hlog. subst new'. now apply Hb.
Qed.

(** Once the loop has returned, events have no effect. *)
Lemma runLoop_exited tevs : forall l (st : St World),
  exited l = true -> runLoop config tevs l st = (l, st).
Proof.
  induction tevs as [|[now ev] tevs IH]; intros l st He; [reflexivity|].
  rewrite runLoop_cons. unfold loopIter. rewrite He. cbn [ret fst snd].
  now apply IH.
Qed.

(** X10. When the admission channel is found closed, the loop flushes what
    it holds and returns: its batch is empty, every item it had received
    is in a flush, in order, and no later event changes its state or the
    world. *)
Theorem runLoop_shutdown tevs now later l (st : St World) :
  exited l = false ->
  forallb (fun te => negb (is_closed te.2)) tevs = true ->
  exists new,
    flushLog (runLoop config (tevs ++ (now, ChannelClosed) :: later) l st).1
      = flushLog l ++ new /\
    concat (map fst new) = batch l ++ receipts tevs /\
    batch (runLoop config (tevs ++ (now, ChannelClosed) :: later) l st).1
      = [] /\
    exited (runLoop config (tevs ++ (now, ChannelClosed) :: later) l st).1
      = true /\
    runLoop config (tevs ++ (now, ChannelClosed) :: later) l st
      = runLoop config (tevs ++ [(now, ChannelClosed)]) l st.
Proof.
  intros He Hopen.
  destruct (runLoop_effect tevs l st He Hopen)
    as (new1 & Hlog1 & Hcat1 & _ & _ & Hex1 & _).
  set (l1 := (runLoop config tevs l st).1) in *.
  set (st1 := (runLoop config tevs l st).2).
  destruct (loopIter_effect now ChannelClosed l1 st1 Hex1)
    as (new2 & Hlog2 & Hcat2 & _ & _ & Hex2 & _ & Hb2 & _).
  cbn [is_closed receipt] in *. specialize (Hb2 eq_refl).
  rewrite Hb2, !app_nil_r in Hcat2.
  assert (Hrun : forall rest,
            runLoop config (tevs ++ (now, ChannelClosed) :: rest) l st
            = loopIter config now ChannelClosed l1 st1).
  { intros rest. rewrite runLoop_app. fold l1 st1. rewrite runLoop_cons.
    rewrite (runLoop_exited rest) by exact Hex2.
    now destruct (loopIter config now ChannelClosed l1 st1). }
  rewrite !Hrun. exists (new1 ++ new2).
  rewrite Hlog2, Hlog1, <- app_assoc. split; [reflexivity|].
  split; [|auto].
  rewrite map_app, concat_app, Hcat2, <- Hcat1. reflexivity.
Qed.

End LoopMore.

Lemma runLoop_conserves_witness :
  exists new,
    flushLog (runLoop (Sim.config_with 5 2)
                [(0, Received Sim.item_a); (6, Tick);
                 (7, Received Sim.item_b); (7, Received Sim.item_c)]
                (Sim.loop_holding []) (Sim.start Sim.world1)).1
      = flushLog (Sim.loop_holding []) ++ new /\
    concat (map fst new)
      ++ batch (runLoop (Sim.config_with 5 2)
                  [(0, Received Sim.item_a); (6, Tick);
                   (7, Received Sim.item_b); (7, Received Sim.item_c)]
                  (Sim.loop_holding []) (Sim.start Sim.world1)).1
      = batch (Sim.loop_holding [])
        ++ receipts [(0, Received Sim.item_a); (6, Tick);
                     (7, Received Sim.item_b); (7, Received Sim.item_c)] /\
    Forall (fun f => f.1 <> []) new /\
    length new <= 4.
Proof.
  apply (runLoop_conserves (Sim.config_with 5 2)
           [(0, Received Sim.item_a); (6, Tick);
            (7, Received Sim.item_b); (7, Received Sim.item_c)]
           (Sim.loop_holding []) (Sim.start Sim.world1)); reflexivity.
Defined.

Lemma runLoop_bounded_witness :
  length (batch (runLoop (Sim.config_with 5 2)
                   [(0, Received Sim.item_a); (0, Received Sim.item_b);
                    (1, Received Sim.item_c)]
                   (Sim.loop_holding []) (Sim.start Sim.world1)).1) < 2 /\
  Forall (fun f => length f.1 <= 2)
    (flushLog (runLoop (Sim.config_with 5 2)
                 [(0, Received Sim.item_a); (0, Received Sim.item_b);
                  (1, Received Sim.item_c)]
                 (Sim.loop_holding []) (Sim.start Sim.world1)).1).
Proof.
  apply (runLoop_bounded (Sim.config_with 5 2)
           [(0, Received Sim.item_a); (0, Received Sim.item_b);
            (1, Received Sim.item_c)]
           (Sim.loop_holding []) (Sim.start Sim.world1));
    [reflexivity|reflexivity|cbn; lia|reflexivity].
Defined.

Lemma runLoop_shutdown_witness :
  exists new,
    flushLog (runLoop (Sim.config_with 5 2)
                ([(0, Received Sim.item_a)]
                 ++ (3, ChannelClosed) :: [(4, Received Sim.item_b); (9, Tick)])
                (Sim.loop_holding []) (Sim.start Sim.world1)).1
      = flushLog (Sim.loop_holding []) ++ new /\
    concat (map fst new)
      = batch (Sim.loop_holding []) ++ receipts [(0, Received Sim.item_a)] /\
    batch (runLoop (Sim.config_with 5 2)
             ([(0, Received Sim.item_a)]
              ++ (3, ChannelClosed) :: [(4, Received Sim.item_b); (9, Tick)])
             (Sim.loop_holding []) (Sim.start Sim.world1)).1 = [] /\
    exited (runLoop (Sim.config_with 5 2)
              ([(0, Received Sim.item_a)]
               ++ (3, ChannelClosed) :: [(4, Received Sim.item_b); (9, Tick)])
              (Sim.loop_holding []) (Sim.start Sim.world1)).1 = true /\
    runLoop (Sim.config_with 5 2)
      ([(0, Received Sim.item_a)]
       ++ (3, ChannelClosed) :: [(4, Received Sim.item_b); (9, Tick)])
      (Sim.loop_holding []) (Sim.start Sim.world1)
    = runLoop (Sim.config_with 5 2)
        ([(0, Received Sim.item_a)] ++ [(3, ChannelClosed)])
        (Sim.loop_holding []) (Sim.start Sim.world1).
Proof.
  apply (runLoop_shutdown (Sim.config_with 5 2) [(0, Received Sim.item_a)] 3
           [(4, Received Sim.item_b); (9, Tick)]
           (Sim.loop_holding []) (Sim.start Sim.world1)); reflexivity.
Defined.

(** ** What the flushes of a run do to the repository *)

Section Flushes.

Context {Uni : Unicode}.

Context {World : Type} `{!OS World}.
Variable config : Config.

Lemma publish_app b1 : forall b2 (st : St World),
  publish config (b1 ++ b2) st
  = ((publish config b1 st).1 ++ (publish config b2 (publish config b1 st).2).1,
     (publish config b2 (publish config b1 st).2).2).
Proof.
  induction b1 as [|b b1 IH]; intros b2 st.
  - cbn [app publish ret fst snd]. now destruct (publish config b2 st).
  - cbn [app publish]. unfold bind.
    destruct (log _ st) as [[] st1].
    destruct (performBatchedGitOperations config b st1) as [e st2].
    rewrite IH. destruct (publish config b1 st2) as [es st3].
    cbn [fst snd ret]. now destruct (publish config b2 st3).
Qed.

Lemma publish_one b (st : St World) :
  publish config [b] st
  = ([(performBatchedGitOperations config b
         (log (LogProcessingBatch (length b)) st).2).1],
     (performBatchedGitOperations config b
        (log (LogProcessingBatch (length b)) st).2).2).
Proof.
  cbn [publish]. unfold bind. destruct (log _ st) as [[] st1]. cbn [snd].
  now destruct (performBatchedGitOperations config b st1).
Qed.

(** One iteration of a running loop does to the world what publishing the
    flush it makes, if any, does. *)
Lemma loopIter_publishes now ev l (st : St World) :
  exited l = false ->
  exists new,
    flushLog (loopIter config now ev l st).1 = flushLog l ++ new /\
    publish config (map fst new) st
      = (map snd new, (loopIter config now ev l st).2).
Proof.
  intros He.
  assert (Hflush : forall l1, batch l1 <> [] ->
            exists new,
              flushLog (processBatch config now l1 st).1 = flushLog l1 ++ new /\
              publish config (map fst new) st
                = (map snd new, (processBatch config now l1 st).2)).
  { intros l1 Hne. rewrite processBatch_flush by exact Hne.
    cbn [fst snd flushed flushLog]. eexists [(_, _)].
    split; [reflexivity|]. cbn [map fst snd]. apply publish_one. }
  assert (Hidle : forall l1, batch l1 = [] ->
            exists new,
              flushLog (processBatch config now l1 st).1 = flushLog l1 ++ new /\
              publish config (map fst new) st
                = (map snd new, (processBatch config now l1 st).2)).
  { intros l1 Hnil. rewrite processBatch_empty by exact Hnil.
    exists []. rewrite app_nil_r. split; reflexivity. }
  assert (Hany : forall l1,
            exists new,
              flushLog (processBatch config now l1 st).1 = flushLog l1 ++ new /\
              publish config (map fst new) st
                = (map snd new, (processBatch config now l1 st).2)).
  { intros l1. destruct (batch l1) eqn:Eb; [apply Hidle|apply Hflush];
      congruence. }
  destruct ev as [item| |].
  - destruct (Z.leb_spec (BatchSize config)
                (Z.of_nat (length (batch l) + 1))) as [Hfull|Hbelow].
    + rewrite loopIter_received_full by assumption. apply (Hany (holding item l)).
    + rewrite loopIter_received_below by assumption.
      exists []. cbn [fst snd holding flushLog]. rewrite app_nil_r.
      split; reflexivity.
  - unfold loopIter. rewrite He. unfold bind.
    destruct (Hany l) as (new & Hlog & Hpub).
    destruct (processBatch config now l st) as [l' st'].
    cbn [ret fst snd flushLog] in *. eauto.
  - unfold loopIter. rewrite He.
    match goal with
    | |- context [processBatch config now ?l1 st] =>
        destruct (Hany l1) as (new & Hlog & Hpub)
    end.
    cbn [flushLog] in Hlog. eauto.
Qed.

(** A run of the loop does to the world what publishing its flushes, one
    after the other, does. *)
Lemma runLoop_publishes tevs : forall l (st : St World),
  exited l = false ->
  forallb (fun te => negb (is_closed te.2)) tevs = true ->
  exists new,
    flushLog (runLoop config tevs l st).1 = flushLog l ++ new /\
    publish config (map fst new) st
      = (map snd new, (runLoop config tevs l st).2).
Proof.
  induction tevs as [|[now ev] tevs IH]; intros l st He Hopen.
  - exists []. cbn [runLoop ret fst snd]. rewrite app_nil_r.
    split; reflexivity.
  - cbn [forallb snd] in Hopen. apply andb_true_iff in Hopen as [Hev Hopen].
    apply negb_true_iff in Hev. rewrite runLoop_cons.
    destruct (loopIter_publishes now ev l st He) as (new1 & Hlog1 & Hpub1).
    destruct (loopIter_cases config now ev l st He) as [Hex _].
    rewrite Hev in Hex.
    destruct (IH _ (loopIter config now ev l st).2 Hex Hopen)
      as (new2 & Hlog2 & Hpub2).
    exists (new1 ++ new2). rewrite Hlog2, Hlog1, <- app_assoc.
    split; [reflexivity|].
    rewrite !map_app, publish_app, Hpub1. cbn [fst snd]. now rewrite Hpub2.
Qed.

Lemma unstaged ev : is_git "add" ev = false -> staged_files ev = [].
Proof.
  destruct ev as [argv ok out| | | | | |]; try reflexivity.
  destruct argv as [|prog [|cmd files]]; try reflexivity.
  cbn [is_git staged_files]. intros ->. now destruct ok.
Qed.

Lemma setup_unstaged evs :
  forallb setup_event evs = true -> staged evs = [].
Proof.
  induction evs as [|ev evs IH]; [reflexivity|]. cbn [forallb].
  intros [Hev Hall]%andb_true_iff. unfold staged in *. cbn [flat_map].
  rewrite (IH Hall), app_nil_r. apply unstaged.
  now apply setup_event_inert in Hev as (_ & _ & ? & _).
Qed.

(** The files a flush stages: those of its batch, in order, when it gets as
    far as a successful [git add]; none otherwise. *)
Lemma flush_staged batch (st : St World) e st' :
  performBatchedGitOperations config batch st = (e, st') ->
  batch <> [] ->
  exists evs,
    trace st' = trace st ++ evs /\
    staged evs = if reaches_index e then map TargetFile batch else [].
Proof.
  intros H Hne.
  destruct (performBatchedGitOperations_events config batch st e st' H Hne)
    as (before & after & Ht & Hall & Hafter).
  exists (before ++ after). split; [exact Ht|].
  unfold staged. rewrite flat_map_app.
  fold (staged before). rewrite (setup_unstaged _ Hall). cbn [app].
  destruct Hafter as [[-> (err & -> & Hv)]|Hcmds].
  - destruct err; try discriminate; reflexivity.
  - destruct Hcmds; cbn; rewrite ?app_nil_r; reflexivity.
Qed.

Lemma publish_staged new : forall (st st' : St World),
  publish config (map fst new) st = (map snd new, st') ->
  Forall (fun f => f.1 <> []) new ->
  exists evs,
    trace st' = trace st ++ evs /\
    staged evs
    = flat_map (fun f => if reaches_index f.2 then map TargetFile f.1 else [])
        new.
Proof.
  induction new as [|[b e] new IH]; intros st st' Hpub Hne.
  - injection Hpub as <-. exists []. now rewrite app_nil_r.
  - cbn [map fst snd publish] in Hpub. unfold bind, log, emit in Hpub.
    destruct (performBatchedGitOperations config b _) as [e1 st2] eqn:Hflush.
    destruct (publish config (map fst new) st2) as [es st3] eqn:Hrest.
    cbn [ret] in Hpub. injection Hpub as -> -> ->.
    inversion Hne as [|? ? Hb Hne']; subst. cbn [fst] in Hb.
    destruct (flush_staged _ _ _ _ Hflush Hb) as (evs1 & Ht1 & Hs1).
    destruct (IH _ _ Hrest Hne') as (evs2 & Ht2 & Hs2).
    exists (EvLog (LogProcessingBatch (length b)) :: evs1 ++ evs2).
    cbn [trace] in Ht1. split.
    + rewrite Ht2, Ht1, <- !app_assoc. reflexivity.
    + unfold staged in *. cbn [flat_map staged_files app fst snd].
      now rewrite flat_map_app, Hs1, Hs2.
Qed.

Lemma all_reach_index (new : list (list BatchItem * error)) :
  Forall (fun f => f.2 = None) new ->
  flat_map (fun f => if reaches_index f.2 then map TargetFile f.1 else []) new
  = map TargetFile (concat (map fst new)).
Proof.
  induction 1 as [|[b e] new He _ IH]; [reflexivity|].
  cbn [snd] in He. subst e.
  cbn [flat_map map fst snd concat reaches_index]. now rewrite map_app, IH.
Qed.

(** C4. With a size ceiling of 3, a loop with an empty batch that receives
    three items, with no tick in between, flushes exactly once, when the
    third arrives: the publisher is called once, on the three items in the
    order received, and the world after the run is the world it leaves; the
    files staged during the run are the three target files, in that order,
    when the flush gets as far as a successful [git add], and none
    otherwise; the loop holds nothing afterwards, and the one outcome of
    the publisher is what each of the three response channels receives. *)
Theorem three_items_one_flush t1 t2 t3 a b c l (st : St World) :
  BatchSize config = 3%Z ->
  exited l = false ->
  batch l = [] ->
  chans l !! ResponseCh a = None ->
  chans l !! ResponseCh b = None ->
  chans l !! ResponseCh c = None ->
  exists outcome evs,
    performBatchedGitOperations config [a; b; c]
      (log (LogProcessingBatch 3) st).2
    = (outcome,
       (runLoop config
          [(t1, Received a); (t2, Received b); (t3, Received c)] l st).2) /\
    flushLog (runLoop config
                [(t1, Received a); (t2, Received b); (t3, Received c)] l st).1
      = flushLog l ++ [([a; b; c], outcome)] /\
    batch (runLoop config
             [(t1, Received a); (t2, Received b); (t3, Received c)] l st).1
      = [] /\
    Forall (fun item =>
              chans (runLoop config
                       [(t1, Received a); (t2, Received b); (t3, Received c)]
                       l st).1 !! ResponseCh item = Some outcome)
      [a; b; c] /\
    trace (runLoop config
             [(t1, Received a); (t2, Received b); (t3, Received c)] l st).2
      = trace st ++ EvLog (LogProcessingBatch 3) :: evs /\
    staged evs = if reaches_index outcome then map TargetFile [a; b; c] else [].
Proof.
  intros Hsize He Hb Ha Hcb Hcc.
  rewrite runLoop_cons, loopIter_received_below
    by (rewrite ?Hb, ?Hsize; cbn; first [assumption|lia]).
  cbn [fst snd].
  rewrite runLoop_cons, loopIter_received_below
    by (cbn; rewrite ?Hb, ?Hsize; cbn; first [assumption|lia]).
  cbn [fst snd].
  rewrite runLoop_cons, loopIter_received_full
    by (cbn; rewrite ?Hb, ?Hsize; cbn; first [assumption|lia]).
  rewrite processBatch_flush by (cbn; rewrite Hb; discriminate).
  cbn [runLoop ret fst snd holding batch flushed flushLog chans].
  rewrite Hb. cbn [app length].
  destruct (performBatchedGitOperations config [a; b; c]
              (log (LogProcessingBatch 3) st).2) as [outcome st'] eqn:Hflush.
  destruct (flush_staged _ _ _ _ Hflush ltac:(discriminate))
    as (evs & Ht & Hs).
  exists outcome, evs. cbn [fst snd].
  split; [reflexivity|]. split; [reflexivity|]. split; [reflexivity|].
  split; [repeat constructor; apply signal_reaches; cbn; auto|].
  split; [|exact Hs].
  rewrite Ht. cbn [log emit snd trace]. now rewrite <- app_assoc.
Qed.

Lemma receipts_then_tick items tevs l (st : St World) :
  (0 < BatchSize config)%Z ->
  exited l = false ->
  batch l = [] ->
  map snd tevs = map Received items ++ [Tick] ->
  exists new,
    flushLog (runLoop config tevs l st).1 = flushLog l ++ new /\
    length new = ceil_div (length items) (Z.to_nat (BatchSize config)) /\
    concat (map fst new) = items /\
    Forall (fun f => 0 < length f.1 <= Z.to_nat (BatchSize config)) new.
Proof.
  intros Hpos He Hb Hev.
  apply map_eq_app in Hev as (tevs1 & tevs2 & -> & Hev1 & Hev2).
  destruct tevs2 as [|[now ev] [|? ?]]; try discriminate.
  cbn in Hev2. injection Hev2 as ->.
  rewrite runLoop_app.
  destruct (runLoop_receives config items tevs1 l st Hev1 He)
    as (new & Hlog & Hex & Hlt & Hcat & Hall); [rewrite Hb; cbn; lia|].
  rewrite Hb in Hcat. cbn [app] in Hcat.
  pose proof (length_concat_full _ _ Hall) as Hlen.
  set (l1 := (runLoop config tevs1 l st).1) in *.
  set (st1 := (runLoop config tevs1 l st).2).
  assert (Hn : length items
               = Z.to_nat (BatchSize config) * length new + length (batch l1))
    by (rewrite <- Hcat, length_app; lia).
  assert (Hle : Forall (fun f => 0 < length f.1 <= Z.to_nat (BatchSize config))
                  new).
  { eapply Forall_impl; [exact Hall|]. cbn beta. intros f ->. lia. }
  rewrite runLoop_cons. cbn [runLoop ret fst snd].
  unfold loopIter. rewrite Hex.
  destruct (batch l1) as [|b bs] eqn:Eb.
  - rewrite processBatch_empty by reflexivity. cbn [fst flushLog].
    exists new. rewrite app_nil_r in Hcat. cbn [length] in Hn.
    rewrite Hn, Nat.add_0_r, ceil_div_exact by lia. auto.
  - rewrite processBatch_flush by discriminate.
    cbn [fst flushed flushLog batch].
    set (err := (performBatchedGitOperations config _ _).1).
    exists (new ++ [(b :: bs, err)]).
    rewrite Hlog, <- app_assoc. split; [reflexivity|]. split.
    + rewrite length_app, Hn. cbn [length] in *.
      rewrite ceil_div_rest by lia. lia.
    + split.
      * rewrite map_app, concat_app. cbn. now rewrite app_nil_r.
      * apply Forall_app. split; [exact Hle|].
        constructor; [|constructor]. cbn [fst length] in *. lia.
Qed.

(** C6. With a positive size ceiling [B], a loop with an empty batch that
    receives [N] items and then a tick makes exactly [ceil (N / B)] flushes;
    none is empty or larger than [B], and read one after the other they
    hold the items in the order in which they were received. The world after
    the run is the world that publishing these flushes one after the other
    leaves, their outcomes being the outcomes recorded; the files staged
    during the run are, flush after flush and in the order of receipt, the
    target files of the flushes that get as far as a successful [git add]:
    all the target files, in the order of receipt, when every flush
    returns [nil]. *)
Theorem flushes_in_admission_order items tevs l (st : St World) :
  (0 < BatchSize config)%Z ->
  exited l = false ->
  batch l = [] ->
  map snd tevs = map Received items ++ [Tick] ->
  exists new evs,
    flushLog (runLoop config tevs l st).1 = flushLog l ++ new /\
    length new = ceil_div (length items) (Z.to_nat (BatchSize config)) /\
    concat (map fst new) = items /\
    Forall (fun f => 0 < length f.1 <= Z.to_nat (BatchSize config)) new /\
    publish config (map fst new) st
      = (map snd new, (runLoop config tevs l st).2) /\
    trace (runLoop config tevs l st).2 = trace st ++ evs /\
    staged evs
      = flat_map (fun f => if reaches_index f.2 then map TargetFile f.1 else [])
          new /\
    (Forall (fun f => f.2 = None) new -> staged evs = map TargetFile items).
Proof.
  intros Hpos He Hb Hev.
  destruct (receipts_then_tick items tevs l st Hpos He Hb Hev)
    as (new & Hlog & Hlen & Hcat & Hall).
  assert (Hopen : forallb (fun te => negb (is_closed te.2)) tevs = true).
  { apply forallb_forall. intros [t ev] Hin.
    assert (Hin' : In ev (map snd tevs)) by (apply in_map_iff; now exists (t, ev)).
    rewrite Hev in Hin'. apply in_app_or in Hin' as [Hin'|[<-|[]]];
      [|reflexivity].
    apply in_map_iff in Hin' as (item & <- & _). reflexivity. }
  destruct (runLoop_publishes tevs l st He Hopen) as (new' & Hlog' & Hpub).
  rewrite Hlog in Hlog'. apply app_inv_head in Hlog'. subst new'.
  assert (Hne : Forall (fun f => f.1 <> []) new).
  { eapply Forall_impl; [exact Hall|]. cbn beta. intros f Hf Hnil.
    rewrite Hnil in Hf. cbn in Hf. lia. }
  destruct (publish_staged new st _ Hpub Hne) as (evs & Ht & Hs).
  exists new, evs. repeat (split; [assumption|]).
  intros Hnil. now rewrite Hs, all_reach_index, Hcat.
Qed.

End Flushes.

Lemma three_items_one_flush_witness :
  exists outcome evs,
    performBatchedGitOperations (Sim.config_with 5 3)
      [Sim.item_a; Sim.item_b; Sim.item_c]
      (log (LogProcessingBatch 3) (Sim.start Sim.world1)).2
    = (outcome,
       (runLoop (Sim.config_with 5 3)
          [(0, Received Sim.item_a); (1, Received Sim.item_b);
           (2, Received Sim.item_c)]
          (Sim.loop_holding []) (Sim.start Sim.world1)).2) /\
    flushLog (runLoop (Sim.config_with 5 3)
                [(0, Received Sim.item_a); (1, Received Sim.item_b);
                 (2, Received Sim.item_c)]
                (Sim.loop_holding []) (Sim.start Sim.world1)).1
      = flushLog (Sim.loop_holding [])
          ++ [([Sim.item_a; Sim.item_b; Sim.item_c], outcome)] /\
    batch (runLoop (Sim.config_with 5 3)
             [(0, Received Sim.item_a); (1, Received Sim.item_b);
              (2, Received Sim.item_c)]
             (Sim.loop_holding []) (Sim.start Sim.world1)).1
      = [] /\
    Forall (fun item =>
              chans (runLoop (Sim.config_with 5 3)
                       [(0, Received Sim.item_a); (1, Received Sim.item_b);
                        (2, Received Sim.item_c)]
                       (Sim.loop_holding []) (Sim.start Sim.world1)).1
                !! ResponseCh item = Some outcome)
      [Sim.item_a; Sim.item_b; Sim.item_c] /\
    trace (runLoop (Sim.config_with 5 3)
             [(0, Received Sim.item_a); (1, Received Sim.item_b);
              (2, Received Sim.item_c)]
             (Sim.loop_holding []) (Sim.start Sim.world1)).2
      = trace (Sim.start Sim.world1) ++ EvLog (LogProcessingBatch 3) :: evs /\
    staged evs
      = if reaches_index outcome
        then map TargetFile [Sim.item_a; Sim.item_b; Sim.item_c] else [].
Proof.
  apply (three_items_one_flush (Sim.config_with 5 3) 0 1 2
           Sim.item_a Sim.item_b Sim.item_c (Sim.loop_holding [])
           (Sim.start Sim.world1)); reflexivity.
Defined.

Lemma flushes_in_admission_order_witness :
  exists new evs,
    flushLog (runLoop (Sim.config_with 5 2)
                [(0, Received Sim.item_a); (0, Received Sim.item_b);
                 (1, Received Sim.item_c); (6, Tick)]
                (Sim.loop_holding []) (Sim.start Sim.world1)).1
      = flushLog (Sim.loop_holding []) ++ new /\
    length new = ceil_div (length [Sim.item_a; Sim.item_b; Sim.item_c])
                   (Z.to_nat (BatchSize (Sim.config_with 5 2))) /\
    concat (map fst new) = [Sim.item_a; Sim.item_b; Sim.item_c] /\
    Forall (fun f => 0 < length f.1
                     <= Z.to_nat (BatchSize (Sim.config_with 5 2))) new /\
    publish (Sim.config_with 5 2) (map fst new) (Sim.start Sim.world1)
      = (map snd new,
         (runLoop (Sim.config_with 5 2)
            [(0, Received Sim.item_a); (0, Received Sim.item_b);
             (1, Received Sim.item_c); (6, Tick)]
            (Sim.loop_holding []) (Sim.start Sim.world1)).2) /\
    trace (runLoop (Sim.config_with 5 2)
             [(0, Received Sim.item_a); (0, Received Sim.item_b);
              (1, Received Sim.item_c); (6, Tick)]
             (Sim.loop_holding []) (Sim.start Sim.world1)).2
      = trace (Sim.start Sim.world1) ++ evs /\
    staged evs
      = flat_map (fun f => if reaches_index f.2 then map TargetFile f.1 else [])
          new /\
    (Forall (fun f => f.2 = None) new ->
     staged evs = map TargetFile [Sim.item_a; Sim.item_b; Sim.item_c]).
Proof.
  apply (flushes_in_admission_order (Sim.config_with 5 2)
           [Sim.item_a; Sim.item_b; Sim.item_c]
           [(0, Received Sim.item_a); (0, Received Sim.item_b);
            (1, Received Sim.item_c); (6, Tick)]
           (Sim.loop_holding []) (Sim.start Sim.world1)); reflexivity.
Defined.

(** The run of the witness of C6 for real: two flushes, both pushed, and
    the three files staged in the order of receipt. *)
Lemma three_files_reach_git_in_order :
  map snd
    (flushLog (runLoop (Sim.config_with 5 2)
                 [(0, Received Sim.item_a); (0, Received Sim.item_b);
                  (1, Received Sim.item_c); (6, Tick)]
                 (Sim.loop_holding []) (Sim.start Sim.world1)).1)
    = [None; None] /\
  staged (trace (runLoop (Sim.config_with 5 2)
                   [(0, Received Sim.item_a); (0, Received Sim.item_b);
                    (1, Received Sim.item_c); (6, Tick)]
                   (Sim.loop_holding []) (Sim.start Sim.world1)).2)
    = ["a/did.json"; "b/did.json"; "c/did.json"] /\
  Sim.sim_pushes
    (world (runLoop (Sim.config_with 5 2)
              [(0, Received Sim.item_a); (0, Received Sim.item_b);
               (1, Received Sim.item_c); (6, Tick)]
              (Sim.loop_holding []) (Sim.start Sim.world1)).2)
    = [("origin", "gh-pages"); ("origin", "gh-pages")].
Proof. by_running. Qed.

(** ** Callers and flushes in every run *)

Ltac other_channel :=
  let E := fresh "E" in intros E; subst; congruence.

Section Orderly.

Context {Uni : Unicode}.

Context {World : Type} `{!OS World}.
Variable config : Config.

Lemma signal_other err (items : list BatchItem) (chans : gmap nat error) ch :
  ~ In ch (map ResponseCh items) -> signal err items chans !! ch = chans !! ch.
Proof.
  unfold signal. revert chans.
  induction items as [|head items IH]; intros chans Hnot; [reflexivity|].
  cbn [fold_left map In] in *. rewrite IH by tauto.
  unfold trySend. destruct (chans !! ResponseCh head); [reflexivity|].
  apply lookup_insert_ne. tauto.
Qed.

Lemma signal_lookup_cases err (items : list BatchItem)
  (chans : gmap nat error) ch e :
  signal err items chans !! ch = Some e ->
  chans !! ch = Some e \/
  (e = err /\ exists item, In item items /\ ResponseCh item = ch).
Proof.
  unfold signal. revert chans.
  induction items as [|head items IH]; intros chans H; [auto|].
  cbn [fold_left] in H. apply IH in H as [H|(-> & item & Hin & Hch)].
  - unfold trySend in H. destruct (chans !! ResponseCh head); [auto|].
    destruct (decide (ResponseCh head = ch)) as [Heq|Hne].
    + subst ch. rewrite lookup_insert_eq in H. injection H as <-.
      right. split; [reflexivity|]. exists head. split; [now left|reflexivity].
    + rewrite lookup_insert_ne in H by assumption. auto.
  - right. split; [reflexivity|]. exists item. split; [now right|exact Hch].
Qed.

Lemma taken_moved (R Q B Fc : list BatchItem) :
  Permutation (Q ++ (B ++ R) ++ Fc) ((R ++ Q) ++ B ++ Fc).
Proof.
  rewrite <- !app_assoc. rewrite (app_assoc Q B).
  rewrite Permutation_app_swap_app. now rewrite <- !app_assoc.
Qed.

Lemma NoDup_channels_moved (l k : list BatchItem) :
  Permutation l k ->
  NoDup (map ResponseCh k) -> NoDup (map ResponseCh l).
Proof.
  intros HP H. apply (Permutation_map ResponseCh) in HP. now rewrite HP.
Qed.

Lemma initial_orderly (w : World) : orderly (initial config w).
Proof.
  unfold orderly. cbn. repeat split; try constructor;
    try (intros; now rewrite ?lookup_empty in * );
    try (intros; rewrite ?lookup_empty in *; try discriminate; tauto).
Qed.

(** A step of the loop keeps the bookkeeping. *)
Lemma loop_step_orderly (s : Sys World) ev q' :
  orderly s -> exited (loop s) = false -> is_closed ev = false ->
  batchCh s = receipt ev ++ q' ->
  orderly (withLoop s q'
             (loopIter config (now s) ev (loop s) (outside s))).
Proof.
  intros (O1 & O2 & O3 & O4 & O5 & O6 & O7) He Hev Hq.
  set (R := receipt ev) in *. set (B := batch (loop s)) in *.
  set (F := flushLog (loop s)) in *.
  assert (Hold : items_taken s = (R ++ q') ++ B ++ concat (map fst F))
    by (unfold items_taken; now rewrite Hq).
  rewrite Hold in O1, O2. rewrite Hq in O3.
  pose proof (taken_moved R q' B (concat (map fst F))) as HPA.
  assert (NA : NoDup (map ResponseCh (q' ++ (B ++ R) ++ concat (map fst F)))).
  { eapply NoDup_channels_moved; [exact HPA|exact O1]. }
  assert (Hsub : forall x, In x (B ++ R) -> In x ((R ++ q') ++ B)).
  { intros x. rewrite !in_app_iff. tauto. }
  assert (Hapart : forall x, In x q' ->
            ~ In (ResponseCh x) (map ResponseCh (B ++ R))).
  { intros x Hx Hin. rewrite !map_app in NA.
    apply NoDup_app in NA as (_ & Hdisj & _).
    apply (Hdisj (ResponseCh x)).
    - apply list_elem_of_In, in_map, Hx.
    - apply list_elem_of_In, in_or_app. left. rewrite <- map_app. exact Hin. }
  destruct (loopIter_cases config (now s) ev (loop s) (outside s) He)
    as [_ [(Hb & Hf & Hc & _)|(err & _ & Hb & Hf & Hc & _)]];
    fold R B F in Hb, Hf, Hc.
  - assert (HP : Permutation
                   (items_taken (withLoop s q'
                      (loopIter config (now s) ev (loop s) (outside s))))
                   ((R ++ q') ++ B ++ concat (map fst F))).
    { unfold items_taken. cbn [withLoop batchCh loop fst]. rewrite Hb, Hf.
      exact HPA. }
    unfold orderly. cbn [withLoop callers loop fst] in *.
    split; [eapply NoDup_channels_moved; [exact HP|exact O1]|].
    split.
    { intros ch Hns. destruct (O2 ch Hns) as [Hn Hch]. rewrite Hc.
      split; [|exact Hch]. intros Hin. apply Hn.
      eapply Permutation_in; [|exact Hin]. now apply Permutation_map. }
    split.
    { intros x Hx. rewrite Hc. apply O3. cbn [batchCh] in Hx. rewrite Hb in Hx.
      rewrite !in_app_iff in *. tauto. }
    rewrite Hf, Hc. auto.
  - assert (HP : Permutation
                   (items_taken (withLoop s q'
                      (loopIter config (now s) ev (loop s) (outside s))))
                   ((R ++ q') ++ B ++ concat (map fst F))).
    { unfold items_taken. cbn [withLoop batchCh loop fst]. rewrite Hb, Hf.
      rewrite map_app, concat_app. cbn [map fst concat app].
      rewrite app_nil_r. rewrite <- HPA.
      apply Permutation_app_head, Permutation_app_comm. }
    unfold orderly. cbn [withLoop callers loop fst batchCh] in *.
    split; [eapply NoDup_channels_moved; [exact HP|exact O1]|].
    split.
    { intros ch Hns. destruct (O2 ch Hns) as [Hn Hch]. rewrite Hc.
      split.
      - intros Hin. apply Hn.
        eapply Permutation_in; [|exact Hin]. now apply Permutation_map.
      - rewrite signal_other; [exact Hch|]. intros Hin. apply Hn.
        apply in_map_iff in Hin as (x & <- & Hx). apply in_map.
        rewrite app_assoc. apply in_or_app. left. now apply Hsub. }
    split.
    { intros x Hx. rewrite Hb, app_nil_r in Hx. rewrite Hc.
      destruct (O3 x) as [Hcx Hchx];
        [rewrite !in_app_iff; tauto|].
      split; [exact Hcx|]. rewrite signal_other; [exact Hchx|].
      now apply Hapart. }
    split.
    { intros f e x Hfe Hx. rewrite Hf in Hfe. rewrite Hc.
      apply in_app_or in Hfe as [Hfe|[[= <- <-]|[]]].
      - destruct (O4 f e x Hfe Hx) as [[Hcx Hchx]|Hret]; [left|now right].
        split; [exact Hcx|]. now apply signal_keeps.
      - left. destruct (O3 x (Hsub x Hx)) as [Hcx Hchx].
        split; [exact Hcx|]. now apply signal_reaches. }
    split.
    { intros ch e. rewrite Hc, Hf.
      intros [Hold'|(-> & x & Hx & <-)]%signal_lookup_cases.
      - destruct (O5 ch e Hold') as (f & x & Hfe & Hx & Hch).
        exists f, x. split; [apply in_or_app; now left|auto].
      - exists (B ++ R), x. split; [apply in_or_app; right; now left|auto]. }
    split; [|exact O7].
    intros ch e Hret. rewrite Hf. destruct (O6 ch e Hret)
      as [->|(f & x & Hfe & Hx & Hch)]; [now left|right].
    exists f, x. split; [apply in_or_app; now left|auto].
Qed.

(** Every move keeps the bookkeeping. *)
Lemma step_orderly a (s s' : Sys World) :
  orderly s -> step config a s = Some s' -> orderly s'.
Proof.
  intros Hs Hstep. pose proof Hs as (O1 & O2 & O3 & O4 & O5 & O6 & O7).
  unfold step in Hstep.
  destruct (exited (loop s)) eqn:Hex; [discriminate|].
  destruct a as [ch tf pd|ch|ch|ch| | |]; cbv beta iota in Hstep.
  - destruct (callers s !! ch) eqn:Hc; [discriminate|]. injection Hstep as <-.
    destruct (O2 ch) as [Hfree Hempty]; [now rewrite Hc|].
    unfold orderly, items_taken in *. cbn [setCaller callers batchCh loop].
    split; [exact O1|]. split.
    { intros ch'. destruct (decide (ch = ch')) as [<-|Hne]; [auto|].
      rewrite lookup_insert_ne by assumption. apply O2. }
    split.
    { intros x Hx. destruct (O3 x Hx) as [Hcx Hchx].
      rewrite lookup_insert_ne by other_channel. auto. }
    split.
    { intros f e x Hfe Hx.
      destruct (O4 f e x Hfe Hx) as [[Hcx Hchx]|Hret];
        rewrite lookup_insert_ne by other_channel; auto. }
    split; [exact O5|]. split.
    { intros ch' e. destruct (decide (ch = ch')) as [<-|Hne].
      - rewrite lookup_insert_eq. discriminate.
      - rewrite lookup_insert_ne by assumption. apply O6. }
    intros ch' item since. destruct (decide (ch = ch')) as [<-|Hne].
    + rewrite lookup_insert_eq. now intros [= <- _].
    + rewrite lookup_insert_ne by assumption. apply O7.
  - destruct (callers s !! ch) as [[item since| |]|] eqn:Hc; try discriminate.
    destruct (_ <? _); [|discriminate]. injection Hstep as <-.
    pose proof (O7 _ _ _ Hc) as Hch.
    destruct (O2 ch) as [Hfree Hempty]; [now rewrite Hc|].
    unfold orderly, items_taken in *. cbn [setCaller callers batchCh loop] in *.
    split.
    { eapply (NoDup_channels_moved _
                (item :: batchCh s ++ batch (loop s)
                   ++ concat (map fst (flushLog (loop s))))).
      - rewrite <- app_assoc. symmetry. apply Permutation_middle.
      - cbn [map]. apply NoDup_cons. split; [|exact O1].
        rewrite list_elem_of_In, Hch. exact Hfree. }
    split.
    { intros ch'. destruct (decide (ch = ch')) as [<-|Hne].
      - rewrite lookup_insert_eq. discriminate.
      - rewrite lookup_insert_ne by assumption. intros Hns.
        destruct (O2 ch' Hns) as [Hn He]. split; [|exact He].
        intros Hin. apply Hn. apply in_map_iff in Hin as (x & Hx1 & Hx2).
        apply in_map_iff. exists x. split; [exact Hx1|].
        rewrite !in_app_iff in *. cbn [In] in Hx2.
        destruct Hx2 as [[H|[H|[]]]|H]; [tauto|subst x; congruence|tauto]. }
    split.
    { intros x Hx. rewrite !in_app_iff in Hx. cbn [In] in Hx.
      destruct (decide (ResponseCh x = ch)) as [Heq|Hne].
      - rewrite Heq, lookup_insert_eq. split; [reflexivity|exact Hempty].
      - rewrite lookup_insert_ne by congruence. apply O3. rewrite in_app_iff.
        destruct Hx as [[H|[H|[]]]|H]; [tauto|subst x; congruence|tauto]. }
    split.
    { intros f e x Hfe Hx.
      destruct (O4 f e x Hfe Hx) as [[Hcx Hchx]|Hret];
        rewrite lookup_insert_ne by other_channel; auto. }
    split; [exact O5|]. split.
    { intros ch' e. destruct (decide (ch = ch')) as [<-|Hne].
      - rewrite lookup_insert_eq. discriminate.
      - rewrite lookup_insert_ne by assumption. apply O6. }
    intros ch' item' since'. destruct (decide (ch = ch')) as [<-|Hne].
    + rewrite lookup_insert_eq. discriminate.
    + rewrite lookup_insert_ne by assumption. apply O7.
  - destruct (callers s !! ch) as [[item since| |]|] eqn:Hc; try discriminate.
    destruct (_ <=? _); [|discriminate]. injection Hstep as <-.
    unfold orderly, items_taken in *. cbn [setCaller callers batchCh loop] in *.
    split; [exact O1|]. split.
    { intros ch'. destruct (decide (ch = ch')) as [<-|Hne].
      - rewrite lookup_insert_eq. discriminate.
      - rewrite lookup_insert_ne by assumption. apply O2. }
    split.
    { intros x Hx. destruct (O3 x Hx) as [Hcx Hchx].
      rewrite lookup_insert_ne by other_channel. auto. }
    split.
    { intros f e x Hfe Hx.
      destruct (O4 f e x Hfe Hx) as [[Hcx Hchx]|Hret];
        rewrite lookup_insert_ne by other_channel; auto. }
    split; [exact O5|]. split.
    { intros ch' e. destruct (decide (ch = ch')) as [<-|Hne].
      - rewrite lookup_insert_eq. intros [= <-]. now left.
      - rewrite lookup_insert_ne by assumption. apply O6. }
    intros ch' item' since'. destruct (decide (ch = ch')) as [<-|Hne].
    + rewrite lookup_insert_eq. discriminate.
    + rewrite lookup_insert_ne by assumption. apply O7.
  - destruct (callers s !! ch) as [[item since| |]|] eqn:Hc; try discriminate.
    destruct (chans (loop s) !! ch) as [err|] eqn:He; [|discriminate].
    injection Hstep as <-.
    unfold orderly, items_taken in *.
    cbn [setCaller callers batchCh loop batch chans flushLog] in *.
    split; [exact O1|]. split.
    { intros ch'. destruct (decide (ch = ch')) as [<-|Hne].
      - rewrite lookup_insert_eq. discriminate.
      - rewrite lookup_insert_ne by assumption. intros Hns.
        destruct (O2 ch' Hns) as [Hn Hch']. split; [exact Hn|].
        now rewrite lookup_delete_ne by assumption. }
    split.
    { intros x Hx. destruct (O3 x Hx) as [Hcx Hchx].
      assert (ch <> ResponseCh x) by other_channel.
      rewrite lookup_insert_ne, lookup_delete_ne by assumption. auto. }
    split.
    { intros f e x Hfe Hx. destruct (decide (ch = ResponseCh x)) as [Heq|Hne].
      - right. rewrite <- Heq, lookup_insert_eq.
        destruct (O4 f e x Hfe Hx) as [[_ Hchx]|Hret];
          rewrite <- Heq in *; congruence.
      - rewrite lookup_insert_ne, lookup_delete_ne by assumption.
        apply (O4 f e x Hfe Hx). }
    split.
    { intros ch' e [_ H]%lookup_delete_Some. now apply O5. }
    split.
    { intros ch' e. destruct (decide (ch = ch')) as [<-|Hne].
      - rewrite lookup_insert_eq. intros [= <-]. right. now apply O5.
      - rewrite lookup_insert_ne by assumption. apply O6. }
    intros ch' item' since'. destruct (decide (ch = ch')) as [<-|Hne].
    + rewrite lookup_insert_eq. discriminate.
    + rewrite lookup_insert_ne by assumption. apply O7.
  - destruct (batchCh s) as [|item rest] eqn:Hq; [discriminate|].
    injection Hstep as <-.
    now apply (loop_step_orderly s (Received item) rest).
  - destruct (_ <=? _); [|discriminate]. injection Hstep as <-.
    now apply (loop_step_orderly s Tick (batchCh s)).
  - injection Hstep as <-. exact Hs.
Qed.

Lemma steps_orderly acts : forall s s' : Sys World,
  orderly s -> steps config acts s = Some s' -> orderly s'.
Proof.
  induction acts as [|a acts IH]; intros s s' Hs Hrun; cbn [steps] in Hrun.
  - now injection Hrun as <-.
  - destruct (step config a s) as [s1|] eqn:Hstep; [|discriminate].
    eapply IH; [|exact Hrun]. eapply step_orderly; eassumption.
Qed.

(** A move is only made by a running service and leaves it running. *)
Lemma step_running a (s s' : Sys World) :
  step config a s = Some s' ->
  exited (loop s) = false /\ exited (loop s') = false.
Proof.
  unfold step. destruct (exited (loop s)) eqn:Hex; [discriminate|].
  intros Hstep. split; [reflexivity|].
  destruct a as [ch tf pd|ch|ch|ch| | |]; cbv beta iota in Hstep.
  - destruct (callers s !! ch); [discriminate|]. now injection Hstep as <-.
  - destruct (callers s !! ch) as [[item since| |]|]; try discriminate.
    destruct (_ <? _); [|discriminate]. now injection Hstep as <-.
  - destruct (callers s !! ch) as [[item since| |]|]; try discriminate.
    destruct (_ <=? _); [|discriminate]. now injection Hstep as <-.
  - destruct (callers s !! ch) as [[item since| |]|]; try discriminate.
    destruct (chans (loop s) !! ch); [|discriminate].
    now injection Hstep as <-.
  - destruct (batchCh s) as [|item rest]; [discriminate|].
    injection Hstep as <-. cbn [withLoop loop].
    now destruct (loopIter_cases config (now s) (Received item) (loop s)
                    (outside s) Hex) as [-> _].
  - destruct (_ <=? _); [|discriminate]. injection Hstep as <-.
    cbn [withLoop loop].
    now destruct (loopIter_cases config (now s) Tick (loop s)
                    (outside s) Hex) as [-> _].
  - now injection Hstep as <-.
Qed.

Lemma steps_running acts : forall s s' : Sys World,
  steps config acts s = Some s' -> acts <> [] -> exited (loop s') = false.
Proof.
  induction acts as [|a acts IH]; intros s s' Hrun Hne; [congruence|].
  cbn [steps] in Hrun.
  destruct (step config a s) as [s1|] eqn:Hstep; [|discriminate].
  destruct acts as [|b acts'].
  - injection Hrun as <-. now apply step_running in Hstep.
  - eapply IH; [exact Hrun|discriminate].
Qed.

Lemma run_orderly acts (w : World) (s : Sys World) :
  steps config acts (initial config w) = Some s -> orderly s.
Proof. apply steps_orderly, initial_orderly. Qed.

End Orderly.

(** ** What callers get in every run of the service *)

Section Service.

Context {Uni : Unicode}.

Context {World : Type} `{!OS World}.
Variable config : Config.

(** X11. In every run of the service, a caller that has come back with
    anything but the timeout has come back with the outcome of a flush that
    held its item, and every flush that holds an item of that caller has
    this outcome: no caller is given the outcome of somebody else's
    flush. *)
Theorem response_is_flush_outcome acts (w : World) (s : Sys World) ch e :
  steps config acts (initial config w) = Some s ->
  callers s !! ch = Some (Returned e) ->
  is_timeout e = false ->
  exists f item,
    In (f, e) (flushLog (loop s)) /\ In item f /\ ResponseCh item = ch /\
    forall f' e' item',
      In (f', e') (flushLog (loop s)) -> In item' f' ->
      ResponseCh item' = ch -> e' = e.
Proof.
  intros Hrun Hret Hno.
  destruct (run_orderly config acts w s Hrun) as (_ & _ & _ & O4 & _ & O6 & _).
  destruct (O6 ch e Hret) as [->|(f & item & Hfe & Hin & Hch)];
    [discriminate|].
  exists f, item. repeat split; try assumption.
  intros f' e' item' Hfe' Hin' Hch'.
  destruct (O4 f' e' item' Hfe' Hin') as [[Hc _]|Hc];
    rewrite Hch' in Hc; congruence.
Qed.

(** X12. In every run of the service, the caller of an item that has been
    flushed either has come back with the outcome of that flush, or waits
    with that outcome in its channel: taking the response is enabled and
    brings it back with that outcome. A flushed item's caller is never left
    without an answer. *)
Theorem flushed_item_is_answered acts (w : World) (s : Sys World) f e item :
  steps config acts (initial config w) = Some s ->
  In (f, e) (flushLog (loop s)) -> In item f ->
  callers s !! ResponseCh item = Some (Returned e) \/
  (callers s !! ResponseCh item = Some AwaitingResponse /\
   exists s', step config (ResponseTaken (ResponseCh item)) s = Some s' /\
              callers s' !! ResponseCh item = Some (Returned e)).
Proof.
  intros Hrun Hfe Hin.
  assert (Hal : exited (loop s) = false).
  { destruct acts as [|a acts].
    - injection Hrun as <-. contradiction.
    - eapply steps_running; [exact Hrun|discriminate]. }
  destruct (run_orderly config acts w s Hrun) as (_ & _ & _ & O4 & _).
  destruct (O4 f e item Hfe Hin) as [[Hc Hch]|Hc]; [right|now left].
  split; [exact Hc|]. unfold step. rewrite Hal, Hc, Hch.
  eexists. split; [reflexivity|]. cbn [setCaller callers].
  apply lookup_insert_eq.
Qed.

(** X13. In every run of the service, the items queued, batched and
    flushed all have different response channels, so no request is in two
    flushes or twice in one; and the caller of an item that is still queued
    or batched waits, with nothing in its channel yet. *)
Theorem no_item_is_taken_twice acts (w : World) (s : Sys World) :
  steps config acts (initial config w) = Some s ->
  NoDup (map ResponseCh (items_taken s)) /\
  forall item, In item (batchCh s ++ batch (loop s)) ->
    callers s !! ResponseCh item = Some AwaitingResponse /\
    chans (loop s) !! ResponseCh item = None.
Proof.
  intros Hrun.
  destruct (run_orderly config acts w s Hrun) as (O1 & _ & O3 & _).
  now split.
Qed.

End Service.

Lemma response_is_flush_outcome_witness :
  exists f item,
    In (f, None)
      (flushLog (loop (Sim.after (Sim.config_with 5 1)
                         [Submit 0 (TargetFile Sim.item_a) (ItemDID Sim.item_a);
                          SendTaken 0; LoopReceives; ResponseTaken 0]
                         (initial (Sim.config_with 5 1) Sim.world1)))) /\
    In item f /\ ResponseCh item = 0 /\
    forall f' e' item',
      In (f', e')
        (flushLog (loop (Sim.after (Sim.config_with 5 1)
                           [Submit 0 (TargetFile Sim.item_a) (ItemDID Sim.item_a);
                            SendTaken 0; LoopReceives; ResponseTaken 0]
                           (initial (Sim.config_with 5 1) Sim.world1)))) ->
      In item' f' -> ResponseCh item' = 0 -> e' = None.
Proof.
  apply (response_is_flush_outcome (Sim.config_with 5 1)
           [Submit 0 (TargetFile Sim.item_a) (ItemDID Sim.item_a);
            SendTaken 0; LoopReceives; ResponseTaken 0] Sim.world1);
    vm_compute; reflexivity.
Defined.

Lemma flushed_item_is_answered_witness :
  callers (Sim.after (Sim.config_with 5 1)
             [Submit 0 (TargetFile Sim.item_a) (ItemDID Sim.item_a);
              SendTaken 0; LoopReceives]
             (initial (Sim.config_with 5 1) Sim.world1))
    !! ResponseCh Sim.item_a = Some (Returned None) \/
  (callers (Sim.after (Sim.config_with 5 1)
              [Submit 0 (TargetFile Sim.item_a) (ItemDID Sim.item_a);
               SendTaken 0; LoopReceives]
              (initial (Sim.config_with 5 1) Sim.world1))
     !! ResponseCh Sim.item_a = Some AwaitingResponse /\
   exists s',
     step (Sim.config_with 5 1) (ResponseTaken (ResponseCh Sim.item_a))
       (Sim.after (Sim.config_with 5 1)
          [Submit 0 (TargetFile Sim.item_a) (ItemDID Sim.item_a);
           SendTaken 0; LoopReceives]
          (initial (Sim.config_with 5 1) Sim.world1)) = Some s' /\
     callers s' !! ResponseCh Sim.item_a = Some (Returned None)).
Proof.
  apply (flushed_item_is_answered (Sim.config_with 5 1)
           [Submit 0 (TargetFile Sim.item_a) (ItemDID Sim.item_a);
            SendTaken 0; LoopReceives] Sim.world1 _ [Sim.item_a]);
    [vm_compute; reflexivity|vm_compute; left; reflexivity|now left].
Defined.

Lemma no_item_is_taken_twice_witness :
  NoDup (map ResponseCh
           (items_taken (Sim.after (Sim.config_with 5 2)
                           (Sim.fill 3 ++ [LoopReceives; LoopReceives])
                           (initial (Sim.config_with 5 2) Sim.world1)))) /\
  forall item,
    In item (batchCh (Sim.after (Sim.config_with 5 2)
                        (Sim.fill 3 ++ [LoopReceives; LoopReceives])
                        (initial (Sim.config_with 5 2) Sim.world1))
             ++ batch (loop (Sim.after (Sim.config_with 5 2)
                               (Sim.fill 3 ++ [LoopReceives; LoopReceives])
                               (initial (Sim.config_with 5 2) Sim.world1)))) ->
    callers (Sim.after (Sim.config_with 5 2)
               (Sim.fill 3 ++ [LoopReceives; LoopReceives])
               (initial (Sim.config_with 5 2) Sim.world1))
      !! ResponseCh item = Some AwaitingResponse /\
    chans (loop (Sim.after (Sim.config_with 5 2)
                   (Sim.fill 3 ++ [LoopReceives; LoopReceives])
                   (initial (Sim.config_with 5 2) Sim.world1)))
      !! ResponseCh item = None.
Proof.
  apply (no_item_is_taken_twice (Sim.config_with 5 2)
           (Sim.fill 3 ++ [LoopReceives; LoopReceives]) Sim.world1).
  vm_compute; reflexivity.
Defined.

(** ** The request as a whole *)

Section Request.

Context {Uni : Unicode}.

Context {World : Type} `{!OS World} {J : Type} `{!JSONCodec J}.
Variable config : Config.

Lemma passive_no_command evs :
  forallb passive evs = true ->
  forallb (fun ev => negb (is_exec ev)) evs = true.
Proof.
  induction evs as [|ev evs IH]; [reflexivity|]. cbn [forallb].
  intros [Hev Hevs]%andb_true_iff. rewrite (IH Hevs), andb_true_r.
  unfold passive in Hev. now apply andb_true_iff in Hev as [? _].
Qed.

Lemma fetchDIDDocument_effect url host (st : St World) r st' :
  fetchDIDDocument url host st = (r, st') ->
  exists evs,
    trace st' = trace st ++ evs /\ forallb passive evs = true /\
    (forall body, r = inr body -> In (EvHTTPGet url host) evs).
Proof.
  unfold fetchDIDDocument. destruct (http_new_request url).
  - intros [= <- <-]. exists []. rewrite app_nil_r.
    split; [reflexivity|]. split; [reflexivity|]. discriminate.
  - unfold bind, log, emit, httpGet, ret. cbn [world trace].
    destruct (http_get url host (world st)) as [[err|[status body]] w].
    + intros [= <- <-].
      exists [EvLog (LogMakingRequest url host); EvHTTPGet url host].
      cbn [trace]. rewrite <- app_assoc.
      split; [reflexivity|]. split; [reflexivity|]. discriminate.
    + destruct (negb (status =? 200)); intros [= <- <-];
        exists [EvLog (LogMakingRequest url host); EvHTTPGet url host];
        cbn [trace]; rewrite <- app_assoc;
        (split; [reflexivity|]); (split; [reflexivity|]);
        intros; cbn; auto.
Qed.

Lemma saveDIDDocument_effect data target (st : St World) e st' :
  saveDIDDocument data target st = (e, st') ->
  exists evs,
    trace st' = trace st ++ evs /\
    forallb (fun ev => negb (is_exec ev)) evs = true /\
    match e with
    | None => exists written, In (EvWriteFile target written None) evs
    | Some _ => forallb passive evs = true
    end.
Proof.
  unfold saveDIDDocument, bind, mkdirAll.
  destruct (os_mkdirall (GoFilepath.Dir target) (world st)) as [[err|] w1].
  - unfold ret. intros [= <- <-]. eexists [_]. cbn [trace].
    split; [reflexivity|]. split; reflexivity.
  - destruct (json_unmarshal data) as [v|];
      [destruct (json_marshal_indent v) as [formatted|]|];
      unfold ret, log, emit, writeFile; cbn [world trace];
      match goal with
      | |- context [os_writefile target ?d ?w] =>
          destruct (os_writefile target d w) as [e' w2]
      end;
      intros [= <- <-]; cbn [trace];
      eexists;
      (split; [rewrite <- ?app_assoc; cbn [app]; reflexivity|]);
      (split; [reflexivity|]);
      (destruct e'; [reflexivity|eexists; cbn; eauto 6]).
Qed.

Lemma validateDIDDocumentID_reads target parsed (st : St World) :
  (validateDIDDocumentID target parsed st).2
  = {| world := world st; trace := trace st ++ [EvReadFile target] |}.
Proof.
  unfold validateDIDDocumentID, bind, readFile.
  destruct (os_readfile target (world st)) as [err|data]; [reflexivity|].
  destruct (json_unmarshal_object data) as [doc|]; [|reflexivity].
  destruct (doc "id" ≫= json_as_string) as [docID|]; [|reflexivity].
  destruct (String.eqb docID ""); [reflexivity|].
  now destruct (negb _).
Qed.

Lemma parseDID_expectedID did parsed :
  parseDID did = inr parsed -> expectedID parsed = did /\ did <> "".
Proof.
  intros H. destruct (parseDID_inv _ _ H) as (host & project & segs & Hd & ->).
  rewrite expectedID_Join. cbn [Host Project PathSegs].
  split; [now rewrite <- Hd|]. rewrite Hd. discriminate.
Qed.

(** X16. For an identifier that [parseDID] accepts, [validateDIDDocumentID]
    reads the target file once and changes nothing; it returns [nil] exactly
    when the file can be read and decodes to an object whose [id] is a string
    equal to the identifier as it was received. *)
Theorem validateDIDDocumentID_nil_iff did parsed target (st : St World) :
  parseDID did = inr parsed ->
  (validateDIDDocumentID target parsed st).2
    = {| world := world st; trace := trace st ++ [EvReadFile target] |} /\
  ((validateDIDDocumentID target parsed st).1 = None <->
   exists data doc v,
     os_readfile target (world st) = inr data /\
     json_unmarshal_object data = Some doc /\
     doc "id" = Some v /\ json_as_string v = Some did).
Proof.
  intros Hparse. split; [apply validateDIDDocumentID_reads|].
  destruct (parseDID_expectedID _ _ Hparse) as [Hid Hne].
  unfold validateDIDDocumentID, bind, readFile. rewrite Hid. split.
  - destruct (os_readfile target (world st)) as [err|data] eqn:Hread;
      [discriminate|].
    destruct (json_unmarshal_object data) as [doc|] eqn:Hdoc; [|discriminate].
    destruct (doc "id") as [v|] eqn:Hv; [|discriminate]. cbn [mbind option_bind].
    destruct (json_as_string v) as [docID|] eqn:Hs; [|discriminate].
    destruct (String.eqb docID ""); [discriminate|].
    destruct (String.eqb_spec docID did) as [->|]; [|discriminate].
    intros _. now exists data, doc, v.
  - intros (data & doc & v & -> & -> & Hv & Hs). rewrite Hv.
    cbn [mbind option_bind]. rewrite Hs.
    destruct (String.eqb_spec did ""); [contradiction|].
    now rewrite String.eqb_refl.
Qed.

(** How [processDID] proceeds: it stops before the git stage, having run no
    command and written no file, or it reaches the git stage with the
    document fetched and written. *)
Lemma processDID_stages submit did (st : St World) e st' :
  processDID config submit did st = (e, st') ->
  (exists err evs,
     e = Some err /\ early_failure err = true /\
     trace st' = trace st ++ evs /\ forallb passive evs = true) \/
  (exists parsed cwd written st1 evs,
     parseDID did = inr parsed /\
     HasSuffix (ToLower (Host parsed)) ".github.io" = true /\
     trace st1 = trace st ++ evs /\
     forallb (fun ev => negb (is_exec ev)) evs = true /\
     In (EvHTTPGet (buildFetchURL config parsed) (Host parsed)) evs /\
     In (EvGetwd cwd) evs /\
     In (EvWriteFile (targetFileIn cwd parsed) written None) evs /\
     if DryRun config
     then e = None /\ st' = (log LogDryRun st1).2
     else exists r,
            submit (targetFileIn cwd parsed) parsed st1 = (r, st') /\
            e = option_map ErrGitOps r).
Proof.
  unfold processDID. intros Hrun.
  destruct (parseDID did) as [perr|parsed] eqn:Hparse.
  { injection Hrun as <- <-. left. exists (ErrParse perr), [].
    rewrite app_nil_r. auto. }
  destruct (HasSuffix (ToLower (Host parsed)) ".github.io") eqn:Hhost;
    cbn [negb] in Hrun.
  2:{ injection Hrun as <- <-. left. exists (ErrHostNotGithubIO (Host parsed)), [].
      rewrite app_nil_r. auto. }
  unfold determineTargetFile, getwd, log, emit, ret, bind in Hrun.
  cbv beta iota zeta in Hrun. cbn [world trace] in Hrun.
  destruct (fetchDIDDocument _ _ _) as [[ferr|doc] st2] eqn:Hfetch;
    apply fetchDIDDocument_effect in Hfetch as (evs1 & Ht1 & Hp1 & Hget);
    cbn [trace] in Ht1.
  { injection Hrun as <- <-. left.
    exists (ErrFetch ferr),
      (EvLog (LogFetching (buildFetchURL config parsed)) :: evs1).
    rewrite Ht1, <- app_assoc. cbn [forallb passive is_exec is_write_ok negb andb].
    auto. }
  specialize (Hget doc eq_refl).
  set (cwd := os_getwd (world st2)) in *.
  set (target := targetFileIn cwd parsed) in *.
  destruct (saveDIDDocument doc target _) as [[serr|] st5] eqn:Hsave;
    apply saveDIDDocument_effect in Hsave as (evs2 & Ht2 & Hx2 & Hw2);
    cbn [trace] in Ht2.
  { injection Hrun as <- <-. left.
    exists (ErrSave serr),
      (EvLog (LogFetching (buildFetchURL config parsed)) :: evs1
         ++ [EvGetwd cwd; EvLog (LogTargetFile target)] ++ evs2).
    split; [reflexivity|]. split; [reflexivity|]. split.
    - rewrite Ht2, Ht1, <- !app_assoc. reflexivity.
    - cbn [forallb passive is_exec is_write_ok negb andb].
      rewrite !forallb_app, Hp1, Hw2. reflexivity. }
  destruct Hw2 as [written Hwritten].
  pose proof (validateDIDDocumentID_reads target parsed st5) as Hval.
  destruct (validateDIDDocumentID target parsed st5) as [ve st6].
  cbn [snd] in Hval. subst st6.
  assert (Hn1 : forallb (fun ev => negb (is_exec ev)) evs1 = true).
    by exact (passive_no_command _ Hp1).
  destruct ve as [verr|]; cbv beta iota in Hrun; cbn [world trace] in Hrun;
    right;
    [exists parsed, cwd, written,
       {| world := world st5;
          trace := (trace st5 ++ [EvReadFile target])
                   ++ [EvLog (LogWarning verr)] |},
       (EvLog (LogFetching (buildFetchURL config parsed)) :: evs1
          ++ [EvGetwd cwd; EvLog (LogTargetFile target)] ++ evs2
          ++ [EvReadFile target; EvLog (LogWarning verr)])
    |exists parsed, cwd, written,
       {| world := world st5; trace := trace st5 ++ [EvReadFile target] |},
       (EvLog (LogFetching (buildFetchURL config parsed)) :: evs1
          ++ [EvGetwd cwd; EvLog (LogTargetFile target)] ++ evs2
          ++ [EvReadFile target])];
    (split; [reflexivity|]); (split; [exact Hhost|]);
    (split; [cbn [trace]; rewrite Ht2, Ht1, <- !app_assoc; reflexivity|]);
    (split; [cbn [forallb is_exec negb andb];
             rewrite !forallb_app, Hx2, Hn1; reflexivity|]);
    (split; [right; apply in_or_app; now left|]);
    (split; [right; apply in_or_app; right; now left|]);
    (split; [right; apply in_or_app; right; apply in_or_app; right;
             apply in_or_app; now left|]);
    (destruct (DryRun config); cbn [negb] in Hrun;
     [injection Hrun as <- <-; split; reflexivity
     |destruct (submit target parsed _) as [[gerr|] st8] eqn:Hsub;
      injection Hrun as <- <-; eexists; (split; [exact Hsub|reflexivity])]).
Qed.

(** X17. A [nil] result of [processDID] means that the identifier parsed,
    that its host is a [github.io] host, that the document was requested
    from the resolver at the URL of [buildFetchURL] with the identifier's
    host as [Host] header, that a file was written without error at the
    target path computed from the working directory, that no command was run
    up to there, and that, unless the service runs dry, the batch
    submission of exactly that file and identifier returned [nil]. *)
Theorem processDID_nil submit did (st st' : St World) :
  processDID config submit did st = (None, st') ->
  exists parsed cwd written st1 evs,
    parseDID did = inr parsed /\
    HasSuffix (ToLower (Host parsed)) ".github.io" = true /\
    trace st1 = trace st ++ evs /\
    forallb (fun ev => negb (is_exec ev)) evs = true /\
    In (EvHTTPGet (buildFetchURL config parsed) (Host parsed)) evs /\
    In (EvGetwd cwd) evs /\
    In (EvWriteFile (targetFileIn cwd parsed) written None) evs /\
    if DryRun config then st' = (log LogDryRun st1).2
    else submit (targetFileIn cwd parsed) parsed st1 = (None, st').
Proof.
  intros Hrun.
  destruct (processDID_stages _ _ _ _ _ Hrun)
    as [(err & evs & He & _)
       |(parsed & cwd & written & st1 & evs & H1 & H2 & H3 & H4 & H5 & H6 & H7 & H8)];
    [discriminate|].
  exists parsed, cwd, written, st1, evs. repeat (split; [assumption|]).
  destruct (DryRun config).
  - now destruct H8.
  - destruct H8 as ([gerr|] & Hsub & He); [discriminate|exact Hsub].
Qed.

Lemma processDID_early submit submit' did (st : St World) err :
  (processDID config submit did st).1 = Some err ->
  early_failure err = true ->
  processDID config submit' did st = processDID config submit did st.
Proof.
  unfold processDID. destruct (parseDID did) as [perr|parsed]; [reflexivity|].
  destruct (negb (HasSuffix _ _)); [reflexivity|].
  unfold determineTargetFile, getwd, log, emit, ret, bind. cbv beta iota zeta.
  destruct (fetchDIDDocument _ _ _) as [[ferr|doc] st2]; [reflexivity|].
  destruct (saveDIDDocument _ _ _) as [[serr|] st5]; [reflexivity|].
  destruct (validateDIDDocumentID _ _ _) as [[verr|] st6]; cbv beta iota;
    (destruct (DryRun config); cbn [negb fst];
     [intros [= <-]; discriminate|]);
    destruct (submit _ _ _) as [[gerr|] st8]; cbn [fst];
    intros [= <-]; discriminate.
Qed.

(** X18. When [processDID] fails, either the batch submission was made, in
    a service that does not run dry and after the document was written, and
    the error is the error of the submission; or the error is one of the
    four earlier ones, and then no command was run, no file was written
    without error, and the submission was not made: the outcome is the same
    whatever the submission would have done. The identity check of the
    stored document is not among the errors. *)
Theorem processDID_error submit did (st : St World) err st' :
  processDID config submit did st = (Some err, st') ->
  (early_failure err = true /\
   (exists evs, trace st' = trace st ++ evs /\ forallb passive evs = true) /\
   forall submit', processDID config submit' did st = (Some err, st')) \/
  (DryRun config = false /\
   exists gerr parsed cwd written st1,
     err = ErrGitOps gerr /\
     parseDID did = inr parsed /\
     In (EvWriteFile (targetFileIn cwd parsed) written None) (trace st1) /\
     submit (targetFileIn cwd parsed) parsed st1 = (Some gerr, st')).
Proof.
  intros Hrun.
  destruct (processDID_stages _ _ _ _ _ Hrun)
    as [(err' & evs & [= <-] & Hearly & Ht & Hp)
       |(parsed & cwd & written & st1 & evs & H1 & H2 & H3 & H4 & H5 & H6 & H7 & H8)].
  - left. split; [exact Hearly|]. split; [now exists evs|].
    intros submit'. rewrite <- Hrun.
    apply (processDID_early submit submit' did st err);
      [now rewrite Hrun|exact Hearly].
  - right. destruct (DryRun config); [now destruct H8|].
    split; [reflexivity|].
    destruct H8 as ([gerr|] & Hsub & [= ->]).
    exists gerr, parsed, cwd, written, st1.
    split; [reflexivity|]. split; [exact H1|]. split; [|exact Hsub].
    rewrite H3. apply in_or_app. now right.
Qed.

(** X19. A service that runs dry never makes the batch submission and never
    runs a command: the result and the state [processDID] leaves do not
    depend on what the submission would do, and the events of the request
    hold no command. *)
Theorem processDID_dry_run submit submit' did (st : St World) :
  DryRun config = true ->
  processDID config submit' did st = processDID config submit did st /\
  exists evs,
    trace (processDID config submit did st).2 = trace st ++ evs /\
    forallb (fun ev => negb (is_exec ev)) evs = true.
Proof.
  intros Hdry. split.
  { unfold processDID. now rewrite Hdry. }
  destruct (processDID config submit did st) as [e st'] eqn:Hrun. cbn [snd].
  destruct (processDID_stages _ _ _ _ _ Hrun)
    as [(err' & evs & _ & _ & Ht & Hp)
       |(parsed & cwd & written & st1 & evs & _ & _ & H3 & H4 & _ & _ & _ & H8)].
  - exists evs. split; [exact Ht|]. now apply passive_no_command.
  - rewrite Hdry in H8. destruct H8 as [_ ->].
    exists (evs ++ [EvLog LogDryRun]). cbn [log emit snd trace].
    rewrite H3, <- app_assoc. split; [reflexivity|].
    rewrite forallb_app, H4. reflexivity.
Qed.

End Request.

Lemma validateDIDDocumentID_nil_iff_witness :
  (@validateDIDDocumentID _ _ _ id_codec "a/did.json"
     (Sim.did_of "alice.github.io" "repo" ["a"]) (Sim.start world_with_id)).2
    = {| world := world_with_id; trace := [] ++ [EvReadFile "a/did.json"] |} /\
  ((@validateDIDDocumentID _ _ _ id_codec "a/did.json"
      (Sim.did_of "alice.github.io" "repo" ["a"]) (Sim.start world_with_id)).1
     = None <->
   exists data doc v,
     os_readfile "a/did.json" world_with_id = inr data /\
     @json_unmarshal_object _ id_codec data = Some doc /\
     doc "id" = Some v /\
     @json_as_string _ id_codec v = Some "did:web:alice.github.io:repo:a").
Proof.
  apply (@validateDIDDocumentID_nil_iff _ _ _ _ id_codec
           "did:web:alice.github.io:repo:a"
           (Sim.did_of "alice.github.io" "repo" ["a"]) "a/did.json"
           (Sim.start world_with_id)).
  reflexivity.
Defined.

Lemma processDID_nil_witness :
  exists parsed cwd written st1 evs,
    parseDID "did:web:alice.github.io:repo:a" = inr parsed /\
    HasSuffix (ToLower (Host parsed)) ".github.io" = true /\
    trace st1 = trace (Sim.start served_world) ++ evs /\
    forallb (fun ev => negb (is_exec ev)) evs = true /\
    In (EvHTTPGet (buildFetchURL (Sim.config_with 5 10) parsed) (Host parsed))
      evs /\
    In (EvGetwd cwd) evs /\
    In (EvWriteFile (targetFileIn cwd parsed) written None) evs /\
    if DryRun (Sim.config_with 5 10)
    then (processDID (Sim.config_with 5 10) (fun _ _ => ret None)
            "did:web:alice.github.io:repo:a" (Sim.start served_world)).2
         = (log LogDryRun st1).2
    else ret (None : error) st1
         = (None,
            (processDID (Sim.config_with 5 10) (fun _ _ => ret None)
               "did:web:alice.github.io:repo:a" (Sim.start served_world)).2).
Proof.
  apply (processDID_nil (Sim.config_with 5 10) (fun _ _ => ret None)
           "did:web:alice.github.io:repo:a" (Sim.start served_world)).
  vm_compute; reflexivity.
Defined.

Lemma processDID_error_witness :
  (early_failure (ErrFetch (ErrOS "unreachable")) = true /\
   (exists evs,
      trace (processDID (Sim.config_with 5 10) (fun _ _ => ret None)
               "did:web:alice.github.io:repo:zzz" (Sim.start served_world)).2
        = trace (Sim.start served_world) ++ evs /\
      forallb passive evs = true) /\
   forall submit',
     processDID (Sim.config_with 5 10) submit'
       "did:web:alice.github.io:repo:zzz" (Sim.start served_world)
     = (Some (ErrFetch (ErrOS "unreachable")),
        (processDID (Sim.config_with 5 10) (fun _ _ => ret None)
           "did:web:alice.github.io:repo:zzz" (Sim.start served_world)).2)) \/
  (DryRun (Sim.config_with 5 10) = false /\
   exists gerr parsed cwd written st1,
     ErrFetch (ErrOS "unreachable") = ErrGitOps gerr /\
     parseDID "did:web:alice.github.io:repo:zzz" = inr parsed /\
     In (EvWriteFile (targetFileIn cwd parsed) written None) (trace st1) /\
     ret (None : error) st1
     = (Some gerr,
        (processDID (Sim.config_with 5 10) (fun _ _ => ret None)
           "did:web:alice.github.io:repo:zzz" (Sim.start served_world)).2)).
Proof.
  apply (processDID_error (Sim.config_with 5 10) (fun _ _ => ret None)
           "did:web:alice.github.io:repo:zzz" (Sim.start served_world)).
  vm_compute; reflexivity.
Defined.

Lemma processDID_dry_run_witness :
  processDID dry_run_config (fun _ _ => ret (Some ErrTimeout))
    "did:web:alice.github.io:repo:a" (Sim.start served_world)
  = processDID dry_run_config (fun _ _ => ret None)
      "did:web:alice.github.io:repo:a" (Sim.start served_world) /\
  exists evs,
    trace (processDID dry_run_config (fun _ _ => ret None)
             "did:web:alice.github.io:repo:a" (Sim.start served_world)).2
      = trace (Sim.start served_world) ++ evs /\
    forallb (fun ev => negb (is_exec ev)) evs = true.
Proof.
  apply (processDID_dry_run dry_run_config (fun _ _ => ret None)
           (fun _ _ => ret (Some ErrTimeout))
           "did:web:alice.github.io:repo:a" (Sim.start served_world)).
  reflexivity.
Defined.

(** ** The branch a flush works on *)

Section BranchSwitch.

Context {Uni : Unicode}.

Context {World : Type} `{!OS World}.

(** What is assumed of [git]: [current w] is the branch [HEAD] is on, the
    query prints it, and a successful check-out of [branch], with or without
    [-b], leaves [HEAD] on it. *)
Variable current : World -> string.
Variable branch : string.

Hypothesis head_query : forall w out w',
  os_exec ["git"; "rev-parse"; "--abbrev-ref"; "HEAD"] w = (true, out, w') ->
  current w' = TrimSpace out.
Hypothesis checkout_switches : forall w out w',
  os_exec ["git"; "checkout"; branch] w = (true, out, w') ->
  current w' = branch.
Hypothesis checkout_creates : forall w out w',
  os_exec ["git"; "checkout"; "-b"; branch] w = (true, out, w') ->
  current w' = branch.

(** X20. When [checkoutOrCreateBranch] returns [nil], [HEAD] is on the
    branch asked for: either the query found it there and nothing else was
    run, or a check-out succeeded. [git checkout -b] is only run after
    [git rev-parse --verify] has failed for the branch. *)
Theorem checkoutOrCreateBranch_lands (st st' : St World) :
  checkoutOrCreateBranch branch st = (None, st') ->
  current (world st') = branch /\
  exists evs,
    trace st' = trace st ++ evs /\
    (existsb (git_succeeded "checkout") evs = false -> length evs = 1) /\
    (forall ok out,
       In (EvExec ["git"; "checkout"; "-b"; branch] ok out) evs ->
       exists out',
         In (EvExec ["git"; "rev-parse"; "--verify"; branch] false out') evs).
Proof.
  unfold checkoutOrCreateBranch, bind, run, ret. cbn [world trace].
  destruct (os_exec ["git"; "rev-parse"; "--abbrev-ref"; "HEAD"] (world st))
    as [[ok out] w1] eqn:Hhead.
  destruct ok; cbn [negb]; [|discriminate].
  destruct (String.eqb_spec (TrimSpace out) branch) as [Heq|Hne].
  { intros [= <-]. cbn [world trace]. split.
    - rewrite (head_query _ _ _ Hhead). exact Heq.
    - eexists [_]. split; [reflexivity|]. split; [reflexivity|].
      intros ok' out' [H|[]]. discriminate H. }
  cbv beta iota. cbn [world trace].
  destruct (os_exec ["git"; "rev-parse"; "--verify"; branch] w1)
    as [[ok2 out2] w2].
  destruct ok2; cbn [negb]; cbv beta iota; cbn [world trace].
  - destruct (os_exec ["git"; "checkout"; branch] w2)
      as [[ok3 out3] w3] eqn:Hco.
    destruct ok3; cbn [negb]; cbv beta iota; [|discriminate].
    intros [= <-]. cbn [world trace]. split.
    + exact (checkout_switches _ _ _ Hco).
    + eexists [_; _; _]. rewrite <- !app_assoc. split; [reflexivity|].
      split; [intros Hno; exfalso; revert Hno; vm_compute; discriminate|].
      intros ok' out' [H|[H|[H|[]]]]; discriminate H.
  - destruct (os_exec ["git"; "checkout"; "-b"; branch] w2)
      as [[ok3 out3] w3] eqn:Hco.
    destruct ok3; cbn [negb]; cbv beta iota; [|discriminate].
    intros [= <-]. cbn [world trace]. split.
    + exact (checkout_creates _ _ _ Hco).
    + eexists [_; _; _]. rewrite <- !app_assoc. split; [reflexivity|].
      split; [intros Hno; exfalso; revert Hno; vm_compute; discriminate|].
      intros _ _ _. exists out2. right. now left.
Qed.

End BranchSwitch.

Lemma sim_head_query (w : Sim.SimWorld) out w' :
  os_exec ["git"; "rev-parse"; "--abbrev-ref"; "HEAD"] w = (true, out, w') ->
  reported_branch w' = TrimSpace out.
Proof.
  cbn [os_exec sim_os]. unfold sim_exec, git. vm_compute String.eqb.
  cbn [andb]. destruct (sim_commits w); [discriminate|].
  intros [= <- <-]. reflexivity.
Qed.

Lemma sim_checkout_switches (w : Sim.SimWorld) out w' :
  os_exec ["git"; "checkout"; "fresh"] w = (true, out, w') ->
  reported_branch w' = "fresh".
Proof.
  cbn [os_exec sim_os]. unfold sim_exec, git. cbn [String.eqb Ascii.eqb].
  vm_compute String.eqb.
  destruct (known_branch w "fresh"); [|discriminate].
  intros [= _ <-]. reflexivity.
Qed.

Lemma sim_checkout_creates (w : Sim.SimWorld) out w' :
  os_exec ["git"; "checkout"; "-b"; "fresh"] w = (true, out, w') ->
  reported_branch w' = "fresh".
Proof.
  cbn [os_exec sim_os]. unfold sim_exec, git. vm_compute String.eqb.
  destruct (known_branch w "fresh"); [discriminate|].
  intros [= _ <-]. reflexivity.
Qed.

Lemma checkoutOrCreateBranch_lands_witness :
  reported_branch
    (world (checkoutOrCreateBranch "fresh" (Sim.start Sim.world0)).2) = "fresh" /\
  exists evs,
    trace (checkoutOrCreateBranch "fresh" (Sim.start Sim.world0)).2
      = trace (Sim.start Sim.world0) ++ evs /\
    (existsb (git_succeeded "checkout") evs = false -> length evs = 1) /\
    (forall ok out,
       In (EvExec ["git"; "checkout"; "-b"; "fresh"] ok out) evs ->
       exists out',
         In (EvExec ["git"; "rev-parse"; "--verify"; "fresh"] false out') evs).
Proof.
  apply (checkoutOrCreateBranch_lands reported_branch "fresh"
           sim_head_query sim_checkout_switches sim_checkout_creates
           (Sim.start Sim.world0)).
  vm_compute; reflexivity.
Defined.
